(** * The console of the portfolio site: virtual filesystem and command parser

    A shallow embedding of [src/js/console/ConsoleMode.js] (class
    [VirtualFileSystem]) and [src/js/console/CommandParser.js] (class
    [CommandParser]), and the properties of the path resolver, the directory
    listing, the search, the tree builder and the command dispatch.

    JavaScript strings are sequences of UTF-16 code units, and they are
    modelled as such: a [jstring] is a list of code units.  The functions of
    the language that the code calls ([trim], [split], [indexOf],
    [substring], [parseInt], ...) are written out in module [JS].  Two
    functions of the host depend on data that is not part of the language
    core (the Unicode case tables and the collation of the locale):
    [toLowerCase] and [localeCompare] are fields of the class [Host], over
    which the development is stated, and a theorem says which of their
    properties it uses.  The class also holds the wording of the TypeError
    of the engine, which one error message quotes.

    Part III goes on to the operations around these: the completion of
    commands and paths, the keys of the history, [setCwd], the lookup of a
    project by its identifier, and how the operations compose over a
    session. *)

From Stdlib Require Import List Bool Arith NArith ZArith Lia.
From Stdlib Require Ascii String.
Import String.StringSyntax.
From Stdlib Require Import Permutation Sorted.
From Stdlib Require Import DecimalNat.
Import ListNotations.
Local Open Scope string_scope.
Local Open Scope list_scope.
Local Open Scope nat_scope.

Set Implicit Arguments.
Set Default Proof Using "Type".

(* ================================================================== *)
(** * Part I: definitions *)
(* ================================================================== *)

(** ** Strings and the primitives of the language *)

Module JS.

(** A UTF-16 code unit. *)
Definition char := N.

Definition jstring := list char.

(** The code units of an ASCII literal. *)
Definition js (s : String.string) : jstring :=
  map Ascii.N_of_ascii (String.list_ascii_of_string s).

(** The code unit of a literal of one character. *)
Definition ch (s : String.string) : char := hd 0%N (js s).

Fixpoint str_eqb (a b : jstring) : bool :=
  match a, b with
  | [], [] => true
  | x :: a', y :: b' => N.eqb x y && str_eqb a' b'
  | _, _ => false
  end.

(** WhiteSpace and LineTerminator of ECMAScript: what [trim], the regular
    expression class [\s] and the prefix skipped by [parseInt] consist of. *)
Definition isWhiteSpace (c : char) : bool :=
  (existsb (N.eqb c)
     [9; 10; 11; 12; 13; 32; 160; 5760; 8232; 8233; 8239; 8287; 12288; 65279]
   || ((8192 <=? c) && (c <=? 8202)))%N.

Fixpoint dropWhile (p : char -> bool) (s : jstring) : jstring :=
  match s with
  | [] => []
  | c :: r => if p c then dropWhile p r else s
  end.

Fixpoint takeWhile (p : char -> bool) (s : jstring) : jstring :=
  match s with
  | [] => []
  | c :: r => if p c then c :: takeWhile p r else []
  end.

Definition dropWhileEnd (p : char -> bool) (s : jstring) : jstring :=
  rev (dropWhile p (rev s)).

(** [s.trim()] *)
Definition trim (s : jstring) : jstring :=
  dropWhileEnd isWhiteSpace (dropWhile isWhiteSpace s).

(** [s.startsWith(p)] *)
Fixpoint startsWith (s p : jstring) {struct p} : bool :=
  match p, s with
  | [], _ => true
  | x :: p', y :: s' => N.eqb x y && startsWith s' p'
  | _ :: _, [] => false
  end.

(** [s.endsWith(p)] *)
Definition endsWith (s p : jstring) : bool := startsWith (rev s) (rev p).

(** The offset of the first occurrence of [t] in [s]. *)
Fixpoint find (s t : jstring) : option nat :=
  if startsWith s t then Some 0
  else match s with
       | [] => None
       | _ :: r => option_map S (find r t)
       end.

(** [s.indexOf(t)], which is -1 when [t] does not occur. *)
Definition indexOf (s t : jstring) : Z :=
  match find s t with
  | Some i => Z.of_nat i
  | None => (-1)%Z
  end.

(** [s.includes(t)] *)
Definition includes (s t : jstring) : bool :=
  match find s t with Some _ => true | None => false end.

(** [s.split(c)] for a separator of one code unit. *)
Fixpoint split (c : char) (s : jstring) : list jstring :=
  match s with
  | [] => [[]]
  | x :: r =>
      if N.eqb x c then [] :: split c r
      else match split c r with
           | [] => [[x]]
           | w :: ws => (x :: w) :: ws
           end
  end.

(** [parts.join(sep)] *)
Fixpoint join (sep : jstring) (parts : list jstring) : jstring :=
  match parts with
  | [] => []
  | [p] => p
  | p :: rest => p ++ sep ++ join sep rest
  end.

(** [s.substring(a, b)]: both bounds are clamped to [0, s.length] and
    swapped when they come in the wrong order. *)
Definition substring (s : jstring) (a b : Z) : jstring :=
  let len := Z.of_nat (length s) in
  let a' := Z.min (Z.max a 0) len in
  let b' := Z.min (Z.max b 0) len in
  let lo := Z.to_nat (Z.min a' b') in
  let hi := Z.to_nat (Z.max a' b') in
  firstn (hi - lo) (skipn lo s).

(** [s.replace(pat, rep)] for a string pattern: the first occurrence only. *)
Definition replace (s pat rep : jstring) : jstring :=
  match find s pat with
  | None => s
  | Some i => firstn i s ++ rep ++ skipn (i + length pat) s
  end.

(** [s.repeat(n)] *)
Fixpoint repeat_str (s : jstring) (n : nat) : jstring :=
  match n with
  | O => []
  | S k => s ++ repeat_str s k
  end.

Definition isDigit (c : char) : bool := ((48 <=? c) && (c <=? 57))%N.

Fixpoint uint_units (d : Decimal.uint) : jstring :=
  match d with
  | Decimal.Nil => []
  | Decimal.D0 d => 48%N :: uint_units d
  | Decimal.D1 d => 49%N :: uint_units d
  | Decimal.D2 d => 50%N :: uint_units d
  | Decimal.D3 d => 51%N :: uint_units d
  | Decimal.D4 d => 52%N :: uint_units d
  | Decimal.D5 d => 53%N :: uint_units d
  | Decimal.D6 d => 54%N :: uint_units d
  | Decimal.D7 d => 55%N :: uint_units d
  | Decimal.D8 d => 56%N :: uint_units d
  | Decimal.D9 d => 57%N :: uint_units d
  end.

(** The string of a natural number, as a template literal prints it. *)
Definition String_of_nat (n : nat) : jstring := uint_units (Nat.to_uint n).

(** The value of a run of decimal digits, most significant first. *)
Definition digitsValue (ds : jstring) : Z :=
  fold_left (fun acc c => 10 * acc + (Z.of_N c - 48))%Z ds 0%Z.

(** The sign in front of a number; 45 and 43 are the code units of minus
    and plus. *)
Definition readSign (s : jstring) : Z * jstring :=
  match s with
  | c :: r =>
      if N.eqb c 45 then ((-1)%Z, r)
      else if N.eqb c 43 then (1%Z, r)
      else (1%Z, s)
  | [] => (1%Z, s)
  end.

(** The integer that [parseInt(s, 10)] reads: white space is skipped, then
    a sign is read, then the longest run of decimal digits; [None] is NaN.
    The value is the exact integer, before it is made a number.  [cmdTree]
    compares it with 1 and with the depth of the walk, for which the number
    and the integer agree; [getProjectPathById] compares it with
    identifiers and takes the number, see [parseIntNumber]. *)
Definition parseInt (s : jstring) : option Z :=
  let '(sign, s2) := readSign (dropWhile isWhiteSpace s) in
  match takeWhile isDigit s2 with
  | [] => None
  | ds => Some (sign * digitsValue ds)%Z
  end.

(** The number for an integer: the nearest double, the one with the even
    mantissa when two are as near.  An integer below 2^53 in size is its
    own number; a larger one keeps its 53 leading bits, rounded; [None] is
    an infinity, which is reached at 2^1024. *)
Definition toNumber (n : Z) : option Z :=
  let a := Z.abs n in
  if (a <? 2 ^ 53)%Z then Some n
  else
    let e := (Z.log2 a - 52)%Z in
    let q := Z.shiftr a e in
    let r := (a - Z.shiftl q e)%Z in
    let half := Z.shiftl 1 (e - 1) in
    let q' := if (half <? r)%Z || ((r =? half)%Z && Z.odd q)
              then (q + 1)%Z else q in
    let v := Z.shiftl q' e in
    if (v <? 2 ^ 1024)%Z then Some (Z.sgn n * v)%Z else None.

(** [parseInt(s, 10)] as a number, for a comparison with [===] against a
    finite number: [None] is NaN or an infinity, which equal no finite
    number.  All digits are read before the value is rounded, as the
    engines do; the language lets an engine read the digits after the
    twentieth as zeros. *)
Definition parseIntNumber (s : jstring) : option Z :=
  match parseInt s with
  | Some i => toNumber i
  | None => None
  end.

(** *** Objects used as tables

    An object literal used as a map from names to values: its own
    properties in the order [Object.entries] enumerates them.  A lookup
    [o[k]] that finds no own property goes on to [Object.prototype]. *)

Definition object (A : Type) := list (jstring * A).

Definition prototypeKeys : list jstring :=
  map js [ "constructor"; "__defineGetter__"; "__defineSetter__";
           "hasOwnProperty"; "__lookupGetter__"; "__lookupSetter__";
           "isPrototypeOf"; "propertyIsEnumerable"; "toString"; "valueOf";
           "__proto__"; "toLocaleString" ].

Definition isPrototypeKey (k : jstring) : bool :=
  existsb (str_eqb k) prototypeKeys.

Fixpoint getOwn {A} (o : object A) (k : jstring) : option A :=
  match o with
  | [] => None
  | (k', v) :: rest => if str_eqb k' k then Some v else getOwn rest k
  end.

(** The three ways [o[k]] can end. *)
Inductive property (A : Type) : Type :=
| Own (v : A)
| Inherited (k : jstring)
| Undefined.
Arguments Inherited {A} k.
Arguments Undefined {A}.

Definition get {A} (o : object A) (k : jstring) : property A :=
  match getOwn o k with
  | Some v => Own v
  | None => if isPrototypeKey k then Inherited k else Undefined
  end.

(** A canonical array index: these keys are enumerated first, in
    ascending order, whatever the order of insertion. *)
Definition arrayIndex (k : jstring) : option Z :=
  match k with
  | [] => None
  | c :: r =>
      if forallb isDigit k
         && (negb (N.eqb c 48) || match r with [] => true | _ => false end)
      then let n := digitsValue k in
           if (n <=? 4294967294)%Z then Some n else None
      else None
  end.

(** [o[k] = v]: an own property keeps its place, a new array index goes
    to its place among the array indices, and any other new key goes to the
    end. *)
Fixpoint set {A} (o : object A) (k : jstring) (v : A) : object A :=
  match o with
  | [] => [(k, v)]
  | (k', v') :: rest =>
      if str_eqb k' k then (k', v) :: rest
      else match arrayIndex k, arrayIndex k' with
           | Some i, Some i' =>
               if (i <? i')%Z then (k, v) :: o else (k', v') :: set rest k v
           | Some _, None => (k, v) :: o
           | None, _ => (k', v') :: set rest k v
           end
  end.

(** *** Arrays *)

(** [array.sort(compare)].  The sort of the language is stable, and with a
    consistent comparator its result is the one stable sorted arrangement
    of the array, which insertion from the right computes. *)
Fixpoint insertBy {A} (compare : A -> A -> Z) (x : A) (l : list A) : list A :=
  match l with
  | [] => [x]
  | y :: r => if (compare x y <=? 0)%Z then x :: l else y :: insertBy compare x r
  end.

Definition sort {A} (compare : A -> A -> Z) (l : list A) : list A :=
  fold_right (insertBy compare) [] l.

(** A string in a condition: the empty string alone is falsy. *)
Definition truthy (s : jstring) : bool :=
  match s with [] => false | _ => true end.

(** [s || d] on strings. *)
Definition orElse (s d : jstring) : jstring := if truthy s then s else d.

(** An array element that may be missing, in [a[i] || d]. *)
Definition nthOr (args : list jstring) (i : nat) (d : jstring) : jstring :=
  match nth_error args i with
  | Some a => orElse a d
  | None => d
  end.

Definition nl : jstring := [10%N].

End JS.

Import JS.

(** ** Errors and results *)

(** [throw new Error(...)]: the kinds of error of the console. *)
Inductive Error : Type :=
| FilesystemNotInitialized
| PathNotFound (path : jstring)
| NotADirectory (path : jstring)
| NotAFile (path : jstring)
| MissingArgument (msg : jstring)
| InvalidDepth
| TypeError (msg : jstring).

Inductive outcome (A : Type) : Type :=
| Return (a : A)
| Throw (e : Error).
Arguments Throw {A} e.

Definition bind {A B} (m : outcome A) (f : A -> outcome B) : outcome B :=
  match m with
  | Return a => f a
  | Throw e => Throw e
  end.

Notation "x <- m ;; k" := (bind m (fun x => k))
  (at level 61, m at next level, right associativity).

(** [error.message] *)
Definition message (e : Error) : jstring :=
  match e with
  | FilesystemNotInitialized => js "Filesystem not initialized"
  | PathNotFound p => js "path not found: " ++ p
  | NotADirectory p => js "not a directory: " ++ p
  | NotAFile p => js "not a file: " ++ p
  | MissingArgument m => m
  | InvalidDepth => js "tree depth must be a positive number"
  | TypeError m => m
  end.

(** ** The nodes of the tree *)

Local Unset Elimination Schemes.

Inductive node : Type :=
| File (name path content : jstring) (url : option jstring)
| Directory (name path : jstring) (projectId : option Z)
            (children : object node).

Local Set Elimination Schemes.

(** Induction on a node, with the property at hand for every child of a
    directory. *)
Fixpoint node_induction (P : node -> Prop)
  (HFile : forall name path content url, P (File name path content url))
  (HDirectory : forall name path projectId children,
      Forall (fun kv => P (snd kv)) children ->
      P (Directory name path projectId children))
  (n : node) {struct n} : P n :=
  match n with
  | File name path content url => HFile name path content url
  | Directory name path projectId children =>
      HDirectory name path projectId children
        ((fix each (cs : object node) : Forall (fun kv => P (snd kv)) cs :=
            match cs with
            | [] => Forall_nil _
            | kv :: rest =>
                Forall_cons kv (node_induction P HFile HDirectory (snd kv))
                  (each rest)
            end) children)
  end.

(** What a property access on the tree can give: a node, or a value that
    [Object.prototype] supplies ([children["constructor"]] is the function
    [Object]). *)
Inductive value : Type :=
| Node (n : node)
| Builtin (key : jstring).

Inductive nodeType : Type := directory | file.

Definition nodeType_eqb (a b : nodeType) : bool :=
  match a, b with
  | directory, directory | file, file => true
  | _, _ => false
  end.

Definition type (n : node) : nodeType :=
  match n with
  | File _ _ _ _ => file
  | Directory _ _ _ _ => directory
  end.

Definition name (n : node) : jstring :=
  match n with
  | File nm _ _ _ => nm
  | Directory nm _ _ _ => nm
  end.

Definition path (n : node) : jstring :=
  match n with
  | File _ p _ _ => p
  | Directory _ p _ _ => p
  end.

(** ** Path resolver *)

(** [s.split('/').filter(p => p.length > 0)] *)
Definition segments (s : jstring) : list jstring :=
  filter (fun p => negb (Nat.eqb (length p) 0)) (split (ch "/") s).

(** [_normalizePath] *)
Definition _normalizePath (p : jstring) : jstring :=
  js "/" ++ join (js "/") (segments p).

(** One turn of the loop of [_resolveAbsolutePath]. *)
Definition resolveStep (cwdParts : list jstring) (part : jstring) : list jstring :=
  if str_eqb part (js ".") then cwdParts
  else if str_eqb part (js "..") then removelast cwdParts
  else cwdParts ++ [part].

(** [_resolveAbsolutePath] *)
Definition _resolveAbsolutePath (p cwd : jstring) : jstring :=
  if startsWith p (js "/") then _normalizePath p
  else
    let cwdParts := segments cwd in
    let pathParts := segments p in
    js "/" ++ join (js "/") (fold_left resolveStep pathParts cwdParts).

(** ** The host *)

(** What the code takes from the host beyond the primitives above. *)
Class Host : Type := {
  (** [String.prototype.toLowerCase], which follows the Unicode case
      tables. *)
  toLowerCase : jstring -> jstring;
  (** [String.prototype.localeCompare], which follows the collation of the
      locale: negative, zero or positive. *)
  localeCompare : jstring -> jstring -> Z;
  (** The message of the TypeError that the engine raises when a property
      is read from [undefined] or [null]; the arguments are the value and
      the property. *)
  typeErrorMessage : jstring -> jstring -> jstring
}.

(** A host for the examples: it lowers the letters A to Z and leaves every
    other code unit, and it compares strings code unit by code unit. *)
Definition lowerUnit (c : char) : char :=
  if ((65 <=? c) && (c <=? 90))%N then (c + 32)%N else c.

Fixpoint compareUnits (a b : jstring) : Z :=
  match a, b with
  | [], [] => 0
  | [], _ :: _ => -1
  | _ :: _, [] => 1
  | x :: a', y :: b' =>
      if (x <? y)%N then -1
      else if (y <? x)%N then 1
      else compareUnits a' b'
  end%Z.

Definition exampleHost : Host := {|
  toLowerCase := map lowerUnit;
  localeCompare := compareUnits;
  typeErrorMessage := fun value property =>
    js "Cannot read properties of " ++ value ++ js " (reading '" ++ property
    ++ js "')"
|}.

Section Console.

Context {host : Host}.

(** ** Virtual filesystem *)

(** The fields of [VirtualFileSystem] that the queries read. *)
Record VirtualFileSystem : Type := {
  root : option node;
  initialized : bool
}.

(** [current.children[part]] *)
Definition child (children : object node) (part : jstring) : option value :=
  match get children part with
  | Own n => Some (Node n)
  | Inherited k => Some (Builtin k)
  | Undefined => None
  end.

(** The loop of [resolvePath]: a value that [Object.prototype] supplied has
    no [type], and the walk stops at it as it stops at a file. *)
Fixpoint walk (current : value) (parts : list jstring) : option value :=
  match parts with
  | [] => Some current
  | part :: rest =>
      match current with
      | Node (Directory _ _ _ children) =>
          match child children part with
          | Some next => walk next rest
          | None => None
          end
      | _ => None
      end
  end.

(** [resolvePath(path, cwd)]; [None] is [null]. *)
Definition resolvePath (fs : VirtualFileSystem) (p cwd : jstring)
  : outcome (option value) :=
  if negb (initialized fs) then Throw FilesystemNotInitialized
  else
    let absolutePath := _resolveAbsolutePath p cwd in
    let parts := segments absolutePath in
    match parts, root fs with
    | [], r => Return (option_map Node r)
    | _ :: _, Some r => Return (walk (Node r) parts)
    | _ :: _, None => Throw (TypeError (typeErrorMessage (js "null") (js "type")))
    end.

(** The entries of a listing. *)
Record entry : Type := {
  entryName : jstring;
  entryType : nodeType;
  entryPath : jstring
}.

(** The comparator of [listDirectory]: directories first, then by name. *)
Definition compareEntries (a b : entry) : Z :=
  if negb (nodeType_eqb (entryType a) (entryType b))
  then match entryType a with directory => (-1)%Z | file => 1%Z end
  else localeCompare (entryName a) (entryName b).

Definition entryOf (kv : jstring * node) : entry :=
  {| entryName := fst kv; entryType := type (snd kv); entryPath := path (snd kv) |}.

(** [listDirectory(path, cwd)] *)
Definition listDirectory (fs : VirtualFileSystem) (p cwd : jstring)
  : outcome (list entry) :=
  node <- resolvePath fs p cwd ;;
  match node with
  | None => Throw (PathNotFound p)
  | Some (Node (Directory _ _ _ children)) =>
      Return (sort compareEntries (map entryOf children))
  | Some _ => Throw (NotADirectory p)
  end.

(** [readFile(path, cwd)] *)
Definition readFile (fs : VirtualFileSystem) (p cwd : jstring)
  : outcome jstring :=
  node <- resolvePath fs p cwd ;;
  match node with
  | None => Throw (PathNotFound p)
  | Some (Node (File _ _ content _)) => Return content
  | Some _ => Throw (NotAFile p)
  end.

(** *** Tree rendering *)

(** The connectors and the continuation marker of the tree. *)
Definition connectorLast : jstring := [9492; 9472; 9472; 32]%N.
Definition connectorMid : jstring := [9500; 9472; 9472; 32]%N.
Definition markerBar : jstring := [9474; 32; 32; 32]%N.
Definition markerBlank : jstring := js "    ".

Definition treeLine (displayName suffix prefix : jstring) (isLast : bool)
  (currentDepth : Z) : jstring :=
  let connector := if isLast then connectorLast else connectorMid in
  if (currentDepth >? 0)%Z then prefix ++ connector ++ displayName ++ suffix
  else displayName ++ suffix.

(** [_buildTreeLines]; the lines are returned instead of pushed. *)
Fixpoint _buildTreeLines (n : node) (prefix : jstring) (isLast : bool)
  (maxDepth currentDepth : Z) (lines : list jstring) {struct n} : list jstring :=
  if (currentDepth >? maxDepth)%Z then lines
  else
    let displayName := orElse (name n) (js "/") in
    let suffix := match n with Directory _ _ _ _ => js "/" | File _ _ _ _ => [] end in
    let lines := lines ++ [treeLine displayName suffix prefix isLast currentDepth] in
    match n with
    | Directory _ _ _ children =>
        if (currentDepth <? maxDepth)%Z then
          let newPrefix :=
            if (currentDepth =? 0)%Z then []
            else prefix ++ (if isLast then markerBlank else markerBar) in
          (fix forEach (childEntries : object node) (lines : list jstring) :=
             match childEntries with
             | [] => lines
             | (_, c) :: rest =>
                 let isLastChild := match rest with [] => true | _ => false end in
                 forEach rest
                   (_buildTreeLines c newPrefix isLastChild maxDepth
                      (currentDepth + 1)%Z lines)
             end) children lines
        else lines
    | File _ _ _ _ => lines
    end.

(** The [name] of a value of [Object.prototype]: the functions carry their
    own name, [constructor] is [Object], and the prototype object that
    [__proto__] gives has none. *)
Definition builtinName (key : jstring) : jstring :=
  if str_eqb key (js "constructor") then js "Object"
  else if str_eqb key (js "__proto__") then []
  else key.

(** [getTree(path, depth, cwd)] *)
Definition getTree (fs : VirtualFileSystem) (p : jstring) (depth : Z)
  (cwd : jstring) : outcome jstring :=
  node <- resolvePath fs p cwd ;;
  match node with
  | None => Throw (PathNotFound p)
  | Some (Node n) =>
      Return (join nl (_buildTreeLines n [] true depth 0 []))
  | Some (Builtin k) =>
      Return (join nl
        (if (0 >? depth)%Z then []
         else [treeLine (orElse (builtinName k) (js "/")) [] [] true 0]))
  end.

(** *** Search *)

Record searchResult : Type := {
  resultPath : jstring;
  resultType : nodeType;
  snippet : jstring
}.

(** What [_searchNode] pushes for a file whose content has the term. *)
Definition searchHit (p content searchTerm : jstring) : option searchResult :=
  let content' := toLowerCase content in
  if includes content' searchTerm then
    let index := indexOf content' searchTerm in
    let start := Z.max 0 (index - 50) in
    let end_ := Z.min (Z.of_nat (length content'))
                      (index + Z.of_nat (length searchTerm) + 50) in
    let snip := substring content start end_ in
    Some {| resultPath := p;
            resultType := file;
            snippet := (if (start >? 0)%Z then js "..." else [])
                       ++ snip
                       ++ (if (end_ <? Z.of_nat (length content'))%Z
                           then js "..." else []) |}
  else None.

(** [_searchNode]; the results are returned instead of pushed. *)
Fixpoint _searchNode (n : node) (searchTerm : jstring)
  (results : list searchResult) {struct n} : list searchResult :=
  match n with
  | File _ p content _ =>
      if truthy content then
        match searchHit p content searchTerm with
        | Some r => results ++ [r]
        | None => results
        end
      else results
  | Directory _ _ _ children =>
      (fix forEach (cs : object node) (results : list searchResult) :=
         match cs with
         | [] => results
         | (_, c) :: rest => forEach rest (_searchNode c searchTerm results)
         end) children results
  end.

(** [search(keyword)] *)
Definition search (fs : VirtualFileSystem) (keyword : jstring)
  : outcome (list searchResult) :=
  if Nat.eqb (length (trim keyword)) 0
  then Throw (MissingArgument (js "search keyword required"))
  else
    let searchTerm := toLowerCase keyword in
    match root fs with
    | Some r => Return (_searchNode r searchTerm [])
    | None => Throw (TypeError (typeErrorMessage (js "null") (js "type")))
    end.

(** ** Tree builder *)

(** The constants of [config/constants.js] that the tree quotes. *)
Record Constants : Type := {
  RESUME_URL : jstring;
  EMAIL : jstring;
  GITHUB_URL : jstring;
  LINKEDIN_URL : jstring
}.

Context (CONSTANTS : Constants).

(** An attachment of a project record. *)
Record attachment : Type := {
  url : jstring;
  caption : option jstring;
  alt : option jstring
}.

(** A project record of [project-data.json]; a field that may be missing
    is an option. *)
Record project : Type := {
  id : option Z;
  title : jstring;
  role : jstring;
  description : jstring;
  problem_statement : option jstring;
  architecture_image : option jstring;
  technical_highlights : option (list jstring);
  design_decisions : option (list jstring);
  impact_metrics : option (list jstring);
  attachments : option (list attachment)
}.

(** An optional string in a condition. *)
Definition present (o : option jstring) : bool :=
  match o with Some s => truthy s | None => false end.

(** An optional string in a template literal. *)
Definition show (o : option jstring) : jstring :=
  match o with Some s => s | None => js "undefined" end.

Definition isLowerAlnum (c : char) : bool :=
  (((97 <=? c) && (c <=? 122)) || ((48 <=? c) && (c <=? 57)))%N.

(** [s.replace(/[^a-z0-9]+/g, '-')]; [inRun] says that the code unit before
    was replaced already. *)
Fixpoint hyphenate (s : jstring) (inRun : bool) : jstring :=
  match s with
  | [] => []
  | c :: r =>
      if isLowerAlnum c then c :: hyphenate r false
      else if inRun then hyphenate r true
      else ch "-" :: hyphenate r true
  end.

Definition isHyphen (c : char) : bool := N.eqb c (ch "-").

(** [s.replace(/^-+|-+$/g, '')] *)
Definition stripHyphens (s : jstring) : jstring :=
  dropWhileEnd isHyphen (dropWhile isHyphen s).

(** The em dash, U+2014. *)
Definition emDash : char := 8212%N.

(** [_generateSlug] *)
Definition _generateSlug (t : jstring) : jstring :=
  stripHyphens
    (hyphenate (trim (hd [] (split emDash (toLowerCase t)))) false).

Definition _getAboutContent : jstring :=
  js "RAHEEMUDHEEN MA
Full-Stack Engineer

I build production systems with a focus on architectural clarity, maintainability, and long-term scalability. My work spans full-stack development, frontend architecture, real-time systems, and product ownership across fintech, logistics, and SaaS domains.

I care about systems thinking, product judgment, and delivering work that lasts.".

Definition _getContactContent : jstring :=
  js "Contact Information:

Email: " ++ EMAIL CONSTANTS ++ js "
GitHub: " ++ GITHUB_URL CONSTANTS ++ js "
LinkedIn: " ++ LINKEDIN_URL CONSTANTS ++ js "
Location: Kerala, India".

Definition _getSystemInfo : jstring :=
  js "Portfolio System Information

Technology Stack:
- Vanilla JavaScript (ES6+)
- Vite (Build Tool)
- GSAP (Animations)
- LoconativeScroll (Smooth Scrolling)
- SCSS (Styling)

Architecture:
- Two-page application (index.html, project.html)
- URL-based routing with query parameters
- Centralized data model (project-data.json)
- Direct DOM manipulation
- Theme preference in localStorage

Console Mode:
- Read-only virtual filesystem
- Lazy-loaded module
- Zero impact on initial page load".

(** [items.forEach((item, i) => content += line(i, item))] from index [i]. *)
Fixpoint numbered (line : nat -> jstring -> jstring) (i : nat)
  (items : list jstring) : jstring :=
  match items with
  | [] => []
  | x :: rest => line i x ++ numbered line (S i) rest
  end.

Definition _formatProjectOverview (p : project) : jstring :=
  title p ++ nl
  ++ repeat_str (js "=") (length (title p)) ++ nl ++ nl
  ++ js "Role: " ++ role p ++ nl ++ nl
  ++ description p ++ nl ++ nl
  ++ (if present (problem_statement p)
      then js "Problem Statement:" ++ nl ++ show (problem_statement p) ++ nl
      else []).

Definition _formatProjectArchitecture (p : project) : jstring :=
  js "Architecture - " ++ title p ++ nl
  ++ repeat_str (js "=") (length (title p) + 15) ++ nl ++ nl
  ++ (if present (architecture_image p)
      then js "Architecture Diagram: /public/" ++ show (architecture_image p)
           ++ nl ++ nl
      else [])
  ++ match technical_highlights p with
     | Some hs =>
         js "Technical Highlights:" ++ nl
         ++ numbered (fun i h => String_of_nat (i + 1) ++ js ". " ++ h ++ nl) 0 hs
     | None => []
     end.

Definition _formatProjectDecisions (p : project) : jstring :=
  js "Design Decisions - " ++ title p ++ nl
  ++ repeat_str (js "=") (length (title p) + 18) ++ nl ++ nl
  ++ match design_decisions p with
     | Some ds =>
         numbered (fun i d => js "[" ++ String_of_nat (i + 1) ++ js "] " ++ d
                              ++ nl ++ nl) 0 ds
     | None => []
     end.

Definition _formatProjectImpact (p : project) : jstring :=
  js "Impact Metrics - " ++ title p ++ nl
  ++ repeat_str (js "=") (length (title p) + 17) ++ nl ++ nl
  ++ match impact_metrics p with
     | Some ms => numbered (fun _ m => [8226%N] ++ js " " ++ m ++ nl) 0 ms
     | None => []
     end.

(** The file name that the loop of [_buildAttachmentsDirectory] tries at
    [counter]. *)
Definition numberedFilename (originalFilename ext : jstring) (counter : nat)
  : jstring :=
  replace originalFilename (js "." ++ ext) [] ++ js "-"
  ++ String_of_nat counter ++ js "." ++ ext.

(** The loop [while (attachmentsDir.children[filename]) ...].  It runs for
    at most [fuel] turns; [attachment_loop_finishes] shows that the turns
    given in [addAttachment] are enough. *)
Fixpoint uniqueFilename (fuel : nat) (children : object node)
  (originalFilename ext filename : jstring) (counter : nat) : option jstring :=
  match get children filename with
  | Undefined => Some filename
  | _ =>
      match fuel with
      | O => None
      | S fuel' =>
          uniqueFilename fuel' children originalFilename ext
            (numberedFilename originalFilename ext counter) (S counter)
      end
  end.

(** The name under which the attachment at [index] is stored. *)
Definition attachmentFilename (children : object node) (att : attachment)
  (index : nat) : option jstring :=
  let isPdf := endsWith (toLowerCase (url att)) (js ".pdf") in
  let ext := if isPdf then js "pdf" else js "jpg" in
  let filename :=
    _generateSlug
      (if present (caption att) then show (caption att)
       else js "attachment-" ++ String_of_nat (index + 1)) in
  let filename := filename ++ js "." ++ ext in
  uniqueFilename (S (length children)) children filename ext filename 1.

(** The body of the [forEach] of [_buildAttachmentsDirectory]. *)
Definition addAttachment (slug : jstring) (children : object node)
  (att : attachment) (index : nat) : option (object node) :=
  match attachmentFilename children att index with
  | None => None
  | Some filename =>
      let isPdf := endsWith (toLowerCase (url att)) (js ".pdf") in
      Some (set children filename
        (File filename
           (js "/projects/" ++ slug ++ js "/attachments/" ++ filename)
           (js "Attachment: " ++ show (caption att) ++ nl
            ++ js "Type: " ++ (if isPdf then js "PDF Document" else js "Image")
            ++ nl ++ js "URL: " ++ url att ++ nl ++ nl
            ++ js "Use 'open' command to view.")
           (Some (url att))))
  end.

Fixpoint addAttachments (slug : jstring) (children : object node)
  (atts : list attachment) (index : nat) : option (object node) :=
  match atts with
  | [] => Some children
  | att :: rest =>
      match addAttachment slug children att index with
      | None => None
      | Some children' => addAttachments slug children' rest (S index)
      end
  end.

(** [_buildAttachmentsDirectory]; [None] only if a loop ran out of turns,
    which [addAttachments_spec] excludes. *)
Definition _buildAttachmentsDirectory (atts : list attachment) (slug : jstring)
  : option node :=
  option_map
    (Directory (js "attachments") (js "/projects/" ++ slug ++ js "/attachments") None)
    (addAttachments slug [] atts 0).

(** The node of one project, with its attachments directory if it has one. *)
Definition projectNode (p : project) : option node :=
  let slug := _generateSlug (title p) in
  let dir := js "/projects/" ++ slug in
  let children : object node :=
    [ (js "overview",
       File (js "overview") (dir ++ js "/overview") (_formatProjectOverview p) None);
      (js "architecture",
       File (js "architecture") (dir ++ js "/architecture")
         (_formatProjectArchitecture p) None);
      (js "decisions.log",
       File (js "decisions.log") (dir ++ js "/decisions.log")
         (_formatProjectDecisions p) None);
      (js "impact",
       File (js "impact") (dir ++ js "/impact") (_formatProjectImpact p) None) ] in
  match attachments p with
  | Some (a :: atts) =>
      option_map
        (fun attachmentsDir =>
           Directory slug dir (id p)
             (set children (js "attachments") attachmentsDir))
        (_buildAttachmentsDirectory (a :: atts) slug)
  | _ => Some (Directory slug dir (id p) children)
  end.

Fixpoint addProjects (children : object node) (projectData : list project)
  : option (object node) :=
  match projectData with
  | [] => Some children
  | p :: rest =>
      match projectNode p with
      | None => None
      | Some n => addProjects (set children (_generateSlug (title p)) n) rest
      end
  end.

(** [_buildProjectsDirectory] *)
Definition _buildProjectsDirectory (projectData : option (list project))
  : option node :=
  option_map (Directory (js "projects") (js "/projects") None)
    (match projectData with
     | None => Some []
     | Some ps => addProjects [] ps
     end).

(** [_buildBaseDirectory] *)
Definition _buildBaseDirectory : node :=
  Directory (js "base") (js "/base") None
    [ (js "about", File (js "about") (js "/base/about") _getAboutContent None);
      (js "contact",
       File (js "contact") (js "/base/contact") _getContactContent None);
      (js "resume",
       File (js "resume") (js "/base/resume")
         (js "[Resume Link - Opens in browser]") (Some (RESUME_URL CONSTANTS))) ].

(** [_buildMetaDirectory] *)
Definition _buildMetaDirectory : node :=
  Directory (js "meta") (js "/meta") None
    [ (js "system.info",
       File (js "system.info") (js "/meta/system.info") _getSystemInfo None);
      (js "version",
       File (js "version") (js "/meta/version")
         (js "Portfolio v2.0
Last Updated: January 2026") None) ].

(** [_buildFileTree] *)
Definition _buildFileTree (projectData : option (list project)) : option node :=
  option_map
    (fun projects =>
       Directory [] (js "/") None
         [ (js "base", _buildBaseDirectory);
           (js "projects", projects);
           (js "meta", _buildMetaDirectory) ])
    (_buildProjectsDirectory projectData).

(** [new VirtualFileSystem()] *)
Definition newVirtualFileSystem : VirtualFileSystem :=
  {| root := None; initialized := false |}.

(** [initialize(projectData)] *)
Definition initialize (fs : VirtualFileSystem)
  (projectData : option (list project)) : option VirtualFileSystem :=
  if initialized fs then Some fs
  else option_map (fun r => {| root := Some r; initialized := true |})
         (_buildFileTree projectData).

(** ** Command parser *)

(** The fields of [CommandParser] that change: the session. *)
Record session : Type := {
  cwd : jstring;
  history : list jstring
}.

(** [new CommandParser(vfs)] *)
Definition newSession : session := {| cwd := js "/"; history := [] |}.

Inductive intent : Type :=
| NavigateProject (projectId : Z)
| NavigateUrl (url : jstring).

(** What a command handler returns; a missing field is [None] or [false]. *)
Record commandResult : Type := {
  resOutput : jstring;
  resNavigation : option intent;
  resExit : bool;
  resClear : bool
}.

Definition say (text : jstring) : commandResult :=
  {| resOutput := text; resNavigation := None; resExit := false; resClear := false |}.

(** What [execute] returns; [navigation] and [exit] are [null] and [false]
    where the source leaves them out. *)
Record result : Type := {
  output : jstring;
  error : bool;
  navigation : option intent;
  exit : bool
}.

(** A handler reads and writes the session, and may throw. *)
Definition handler : Type :=
  list jstring -> session -> outcome commandResult * session.

(** [getProjectIdFromPath(path)]; a project id of 0 is falsy. *)
Definition projectIdOf (v : option value) : option Z :=
  match v with
  | Some (Node (Directory _ _ (Some i) _)) => if (i =? 0)%Z then None else Some i
  | _ => None
  end.

Definition getProjectIdFromPath (fs : VirtualFileSystem) (p : jstring)
  : outcome (option Z) :=
  node <- resolvePath fs p (js "/") ;;
  match node with
  | None => Return None
  | Some _ =>
      match projectIdOf node with
      | Some i => Return (Some i)
      | None =>
          match segments p with
          | p0 :: projectSlug :: _ =>
              if str_eqb p0 (js "projects") then
                projectNode <- resolvePath fs (js "/projects/" ++ projectSlug) (js "/") ;;
                Return (projectIdOf projectNode)
              else Return None
          | _ => Return None
          end
      end
  end.

(** [cmdList] *)
Definition cmdList (fs : VirtualFileSystem) : handler := fun args st =>
  let p := nthOr args 0 (js ".") in
  (entries <- listDirectory fs p (cwd st) ;;
   match entries with
   | [] => Return (say (js "(empty directory)"))
   | _ =>
       Return (say (join nl
         (map (fun e =>
                 entryName e ++ match entryType e with
                                | directory => js "/"
                                | file => []
                                end) entries)))
   end, st).

(** [cmdOpen] *)
Definition cmdOpen (fs : VirtualFileSystem) : handler := fun args st =>
  match args with
  | [] => (Return (say (js "Current directory: " ++ cwd st)), st)
  | p :: _ =>
      match resolvePath fs p (cwd st) with
      | Throw e => (Throw e, st)
      | Return None => (Throw (PathNotFound p), st)
      | Return (Some (Node (Directory _ dirPath _ _))) =>
          let st' := {| cwd := dirPath; history := history st |} in
          (Return (say (js "Changed directory to " ++ cwd st')), st')
      | Return (Some (Node (File _ filePath content u))) =>
          (projectId <- getProjectIdFromPath fs filePath ;;
           match projectId with
           | Some i =>
               Return {| resOutput := js "Opening project: " ++ filePath;
                         resNavigation := Some (NavigateProject i);
                         resExit := false; resClear := false |}
           | None =>
               if present u then
                 Return {| resOutput := js "Opening: " ++ filePath;
                           resNavigation := option_map NavigateUrl u;
                           resExit := false; resClear := false |}
               else Return (say (orElse content (js "(empty file)")))
           end, st)
      | Return (Some (Builtin _)) =>
          (* [node.path] is undefined, and [getProjectIdFromPath] reads
             [startsWith] from it *)
          (Throw (TypeError (typeErrorMessage (js "undefined") (js "startsWith"))), st)
      end
  end.

(** [cmdRead] *)
Definition cmdRead (fs : VirtualFileSystem) : handler := fun args st =>
  match args with
  | [] => (Throw (MissingArgument (js "read requires a file path")), st)
  | p :: _ => (content <- readFile fs p (cwd st) ;; Return (say content), st)
  end.

(** [args[1] ? parseInt(args[1], 10) : 3] *)
Definition depthArgument (args : list jstring) : option Z :=
  match nth_error args 1 with
  | Some a => if truthy a then parseInt a else Some 3%Z
  | None => Some 3%Z
  end.

(** [cmdTree] *)
Definition cmdTree (fs : VirtualFileSystem) : handler := fun args st =>
  let p := nthOr args 0 (js ".") in
  let depth := depthArgument args in
  (match depth with
   | None => Throw InvalidDepth
   | Some d =>
       if (d <? 1)%Z then Throw InvalidDepth
       else tree <- getTree fs p d (cwd st) ;; Return (say tree)
   end, st).

Definition searchLines (results : list searchResult) : list jstring :=
  (fix forEach (rs : list searchResult) (i : nat) : list jstring :=
     match rs with
     | [] => []
     | r :: rest =>
         [js "[" ++ String_of_nat (i + 1) ++ js "] " ++ resultPath r;
          js "    " ++ snippet r]
         ++ (if i <? length results - 1 then [[]] else [])
         ++ forEach rest (S i)
     end) results 0.

(** [cmdSearch] *)
Definition cmdSearch (fs : VirtualFileSystem) : handler := fun args st =>
  match args with
  | [] => (Throw (MissingArgument (js "search requires a keyword")), st)
  | _ =>
      let keyword := join (js " ") args in
      (results <- search fs keyword ;;
       match results with
       | [] => Return (say (js "No results found for: " ++ keyword))
       | _ =>
           Return (say (join nl
             ((js "Found " ++ String_of_nat (length results)
               ++ js " result(s) for: " ++ keyword ++ nl)
              :: searchLines results)))
       end, st)
  end.

Definition helpText : jstring :=
  js "Console Mode - Available Commands

NAVIGATION:
  list [path]          List directory contents (alias: ls, dir)
  open <path>          Navigate to directory or open file (alias: cd)
  cwd                  Show current working directory (alias: pwd)

FILE OPERATIONS:
  read <path>          Read file contents (alias: cat)
  tree [path] [depth]  Display tree structure (default depth: 3)

SEARCH:
  search <keyword>     Search for keyword across all content

UTILITY:
  help                 Display this help message
  clear                Clear console output
  exit                 Close console (alias: quit)

PATH NOTATION:
  /                    Root directory
  .                    Current directory
  ..                   Parent directory
  /absolute/path       Absolute path from root
  relative/path        Relative to current directory

FILESYSTEM STRUCTURE:
  /base/               About, contact, resume
  /projects/           Project directories
  /meta/               System information

KEYBOARD SHORTCUTS:
  Ctrl+`               Toggle console
  Ctrl+L               Clear screen
  Esc                  Close console
  " ++ [8593; 47; 8595]%N ++ js "                  Navigate command history
  Tab                  Autocomplete (coming soon)

NOTE: This is a read-only portfolio system. Shell features like pipes,
redirection, and command chaining are not supported.".

(** [cmdHelp] *)
Definition cmdHelp : handler := fun _ st => (Return (say helpText), st).

(** [cmdClear] *)
Definition cmdClear : handler := fun _ st =>
  (Return {| resOutput := []; resNavigation := None;
             resExit := false; resClear := true |}, st).

(** [cmdCwd] *)
Definition cmdCwd : handler := fun _ st => (Return (say (cwd st)), st).

(** [cmdExit] *)
Definition cmdExit : handler := fun _ st =>
  (Return {| resOutput := js "Closing console..."; resNavigation := None;
             resExit := true; resClear := false |}, st).

(** [this.aliases] *)
Definition aliases : object jstring :=
  [ (js "ls", js "list"); (js "cd", js "open"); (js "cat", js "read");
    (js "dir", js "list"); (js "pwd", js "cwd"); (js "quit", js "exit") ].

(** [this.commands] *)
Definition commands (fs : VirtualFileSystem) : object handler :=
  [ (js "list", cmdList fs); (js "open", cmdOpen fs); (js "read", cmdRead fs);
    (js "tree", cmdTree fs); (js "search", cmdSearch fs); (js "help", cmdHelp);
    (js "clear", cmdClear); (js "cwd", cmdCwd); (js "exit", cmdExit) ].

Definition quote : char := 34%N.

(** [input.match(/(?:[^\s"]+|"[^"]*")+/g)]: [token] is the match in
    progress, and [inQuote] says that it is inside a quoted run, which is
    entered only when the closing quote exists.  A quote that nothing closes
    matches nowhere and ends the match before it. *)
Fixpoint matchTokens (s token : jstring) (inQuote : bool) : list jstring :=
  let flush := match token with [] => [] | _ => [token] end in
  match s with
  | [] => flush
  | c :: r =>
      if inQuote then matchTokens r (token ++ [c]) (negb (N.eqb c quote))
      else if N.eqb c quote then
        if existsb (N.eqb quote) r then matchTokens r (token ++ [c]) true
        else flush ++ matchTokens r [] false
      else if isWhiteSpace c then flush ++ matchTokens r [] false
      else matchTokens r (token ++ [c]) false
  end.

(** [arg.replace(/^"|"$/g, '')] *)
Definition stripQuotes (arg : jstring) : jstring :=
  let arg := match arg with c :: r => if N.eqb c quote then r else arg | [] => [] end in
  match rev arg with
  | c :: r => if N.eqb c quote then rev r else arg
  | [] => []
  end.

(** [_parseCommand] *)
Definition _parseCommand (input : jstring) : jstring * list jstring :=
  let parts := matchTokens input [] false in
  (hd [] parts, map stripQuotes (tl parts)).

Definition shellFeatures : list jstring :=
  map js [ "|"; ">"; "<"; "&&"; "||"; ";"; "`"; "$" ].

(** [_containsShellFeatures] *)
Definition _containsShellFeatures (input : jstring) : bool :=
  existsb (fun feature => includes input feature) shellFeatures.

(** The string of a value that [Object.prototype] supplies, which is what
    [this.commands[...]] is indexed with when an alias lookup gave one. *)
Definition builtinToString (key : jstring) : jstring :=
  if str_eqb key (js "__proto__") then js "[object Object]"
  else js "function " ++ builtinName key ++ js "() { [native code] }".

(** [this.aliases[command] || command], as a property key. *)
Definition canonicalCommand (aliasTable : object jstring) (command : jstring)
  : jstring :=
  match get aliasTable command with
  | Own c => orElse c command
  | Inherited k => builtinToString k
  | Undefined => command
  end.

Definition failure (text : jstring) : result :=
  {| output := text; error := true; navigation := None; exit := false |}.

(** The result for a line with shell syntax. *)
Definition unsupportedShellSyntax : result :=
  failure (js "Error: shell features are not supported. This console exposes a read-only portfolio system.").

(** The result for a blank line. *)
Definition nothing : result :=
  {| output := []; error := false; navigation := None; exit := false |}.

(** [execute(input)], over the tokenizer and the two tables of the parser.
    A key of [commandTable] that only [Object.prototype] has is no handler
    of the parser; [canonical_is_no_prototype_key] shows that the tables of
    the source never lead there, and the case answers as an unknown command
    does. *)
Definition executeWith (parse : jstring -> jstring * list jstring)
  (aliasTable : object jstring) (commandTable : object handler)
  (st : session) (input : jstring) : result * session :=
  if Nat.eqb (length (trim input)) 0
  then (nothing, st)
  else
    let trimmed := trim input in
    let st := {| cwd := cwd st; history := history st ++ [trimmed] |} in
    if _containsShellFeatures trimmed
    then (unsupportedShellSyntax, st)
    else
      let '(command, args) := parse trimmed in
      let unknown :=
        failure (js "Error: unknown command: " ++ command
                 ++ js ". Type 'help' for available commands.") in
      match get commandTable (canonicalCommand aliasTable command) with
      | Own run =>
          match run args st with
          | (Return r, st') =>
              ({| output := resOutput r; error := false;
                  navigation := resNavigation r; exit := resExit r |}, st')
          | (Throw e, st') => (failure (js "Error: " ++ message e), st')
          end
      | Inherited _ => (unknown, st)
      | Undefined => (unknown, st)
      end.

(** [execute(input)] *)
Definition execute (fs : VirtualFileSystem) : session -> jstring -> result * session :=
  executeWith _parseCommand aliases (commands fs).

End Console.

(** ** Vocabulary of the properties *)

(** A segment of a path: not empty, and without a slash. *)
Definition segment (s : jstring) : Prop := s <> [] /\ ~ In (ch "/") s.



(** A comparator is consistent when it orders any two elements one way or
    the other, and transitively. *)
Definition consistent {A} (compare : A -> A -> Z) : Prop :=
  (forall a b, (0 < compare a b)%Z -> (compare b a <= 0)%Z)
  /\ (forall a b c, (compare a b <= 0)%Z -> (compare b c <= 0)%Z ->
                    (compare a c <= 0)%Z).

(** ** Data of the examples *)





Definition exampleConstants : Constants := {|
  RESUME_URL := js "https://example.org/resume.pdf";
  EMAIL := js "someone@example.org";
  GITHUB_URL := js "https://example.org/git";
  LINKEDIN_URL := js "https://example.org/in"
|}.

Definition exampleProject : project :=
    {| id := Some 7%Z;
       title := js "Alpha Beta " ++ [emDash] ++ js " v2";
       role := js "Engineer";
       description := js "About the alpha of the beta.";
       problem_statement := None;
       architecture_image := None;
       technical_highlights := Some [js "Fast"; js "Small"];
       design_decisions := None;
       impact_metrics := Some [js "Twice as fast"];
       attachments :=
         Some [ {| url := js "https://example.org/a.png";
                   caption := Some (js "Shot"); alt := None |};
                {| url := js "https://example.org/b.png";
                   caption := Some (js "Shot"); alt := None |};
                {| url := js "https://example.org/notes.PDF";
                   caption := None; alt := None |} ] |}.

Definition exampleProjects : list project := [exampleProject].

(** A project record without identifier. *)
Definition draftProject : project :=
  {| id := None;
     title := js "Draft";
     role := js "Engineer";
     description := js "A record that is not numbered yet.";
     problem_statement := None;
     architecture_image := None;
     technical_highlights := None;
     design_decisions := None;
     impact_metrics := None;
     attachments :=
       Some [ {| url := js "https://example.org/d.png";
                 caption := Some (js "Shot"); alt := None |} ] |}.

(** A project record with the identifier 0. *)
Definition zeroProject : project :=
  {| id := Some 0%Z;
     title := js "Zero";
     role := js "Engineer";
     description := js "The first of the records.";
     problem_statement := None;
     architecture_image := None;
     technical_highlights := None;
     design_decisions := None;
     impact_metrics := None;
     attachments :=
       Some [ {| url := js "https://example.org/z.png";
                 caption := Some (js "Shot"); alt := None |} ] |}.

(** A project record with the identifier 2^53. *)
Definition bigProject : project :=
  {| id := Some 9007199254740992%Z;
     title := js "Big";
     role := js "Engineer";
     description := js "The last of the records.";
     problem_statement := None;
     architecture_image := None;
     technical_highlights := None;
     design_decisions := None;
     impact_metrics := None;
     attachments := None |}.

(** The tree that [_buildFileTree] builds from [exampleProjects]; see
    [exampleRoot_built]. *)
Definition exampleRoot : node :=
  Eval vm_compute in
    match _buildFileTree (host := exampleHost) exampleConstants
            (Some exampleProjects) with
    | Some r => r
    | None => Directory [] (js "/") None []
    end.

Definition exampleFs : VirtualFileSystem :=
  {| root := Some exampleRoot; initialized := true |}.

(** The file nodes of a tree, in the order of a walk that visits a node
    before its children. *)
Fixpoint files (n : node) : list node :=
  match n with
  | File _ _ _ _ => [n]
  | Directory _ _ _ children =>
      (fix each (cs : object node) : list node :=
         match cs with
         | [] => []
         | (_, c) :: rest => files c ++ each rest
         end) children
  end.

(** [i] is the offset of the first occurrence of [t] in [s]. *)
Definition firstMatch (s t : jstring) (i : nat) : Prop :=
  startsWith (skipn i s) t = true
  /\ forall j, j < i -> startsWith (skipn j s) t = false.



(** A host whose lower case is longer than the text for one letter: the
    capital I with a dot above, U+0130, becomes an i and a combining dot. *)
Definition lowerWide (c : char) : jstring :=
  if (c =? 304)%N then [105%N; 775%N] else [lowerUnit c].

Definition wideHost : Host := {|
  toLowerCase := flat_map lowerWide;
  localeCompare := compareUnits;
  typeErrorMessage := typeErrorMessage (Host := exampleHost)
|}.

(** A text of sixty such letters and then a sentence. *)
Definition dottedText : jstring :=
  repeat 304%N 60 ++ js "needle in a line of text that goes on for a while after the word".

(** A handler keeps the session when it leaves the history as it is and,
    if it throws, the working directory too. *)
Definition keepsSession (h : handler) : Prop :=
  forall args st,
    history (snd (h args st)) = history st
    /\ (forall e, fst (h args st) = Throw e -> cwd (snd (h args st)) = cwd st).

(** A depth argument as the specification asks for it: decimal digits
    only, and a value of one at least. *)
Definition isPositiveInteger (a : jstring) : bool :=
  truthy a && forallb isDigit a && (1 <=? digitsValue a)%Z.

(** The path of a file lies under [/projects/<slug>/], and [/projects/<slug>]
    is a directory whose [projectId] is [pid]; [None] is a directory
    without one. *)
Definition inProject {host : Host} (fs : VirtualFileSystem)
  (filePath : jstring) (pid : option Z) : Prop :=
  exists slug rest dirName dirPath dirChildren,
    segments filePath = js "projects" :: slug :: rest
    /\ resolvePath fs (js "/projects/" ++ slug) (js "/")
       = Return (Some (Node (Directory dirName dirPath pid dirChildren))).

(** The names that an attachment may take, in the order in which they are
    tried: the name without a number, then the names numbered from one. *)
Definition candidate (base ext : jstring) (k : nat) : jstring :=
  match k with
  | O => base ++ js "." ++ ext
  | S _ => base ++ js "-" ++ String_of_nat k ++ js "." ++ ext
  end.

(** [name] is the first candidate that is not among the names [taken]. *)
Definition firstFree (taken : list jstring) (base ext name : jstring) : Prop :=
  exists k,
    name = candidate base ext k
    /\ ~ In name taken
    /\ forall j, j < k -> In (candidate base ext j) taken.

(** The pieces of a text between the code units that are neither a
    lower-case letter nor a digit. *)
Fixpoint pieces (s : jstring) : list jstring :=
  match s with
  | [] => [[]]
  | c :: r =>
      if isLowerAlnum c then
        match pieces r with
        | w :: ws => (c :: w) :: ws
        | [] => [[c]]
        end
      else [] :: pieces r
  end.

(** The words of a text: its longest runs of lower-case letters and
    digits. *)
Definition alnumWords (s : jstring) : list jstring :=
  filter truthy (pieces s).

(** The slug as the specification describes it: of the title in lower
    case, the part before the first em dash, trimmed; every run of other
    code units than lower-case letters and digits becomes one hyphen, and
    no hyphen stays at either end, which leaves the words with one hyphen
    between two of them. *)
Definition slugOf {host : Host} (t : jstring) : jstring :=
  join (js "-") (alnumWords (trim (hd [] (split emDash (toLowerCase t))))).

(** The extension as the specification words it, from the URL as it is. *)
Definition claimedExtension (att : attachment) : jstring :=
  if endsWith (url att) (js ".pdf") then js "pdf" else js "jpg".

(** The extension of the file of an attachment, from the URL in lower
    case. *)
Definition extensionOf {host : Host} (att : attachment) : jstring :=
  if endsWith (toLowerCase (url att)) (js ".pdf") then js "pdf" else js "jpg".

(** The base name of the attachment at [index]: the slug of its caption,
    or of its ordinal when it has no caption or an empty one. *)
Definition baseOf {host : Host} (att : attachment) (index : nat) : jstring :=
  slugOf
    (if present (caption att) then show (caption att)
     else js "attachment-" ++ String_of_nat (index + 1)).

(** A name with a dot in it. *)
Definition dotted (k : jstring) : Prop := In (ch ".") k.

(** What one file adds to the results. *)
Definition hits {host : Host} (searchTerm : jstring) (f : node) : list searchResult :=
  match f with
  | File _ p content _ =>
      if truthy content then
        match searchHit p content searchTerm with
        | Some r => [r]
        | None => []
        end
      else []
  | Directory _ _ _ _ => []
  end.

(** The first and the last code unit of a string are no white space. *)
Definition solid (t : jstring) : bool :=
  match t, rev t with
  | c :: _, d :: _ => negb (isWhiteSpace c) && negb (isWhiteSpace d)
  | _, _ => false
  end.

(** The path of the child [k] of the directory at [p]. *)
Definition childPath (p k : jstring) : jstring :=
  if str_eqb p (js "/") then p ++ k else p ++ js "/" ++ k.

(** A tree in which every node carries the path at which it stands: the
    node at [p] has the path [p], and the child [k] of a directory at [p]
    stands at [p/k]. *)
Fixpoint wellFormed (p : jstring) (n : node) {struct n} : Prop :=
  path n = p
  /\ match n with
     | File _ _ _ _ => True
     | Directory _ _ _ children =>
         (fix each (cs : object node) : Prop :=
            match cs with
            | [] => True
            | (k, c) :: rest => wellFormed (childPath p k) c /\ each rest
            end) children
     end.

(** ** Further operations of the parser and of the console *)

(** [s.lastIndexOf(c)] for a string of one code unit, -1 when it does not
    occur. *)
Fixpoint lastIndexOf (s : jstring) (c : char) : Z :=
  match s with
  | [] => (-1)%Z
  | x :: r =>
      let i := lastIndexOf r c in
      if (0 <=? i)%Z then (i + 1)%Z
      else if N.eqb x c then 0%Z else (-1)%Z
  end.

(** The message of [Object.values(undefined)], in the wording of V8. *)
Definition objectValuesMessage : jstring :=
  js "Cannot convert undefined or null to object".

Section Further.

Context {host : Host}.

(** [setCwd(path)] of [CommandParser]; the path is resolved from the root. *)
Definition setCwd (fs : VirtualFileSystem) (p : jstring) (st : session)
  : outcome bool * session :=
  match resolvePath fs p (js "/") with
  | Throw e => (Throw e, st)
  | Return (Some (Node (Directory _ dirPath _ _))) =>
      (Return true, {| cwd := dirPath; history := history st |})
  | Return _ => (Return false, st)
  end.

(** [getHistory()] and [getCwd()] *)
Definition getHistory (st : session) : list jstring := history st.
Definition getCwd (st : session) : jstring := cwd st.

(** The loop of [getProjectPathById]: the path of the first directory whose
    [projectId] is the number looked for; [None] is a number that equals no
    identifier, NaN or an infinity. *)
Fixpoint findProject (projects : object node) (projectId : option Z)
  : option jstring :=
  match projects with
  | [] => None
  | (_, n) :: rest =>
      match n, projectId with
      | Directory _ p (Some j) _, Some i =>
          if (j =? i)%Z then Some p else findProject rest projectId
      | _, _ => findProject rest projectId
      end
  end.

(** [getProjectPathById(id)], for an id that is a string; the identifiers
    of the projects are integers that a double holds, and the number read
    from the string is compared with them. *)
Definition getProjectPathById (fs : VirtualFileSystem) (id : jstring)
  : outcome (option jstring) :=
  match root fs with
  | None => Return None
  | Some (File _ _ _ _) =>
      Throw (TypeError (typeErrorMessage (js "undefined") (js "projects")))
  | Some (Directory _ _ _ children) =>
      match get children (js "projects") with
      | Undefined => Return None
      | Own (Directory _ _ _ projects) =>
          Return (findProject projects (parseIntNumber id))
      | _ => Throw (TypeError objectValuesMessage)
      end
  end.

(** [_getPathSuggestions(prefix)]; whatever is thrown gives no suggestion. *)
Definition _getPathSuggestions (fs : VirtualFileSystem) (st : session)
  (prefix : jstring) : list jstring :=
  let attempt : outcome (list jstring) :=
    target <-
      (if includes prefix (js "/") then
         let lastSlash := lastIndexOf prefix (ch "/") in
         let dirPart := substring prefix 0 (lastSlash + 1) in
         let searchPrefix :=
           substring prefix (lastSlash + 1) (Z.of_nat (length prefix)) in
         dirNode <- resolvePath fs dirPart (cwd st) ;;
         match dirNode with
         | Some (Node (Directory _ dirPath _ _)) =>
             Return (Some (dirPath, searchPrefix))
         | _ => Return None
         end
       else Return (Some (cwd st, prefix))) ;;
    match target with
    | None => Return []
    | Some (searchDir, searchPrefix) =>
        entries <- listDirectory fs searchDir (cwd st) ;;
        Return
          (sort compareUnits
             (map (fun e => entryName e
                            ++ match entryType e with
                               | directory => js "/"
                               | file => []
                               end)
                (filter (fun e => startsWith (entryName e) searchPrefix)
                   entries)))
    end in
  match attempt with
  | Return suggestions => suggestions
  | Throw _ => []
  end.

(** [getAutocompleteSuggestions(partial)]; the sort without a comparator
    orders strings by their code units. *)
Definition getAutocompleteSuggestions (fs : VirtualFileSystem) (st : session)
  (partial : jstring) : list jstring :=
  if Nat.eqb (length (trim partial)) 0 then []
  else
    let trimmed := trim partial in
    let '(command, args) := _parseCommand trimmed in
    if Nat.eqb (length args) 0 && negb (endsWith trimmed (js " ")) then
      let allCommands := map fst (commands fs) ++ map fst aliases in
      sort compareUnits (filter (fun cmd => startsWith cmd command) allCommands)
    else
      match get (commands fs) (canonicalCommand aliases command) with
      | Undefined => []
      | _ => _getPathSuggestions fs st (orElse (last args []) [])
      end.

End Further.

(** The fields of [ConsoleMode] that the keys of the history move. *)
Record consoleState : Type := {
  historyIndex : Z;
  inputValue : jstring
}.

(** [_navigateHistory(direction)] over the history of the parser. *)
Definition _navigateHistory (commandHistory : list jstring) (direction : Z)
  (ui : consoleState) : consoleState :=
  let len := Z.of_nat (length commandHistory) in
  if (len =? 0)%Z then ui
  else if (historyIndex ui =? -1)%Z then
    if (direction <? 0)%Z then
      {| historyIndex := len - 1;
         inputValue := nth (Z.to_nat (len - 1)) commandHistory [] |}
    else ui
  else
    let newIndex := (historyIndex ui + direction)%Z in
    if (0 <=? newIndex)%Z && (newIndex <? len)%Z then
      {| historyIndex := newIndex;
         inputValue := nth (Z.to_nat newIndex) commandHistory [] |}
    else if (newIndex <? 0)%Z then {| historyIndex := -1; inputValue := [] |}
    else ui.

Section Completion.

Context {host : Host}.

(** [_handleAutocomplete()]: the new state of the input line, and what is
    written to the output. *)
Definition _handleAutocomplete (fs : VirtualFileSystem) (st : session)
  (ui : consoleState) : consoleState * option jstring :=
  let input := inputValue ui in
  match getAutocompleteSuggestions fs st input with
  | [] => (ui, None)
  | [suggestion] =>
      let parts := split (ch " ") input in
      let parts :=
        match parts with
        | [] => []
        | _ :: _ => removelast parts ++ [suggestion]
        end in
      ({| historyIndex := historyIndex ui;
          inputValue := join (js " ") parts |}, None)
  | suggestions => (ui, Some (join (js "  ") suggestions))
  end.

End Completion.

(** ** Vocabulary of the further properties *)

(** The names of the nodes of a tree: the keys of every directory in it. *)
Fixpoint keysOf (n : node) : list jstring :=
  match n with
  | File _ _ _ _ => []
  | Directory _ _ _ children =>
      (fix each (cs : object node) : list jstring :=
         match cs with
         | [] => []
         | (k, c) :: rest => k :: keysOf c ++ each rest
         end) children
  end.

(** The number of nodes of a tree that are at most [d] levels below its
    top. *)
Fixpoint countWithin (n : node) (d : nat) {struct n} : nat :=
  match n with
  | File _ _ _ _ => 1
  | Directory _ _ _ children =>
      match d with
      | O => 1
      | S d' =>
          S ((fix each (cs : object node) : nat :=
                match cs with
                | [] => 0
                | (_, c) :: rest => countWithin c d' + each rest
                end) children)
      end
  end.

(** The number of levels below the top of a tree. *)
Fixpoint height (n : node) : nat :=
  match n with
  | File _ _ _ _ => 0
  | Directory _ _ _ children =>
      (fix each (cs : object node) : nat :=
         match cs with
         | [] => 0
         | (_, c) :: rest => Nat.max (S (height c)) (each rest)
         end) children
  end.

(** The lines of the children of a directory in a tree of depth one: a
    connector, the name, and a slash after a directory. *)
Fixpoint firstLevel (cs : object node) : list jstring :=
  match cs with
  | [] => []
  | (_, c) :: rest =>
      ((match rest with [] => connectorLast | _ => connectorMid end)
       ++ orElse (name c) (js "/")
       ++ match c with Directory _ _ _ _ => js "/" | File _ _ _ _ => [] end)
      :: firstLevel rest
  end.

(** A file whose content has the search term. *)
Definition matches {host : Host} (searchTerm : jstring) (f : node) : bool :=
  match f with
  | File _ _ content _ =>
      truthy content && includes (toLowerCase content) searchTerm
  | Directory _ _ _ _ => false
  end.

(** A code unit that is neither white space nor a quote, and a word of
    such code units. *)
Definition plainUnit (c : char) : bool :=
  negb (isWhiteSpace c) && negb (N.eqb c quote).

Definition plainWord (w : jstring) : bool := truthy w && forallb plainUnit w.

(** Two hyphens in a row somewhere in a string. *)
Fixpoint doubled (s : jstring) : bool :=
  match s with
  | x :: (y :: _) as r => (isHyphen x && isHyphen y) || doubled r
  | _ => false
  end.

(** The [projectId] of a node; a file has none. *)
Definition projectId (n : node) : option Z :=
  match n with
  | Directory _ _ pid _ => pid
  | File _ _ _ _ => None
  end.

(** A name other than the two that a relative path interprets. *)
Definition properName (k : jstring) : Prop := k <> js "." /\ k <> js "..".

Section FurtherVocabulary.

Context {host : Host}.

(** The lines of a session, one after the other: what the console does with
    the lines that are entered. *)
Fixpoint executeAll (fs : VirtualFileSystem) (st : session)
  (inputs : list jstring) : session :=
  match inputs with
  | [] => st
  | input :: rest => executeAll fs (snd (execute fs st input)) rest
  end.

(** The working directory of a session is the path of a directory of the
    tree, and it resolves to that directory. *)
Definition validCwd (fs : VirtualFileSystem) (st : session) : Prop :=
  exists nm pid children,
    resolvePath fs (cwd st) (js "/")
    = Return (Some (Node (Directory nm (cwd st) pid children))).

End FurtherVocabulary.

(* ================================================================== *)
(** * Part II: properties *)
(* ================================================================== *)

(** ** Facts about strings *)

Lemma str_eqb_eq (a b : jstring) : str_eqb a b = true <-> a = b.
Proof.
  revert b; induction a as [|x a IH]; intros [|y b]; simpl;
    try (split; (discriminate || reflexivity)).
  rewrite andb_true_iff, N.eqb_eq, IH.
  split; [intros [-> ->]; reflexivity | intros H; inversion H; auto].
Qed.

Lemma str_eqb_refl (a : jstring) : str_eqb a a = true.
Proof. apply str_eqb_eq; reflexivity. Qed.

Lemma str_eqb_neq (a b : jstring) : str_eqb a b = false <-> a <> b.
Proof.
  rewrite <- str_eqb_eq. destruct (str_eqb a b); split; congruence.
Qed.

Lemma split_not_nil (c : char) (s : jstring) : split c s <> [].
Proof.
  destruct s as [|x r]; simpl; [discriminate|].
  destruct (N.eqb x c); [discriminate|].
  destruct (split c r); discriminate.
Qed.

Lemma split_app (c : char) (a b : jstring) :
  split c (a ++ c :: b) = split c a ++ split c b.
Proof.
  induction a as [|x a IH]; simpl.
  - rewrite N.eqb_refl; reflexivity.
  - destruct (N.eqb x c); [rewrite IH; reflexivity|].
    rewrite IH. pose proof (split_not_nil c a) as Hne.
    destruct (split c a); [congruence | reflexivity].
Qed.

Lemma split_without (c : char) (s : jstring) : ~ In c s -> split c s = [s].
Proof.
  induction s as [|x r IH]; simpl; intros Hn; [reflexivity|].
  destruct (N.eqb_spec x c) as [->|_]; [tauto|].
  rewrite IH by tauto; reflexivity.
Qed.

Lemma split_pieces (c : char) (s w : jstring) : In w (split c s) -> ~ In c w.
Proof.
  revert w; induction s as [|x r IH]; simpl; intros w Hw.
  - destruct Hw as [<-|[]]; auto.
  - destruct (N.eqb_spec x c) as [->|Hxc].
    + destruct Hw as [<-|Hw]; auto.
    + destruct (split c r) as [|w0 ws] eqn:E.
      * destruct Hw as [<-|[]]. simpl; intuition congruence.
      * destruct Hw as [<-|Hw].
        -- simpl; intros [H|H]; [congruence|]. apply (IH w0); simpl; auto.
        -- apply IH; simpl; auto.
Qed.

Lemma segments_are_segments (p s : jstring) : In s (segments p) -> segment s.
Proof.
  unfold segments; intros H. apply filter_In in H as [H1 H2]. split.
  - intros ->; discriminate.
  - eapply split_pieces; eauto.
Qed.

Lemma segments_app (a b : jstring) :
  segments (a ++ js "/" ++ b) = segments a ++ segments b.
Proof.
  unfold segments. change (a ++ js "/" ++ b) with (a ++ ch "/" :: b).
  rewrite split_app, filter_app; reflexivity.
Qed.

Lemma segments_slash (a : jstring) : segments (js "/" ++ a) = segments a.
Proof. apply (segments_app [] a). Qed.

Lemma segments_segment (s : jstring) : segment s -> segments s = [s].
Proof.
  intros [Hne Hns]. unfold segments. rewrite split_without by assumption.
  simpl. destruct s; [congruence | reflexivity].
Qed.

Lemma segments_join (segs : list jstring) :
  Forall segment segs -> segments (join (js "/") segs) = segs.
Proof.
  induction 1 as [|s rest Hs Hrest IH]; [reflexivity|].
  destruct rest as [|s' rest'].
  - simpl. apply segments_segment; assumption.
  - change (join (js "/") (s :: s' :: rest'))
      with (s ++ js "/" ++ join (js "/") (s' :: rest')).
    rewrite segments_app, IH, segments_segment by assumption. reflexivity.
Qed.

Lemma segments_absolute (segs : list jstring) :
  Forall segment segs -> segments (js "/" ++ join (js "/") segs) = segs.
Proof. intros H. rewrite segments_slash. apply segments_join; assumption. Qed.

Lemma Forall_segments (p : jstring) : Forall segment (segments p).
Proof. apply Forall_forall. intros s. apply segments_are_segments. Qed.

(** ** Path resolver *)

Lemma In_removelast {A} (x : A) (l : list A) : In x (removelast l) -> In x l.
Proof.
  induction l as [|y l IH]; [auto|].
  destruct l as [|z l]; [intros []|].
  change (removelast (y :: z :: l)) with (y :: removelast (z :: l)).
  intros [H|H]; [left | right]; auto.
Qed.

Lemma Forall_removelast {A} (P : A -> Prop) (l : list A) :
  Forall P l -> Forall P (removelast l).
Proof.
  rewrite !Forall_forall. intros H x Hx. apply H, In_removelast, Hx.
Qed.

Lemma resolveStep_segments (acc : list jstring) (part : jstring) :
  Forall segment acc -> segment part -> Forall segment (resolveStep acc part).
Proof.
  intros Ha Hp. unfold resolveStep.
  destruct (str_eqb part (js ".")); [assumption|].
  destruct (str_eqb part (js "..")); [apply Forall_removelast; assumption|].
  apply Forall_app; split; [assumption | constructor; auto].
Qed.

Lemma resolve_segments (parts acc : list jstring) :
  Forall segment acc -> Forall segment parts ->
  Forall segment (fold_left resolveStep parts acc).
Proof.
  revert acc; induction parts as [|part parts IH]; simpl; intros acc Ha Hp; auto.
  inversion Hp; subst. apply IH; auto using resolveStep_segments.
Qed.

Lemma resolve_origin (parts acc : list jstring) (s : jstring) :
  In s (fold_left resolveStep parts acc) ->
  In s acc \/ (In s parts /\ s <> js "." /\ s <> js "..").
Proof.
  revert acc; induction parts as [|part parts IH]; simpl; intros acc H; auto.
  apply IH in H as [H|[H1 H2]]; [|tauto].
  unfold resolveStep in H.
  destruct (str_eqb part (js ".")) eqn:E1; [auto|].
  destruct (str_eqb part (js "..")) eqn:E2; [left; apply In_removelast, H|].
  apply in_app_or in H as [H|[<-|[]]]; [auto|].
  right. apply str_eqb_neq in E1, E2. auto.
Qed.

Lemma resolve_dotdots (n : nat) (acc : list jstring) :
  length acc <= n -> fold_left resolveStep (repeat (js "..") n) acc = [].
Proof.
  revert acc; induction n as [|n IH]; simpl; intros acc Hl.
  - destruct acc; [reflexivity | simpl in Hl; lia].
  - apply IH. change (resolveStep acc (js "..")) with (removelast acc).
    rewrite removelast_firstn_len, length_firstn. lia.
Qed.

Lemma dotdot_segment : segment (js "..").
Proof. split; [discriminate | simpl; intuition discriminate]. Qed.

Lemma dotdots_relative (n : nat) :
  startsWith (join (js "/") (repeat (js "..") n)) (js "/") = false.
Proof. destruct n as [|[|n]]; reflexivity. Qed.

Lemma resolve_relative (p cwd : jstring) :
  startsWith p (js "/") = false ->
  _resolveAbsolutePath p cwd
  = js "/" ++ join (js "/") (fold_left resolveStep (segments p) (segments cwd)).
Proof. intros H. unfold _resolveAbsolutePath. rewrite H. reflexivity. Qed.

Lemma resolved_segments (p cwd : jstring) :
  startsWith p (js "/") = false ->
  segments (_resolveAbsolutePath p cwd)
  = fold_left resolveStep (segments p) (segments cwd).
Proof.
  intros H. rewrite resolve_relative by assumption.
  apply segments_absolute, resolve_segments; apply Forall_segments.
Qed.

(** C1. Root clamp of the path resolver.  The resolution of a relative path
    against any working directory is an absolute path in normal form: a
    slash, then its segments joined by slashes.  Its segments are
    accumulated from those of the working directory, one step for each
    segment of the path, read from the left: a path without segments gives
    the segments of the working directory; a name at the end of the path
    is added at the end; a [.] at the end changes nothing; and a [..] at
    the end removes the last segment, and removes nothing when none is
    left.  So each segment of the result is a segment of the working
    directory or a segment of the path other than [.] and [..]: the path
    never climbs above the root, and no [..] is left in the result unless
    the working directory had one.  The path [..], repeated any number of
    times, resolves to [/] against [/], and against any working directory
    once it is repeated as often as the directory is deep. *)
Theorem root_clamp :
  (forall cwd p : jstring,
     startsWith p (js "/") = false ->
     startsWith (_resolveAbsolutePath p cwd) (js "/") = true
     /\ _resolveAbsolutePath p cwd
        = js "/" ++ join (js "/") (segments (_resolveAbsolutePath p cwd))
     /\ (segments p = [] ->
         segments (_resolveAbsolutePath p cwd) = segments cwd)
     /\ (forall q k, startsWith q (js "/") = false ->
                    segments q = segments p ++ [k] ->
                    k <> js "." -> k <> js ".." ->
                    segments (_resolveAbsolutePath q cwd)
                    = segments (_resolveAbsolutePath p cwd) ++ [k])
     /\ (forall q, startsWith q (js "/") = false ->
                  segments q = segments p ++ [js "."] ->
                  segments (_resolveAbsolutePath q cwd)
                  = segments (_resolveAbsolutePath p cwd))
     /\ (forall q, startsWith q (js "/") = false ->
                  segments q = segments p ++ [js ".."] ->
                  segments (_resolveAbsolutePath q cwd)
                  = removelast (segments (_resolveAbsolutePath p cwd)))
     /\ (forall s, In s (segments (_resolveAbsolutePath p cwd)) ->
                  In s (segments cwd)
                  \/ (In s (segments p) /\ s <> js "." /\ s <> js ".."))
     /\ (~ In (js "..") (segments cwd) ->
         ~ In (js "..") (segments (_resolveAbsolutePath p cwd))))
  /\ (forall n, _resolveAbsolutePath (join (js "/") (repeat (js "..") n)) (js "/")
               = js "/")
  /\ (forall cwd n, length (segments cwd) <= n ->
                   _resolveAbsolutePath (join (js "/") (repeat (js "..") n)) cwd
                   = js "/").
Proof.
  assert (Hdots : forall cwd n, length (segments cwd) <= n ->
            _resolveAbsolutePath (join (js "/") (repeat (js "..") n)) cwd = js "/").
  { intros cwd n Hn. rewrite resolve_relative by apply dotdots_relative.
    rewrite segments_join by (apply Forall_forall; intros s Hs;
      apply repeat_spec in Hs; subst; apply dotdot_segment).
    rewrite resolve_dotdots by assumption. reflexivity. }
  split; [|split].
  - intros cwd p Hrel. repeat apply conj.
    + rewrite resolve_relative by assumption. reflexivity.
    + rewrite resolved_segments by assumption.
      apply resolve_relative. exact Hrel.
    + intros Hnone. rewrite resolved_segments by assumption.
      rewrite Hnone. reflexivity.
    + intros q k Hq Hseg Hdot Hdots'. rewrite !resolved_segments by assumption.
      rewrite Hseg, fold_left_app. cbn [fold_left]. unfold resolveStep.
      apply str_eqb_neq in Hdot, Hdots'. rewrite Hdot, Hdots'. reflexivity.
    + intros q Hq Hseg. rewrite !resolved_segments by assumption.
      rewrite Hseg, fold_left_app. reflexivity.
    + intros q Hq Hseg. rewrite !resolved_segments by assumption.
      rewrite Hseg, fold_left_app. reflexivity.
    + intros s Hs. rewrite resolved_segments in Hs by assumption.
      apply resolve_origin, Hs.
    + intros Hcwd Hs. rewrite resolved_segments in Hs by assumption.
      apply resolve_origin in Hs. tauto.
  - intros n. apply Hdots. simpl. lia.
  - exact Hdots.
Qed.

(** ** Resolver *)

Lemma walk_app (pre rest : list jstring) (v : value) :
  walk v (pre ++ rest)
  = match walk v pre with Some v' => walk v' rest | None => None end.
Proof.
  revert v; induction pre as [|part pre IH]; intros v; [reflexivity|].
  simpl. destruct v as [[|nm pth pid children]|k]; try reflexivity.
  destruct (child children part); [apply IH | reflexivity].
Qed.

(** ** Sorting *)

Section Sorting.

Variable A : Type.
Variable compare : A -> A -> Z.
Hypothesis compare_consistent : consistent compare.

Let le (a b : A) : Prop := (compare a b <= 0)%Z.

Lemma insertBy_permutation (x : A) (l : list A) :
  Permutation (insertBy compare x l) (x :: l).
Proof.
  induction l as [|y l IH]; simpl; [reflexivity|].
  destruct (compare x y <=? 0)%Z; [reflexivity|].
  rewrite IH. apply perm_swap.
Qed.

Lemma sort_permutation (l : list A) : Permutation (sort compare l) l.
Proof.
  induction l as [|x l IH]; simpl; [reflexivity|].
  rewrite insertBy_permutation, IH. reflexivity.
Qed.

Lemma insertBy_sorted (x : A) (l : list A) :
  StronglySorted le l -> StronglySorted le (insertBy compare x l).
Proof using compare_consistent.
  destruct compare_consistent as [Htotal Htrans].
  induction 1 as [|y l Hs IH Hy]; simpl.
  - repeat constructor.
  - destruct (Z.leb_spec (compare x y) 0) as [Hle|Hgt].
    + constructor; [constructor; assumption|].
      constructor; [exact Hle|].
      eapply Forall_impl; [|exact Hy]. intros z Hz. eapply Htrans; eauto.
    + constructor; [exact IH|].
      eapply Permutation_Forall;
        [symmetry; apply insertBy_permutation|].
      constructor; [apply Htotal; assumption | assumption].
Qed.

Lemma sort_sorted (l : list A) : StronglySorted le (sort compare l).
Proof using compare_consistent.
  induction l as [|x l IH]; simpl; [constructor|].
  apply insertBy_sorted, IH.
Qed.

End Sorting.



(** ** Occurrences *)


Lemma find_firstMatch (s t : jstring) (i : nat) :
  find s t = Some i <-> firstMatch s t i.
Proof.
  unfold firstMatch. revert i; induction s as [|x s IH]; intros i.
  - simpl. destruct (startsWith [] t) eqn:E.
    + split.
      * intros [= <-]. split; [exact E | intros j Hj; lia].
      * intros [_ Hmin]. destruct i as [|i]; [reflexivity|].
        specialize (Hmin 0 ltac:(lia)). simpl in Hmin. congruence.
    + split; [discriminate|]. intros [H _].
      replace (skipn i []) with (@nil char) in H by (destruct i; reflexivity).
      congruence.
  - simpl. destruct (startsWith (x :: s) t) eqn:E.
    + split.
      * intros [= <-]. split; [exact E | intros j Hj; lia].
      * intros [_ Hmin]. destruct i as [|i]; [reflexivity|].
        specialize (Hmin 0 ltac:(lia)). simpl in Hmin. congruence.
    + destruct i as [|i].
      * split; [destruct (find s t); discriminate|].
        intros [H _]. simpl in H. congruence.
      * specialize (IH i). split.
        -- destruct (find s t) as [k|]; [|discriminate].
           intros [= ->]. destruct IH as [[H1 H2] _]; [reflexivity|].
           split; [exact H1|]. intros [|j] Hj; [exact E|].
           apply H2. lia.
        -- intros [H1 H2]. destruct IH as [_ IH].
           rewrite IH; [reflexivity|]. split; [exact H1|].
           intros j Hj. apply (H2 (S j)). lia.
Qed.


Lemma startsWith_app (s t : jstring) :
  startsWith s t = true <-> exists b, s = t ++ b.
Proof.
  revert s; induction t as [|x t IH]; intros s; simpl.
  - split; [exists s; reflexivity | reflexivity].
  - destruct s as [|y s].
    + split; [discriminate | intros [b Hb]; discriminate].
    + rewrite andb_true_iff, N.eqb_eq, IH. split.
      * intros [-> [b ->]]. exists b; reflexivity.
      * intros [b [= -> ->]]. split; [reflexivity | exists b; reflexivity].
Qed.

Lemma find_unfold (s t : jstring) :
  find s t
  = if startsWith s t then Some 0
    else match s with [] => None | _ :: r => option_map S (find r t) end.
Proof. destruct s; reflexivity. Qed.

Lemma includes_occurs (s t : jstring) :
  includes s t = true <-> exists a b, s = a ++ t ++ b.
Proof.
  unfold includes. split.
  - destruct (find s t) as [i|] eqn:E; [|discriminate]. intros _.
    apply find_firstMatch in E as [H _]. apply startsWith_app in H as [b Hb].
    exists (firstn i s), b. rewrite <- Hb. symmetry. apply firstn_skipn.
  - intros [a [b ->]]. induction a as [|x a IH]; rewrite find_unfold.
    + replace (startsWith ([] ++ t ++ b) t) with true; [reflexivity|].
      symmetry. apply startsWith_app. exists b; reflexivity.
    + destruct (startsWith ((x :: a) ++ t ++ b) t); [reflexivity|]. simpl.
      destruct (find (a ++ t ++ b) t); [reflexivity | discriminate].
Qed.






Lemma blank_trim (s : jstring) : forallb isWhiteSpace s = true -> trim s = [].
Proof.
  intros H. unfold trim.
  replace (dropWhile isWhiteSpace s) with (@nil char); [reflexivity|].
  induction s as [|c s IH]; [reflexivity|]. simpl in *.
  apply andb_true_iff in H as [-> H]. auto.
Qed.


(** ** Numbers *)

Lemma isDigit_solid (c : char) :
  isDigit c = true ->
  isWhiteSpace c = false /\ N.eqb c 45 = false /\ N.eqb c 43 = false.
Proof.
  unfold isDigit, isWhiteSpace. rewrite andb_true_iff, !N.leb_le.
  intros [H1 H2]. simpl.
  repeat match goal with
         | |- context [N.eqb c ?k] =>
             let E := fresh in destruct (N.eqb_spec c k) as [E|E]; [lia|]
         end.
  simpl. repeat split.
  destruct (N.leb_spec 8192 c); [lia | reflexivity].
Qed.

Lemma takeWhile_all (p : char -> bool) (s : jstring) :
  forallb p s = true -> takeWhile p s = s.
Proof.
  induction s as [|c s IH]; simpl; [reflexivity|].
  rewrite andb_true_iff. intros [-> H]. rewrite IH by assumption. reflexivity.
Qed.

Lemma parseInt_digits (a : jstring) :
  a <> [] -> forallb isDigit a = true -> parseInt a = Some (digitsValue a).
Proof.
  intros Hne Hd. destruct a as [|c a]; [congruence|].
  pose proof Hd as Hc. simpl in Hc. apply andb_true_iff in Hc as [Hc _].
  destruct (isDigit_solid c Hc) as [Hws [Hminus Hplus]].
  unfold parseInt, readSign. simpl dropWhile. rewrite Hws, Hminus, Hplus.
  rewrite takeWhile_all by assumption.
  f_equal. lia.
Qed.

Lemma uint_units_inj (d d' : Decimal.uint) :
  uint_units d = uint_units d' -> d = d'.
Proof.
  revert d'; induction d; intros [] H; simpl in H;
    try discriminate; try reflexivity;
    injection H as H; f_equal; auto.
Qed.

Lemma String_of_nat_inj (n m : nat) : String_of_nat n = String_of_nat m -> n = m.
Proof.
  intros H. apply uint_units_inj in H. apply Unsigned.to_uint_inj, H.
Qed.

Lemma candidate_inj (base ext : jstring) (j k : nat) :
  candidate base ext j = candidate base ext k -> j = k.
Proof.
  destruct j as [|j], k as [|k]; simpl; intros H.
  - reflexivity.
  - apply app_inv_head in H. discriminate H.
  - apply app_inv_head in H. discriminate H.
  - apply app_inv_head in H. change (js "-") with [ch "-"] in H.
    simpl in H. injection H as H.
    apply (app_inv_tail (js "." ++ ext)) in H.
    apply String_of_nat_inj, H.
Qed.

Lemma candidate_dotted (base ext : jstring) (k : nat) :
  dotted (candidate base ext k).
Proof.
  unfold dotted. destruct k; simpl; rewrite ?in_app_iff; simpl; auto.
  right. right. rewrite in_app_iff. right. simpl; auto.
Qed.

(** *** Tables *)

Lemma getOwn_None {A} (o : object A) (k : jstring) :
  getOwn o k = None <-> ~ In k (map fst o).
Proof.
  induction o as [|[k' v] o IH]; simpl; [tauto|].
  destruct (str_eqb k' k) eqn:E.
  - apply str_eqb_eq in E. split; [discriminate | tauto].
  - apply str_eqb_neq in E. rewrite IH. tauto.
Qed.

Lemma prototypeKey_not_dotted (k : jstring) :
  dotted k -> isPrototypeKey k = false.
Proof.
  intros Hd. destruct (isPrototypeKey k) eqn:E; [|reflexivity].
  unfold isPrototypeKey in E. apply existsb_exists in E as [x [Hx E]].
  apply str_eqb_eq in E. subst x. exfalso. unfold dotted in Hd.
  simpl in Hx.
  repeat (destruct Hx as [<-|Hx];
          [simpl in Hd; intuition discriminate|]).
  exact Hx.
Qed.

Lemma arrayIndex_not_dotted (k : jstring) : dotted k -> arrayIndex k = None.
Proof.
  intros Hd. unfold arrayIndex. destruct k as [|c r]; [reflexivity|].
  replace (forallb isDigit (c :: r)) with false; [reflexivity|].
  symmetry. apply not_true_is_false. intros H.
  rewrite forallb_forall in H. specialize (H _ Hd). discriminate H.
Qed.

Lemma get_dotted {A} (o : object A) (k : jstring) :
  dotted k ->
  (~ In k (map fst o) /\ get o k = Undefined)
  \/ (In k (map fst o) /\ exists v, get o k = Own v).
Proof.
  intros Hd. unfold get. destruct (getOwn o k) as [v|] eqn:E.
  - right. split; [|exists v; reflexivity].
    destruct (in_dec (list_eq_dec N.eq_dec) k (map fst o)) as [H|H]; [exact H|].
    apply getOwn_None in H. congruence.
  - left. split; [apply getOwn_None, E|].
    rewrite prototypeKey_not_dotted by assumption. reflexivity.
Qed.

Lemma set_fresh {A} (o : object A) (k : jstring) (v : A) :
  ~ In k (map fst o) -> arrayIndex k = None -> set o k v = o ++ [(k, v)].
Proof.
  intros Hn Hi. induction o as [|[k' v'] o IH]; simpl; [reflexivity|].
  simpl in Hn. destruct (str_eqb k' k) eqn:E.
  - apply str_eqb_eq in E. tauto.
  - rewrite Hi, IH by tauto. reflexivity.
Qed.

(** *** The first occurrence of an extension *)

Lemma find_after (base t : jstring) (c : char) :
  ~ In c base -> find (base ++ c :: t) (c :: t) = Some (length base).
Proof.
  induction base as [|x base IH]; intros Hn.
  - rewrite find_unfold.
    replace (startsWith ([] ++ c :: t) (c :: t)) with true; [reflexivity|].
    symmetry. apply startsWith_app. exists []. rewrite app_nil_r. reflexivity.
  - simpl in Hn. simpl.
    destruct (N.eqb_spec c x) as [->|_]; [tauto|]. simpl.
    rewrite IH by tauto. reflexivity.
Qed.

Lemma replace_extension (base ext : jstring) :
  ~ In (ch ".") base ->
  replace (base ++ js "." ++ ext) (js "." ++ ext) [] = base.
Proof.
  intros Hn. unfold replace.
  change (js "." ++ ext) with (ch "." :: ext).
  rewrite find_after by assumption.
  rewrite firstn_app, firstn_all, Nat.sub_diag. simpl.
  rewrite skipn_app, skipn_all2 by lia.
  replace (length base + S (length ext) - length base) with (S (length ext))
    by lia.
  simpl. rewrite skipn_all. rewrite !app_nil_r. reflexivity.
Qed.

(** *** The loop that looks for a free name *)

Section FreeName.

Variable children : object node.
Variables base ext : jstring.
Hypothesis base_dotless : ~ In (ch ".") base.

Let keys : list jstring := map fst children.
Let original : jstring := base ++ js "." ++ ext.

Lemma numberedFilename_candidate (k : nat) :
  numberedFilename original ext (S k) = candidate base ext (S k).
Proof using base_dotless.
  unfold numberedFilename, original.
  rewrite replace_extension by assumption. reflexivity.
Qed.

Lemma loop_finds (fuel k : nat) :
  (forall j, j < k -> In (candidate base ext j) keys) ->
  (exists m, k <= m <= k + fuel /\ ~ In (candidate base ext m) keys) ->
  exists name,
    uniqueFilename fuel children original ext (candidate base ext k) (S k)
    = Some name
    /\ firstFree keys base ext name.
Proof using base_dotless.
  revert k; induction fuel as [|fuel IH]; intros k Hbelow [m [Hm Hfree]].
  - assert (m = k) by lia. subst m.
    destruct (@get_dotted _ children _ (candidate_dotted base ext k))
      as [[Hn Hg]|[Hi _]]; [|tauto].
    exists (candidate base ext k). simpl. rewrite Hg.
    split; [reflexivity|]. exists k; auto.
  - destruct (@get_dotted _ children _ (candidate_dotted base ext k))
      as [[Hn Hg]|[Hi [v Hg]]].
    + exists (candidate base ext k). simpl. rewrite Hg.
      split; [reflexivity|]. exists k; auto.
    + simpl. rewrite Hg, numberedFilename_candidate.
      apply IH.
      * intros j Hj. destruct (Nat.eq_dec j k) as [->|Hne]; [exact Hi|].
        apply Hbelow. lia.
      * exists m. split; [|exact Hfree].
        assert (m <> k) by (intros ->; tauto). lia.
Qed.

Lemma free_candidate :
  exists m, m <= S (length children) /\ ~ In (candidate base ext m) keys.
Proof.
  set (tried := map (candidate base ext) (seq 0 (S (S (length children))))).
  destruct (Forall_Exists_dec (fun name => In name keys)
              (fun name => in_dec (list_eq_dec N.eq_dec) name keys) tried)
    as [Hall|Hex].
  - exfalso. assert (Hlen : length tried <= length keys).
    { apply NoDup_incl_length.
      - apply Finite.Injective_map_NoDup; [|apply seq_NoDup].
        intros j k. apply candidate_inj.
      - intros name Hname. rewrite Forall_forall in Hall. auto. }
    unfold tried, keys in Hlen. rewrite !length_map, length_seq in Hlen. lia.
  - apply Exists_exists in Hex as [name [Hin Hfree]].
    apply in_map_iff in Hin as [m [<- Hm]]. apply in_seq in Hm.
    exists m. split; [lia | exact Hfree].
Qed.

(** The loop finishes within the turns that it is given, and with the first
    free candidate. *)
Lemma attachment_loop_finishes :
  exists name,
    uniqueFilename (S (length children)) children original ext original 1
    = Some name
    /\ firstFree keys base ext name.
Proof using base_dotless.
  apply (loop_finds (S (length children)) (k := 0)).
  - intros j Hj. lia.
  - destruct free_candidate as [m [Hm Hfree]]. exists m. split; [lia | exact Hfree].
Qed.

End FreeName.

Lemma firstFree_first (base ext name : jstring) :
  firstFree [] base ext name -> name = candidate base ext 0.
Proof.
  intros [k [-> [_ Hbelow]]]. destruct k as [|k]; [reflexivity|].
  destruct (Hbelow 0 ltac:(lia)).
Qed.

Lemma firstFree_second (base ext name : jstring) :
  firstFree [candidate base ext 0] base ext name -> name = candidate base ext 1.
Proof.
  intros [k [-> [Hfree Hbelow]]]. destruct k as [|[|k]].
  - simpl in Hfree. tauto.
  - reflexivity.
  - destruct (Hbelow 1 ltac:(lia)) as [H|[]].
    apply candidate_inj in H. discriminate H.
Qed.

(** *** Slugs *)

Lemma In_dropWhile (p : char -> bool) (s : jstring) (c : char) :
  In c (dropWhile p s) -> In c s.
Proof.
  induction s as [|x s IH]; simpl; [auto|].
  destruct (p x); [auto | simpl; auto].
Qed.

Lemma In_dropWhileEnd (p : char -> bool) (s : jstring) (c : char) :
  In c (dropWhileEnd p s) -> In c s.
Proof.
  unfold dropWhileEnd. rewrite <- in_rev. intros H.
  apply In_dropWhile in H. apply in_rev, H.
Qed.

(** ** The host of the examples *)

Lemma compareUnits_flip (a b : jstring) :
  (0 < compareUnits a b -> compareUnits b a <= 0)%Z.
Proof.
  revert b; induction a as [|x a IH]; intros [|y b]; simpl; try lia.
  destruct (N.ltb_spec x y), (N.ltb_spec y x); try lia. apply IH.
Qed.

Lemma compareUnits_trans (a b c : jstring) :
  (compareUnits a b <= 0 -> compareUnits b c <= 0 -> compareUnits a c <= 0)%Z.
Proof.
  revert b c; induction a as [|x a IH]; intros [|y b] [|z c]; simpl; try lia.
  destruct (N.ltb_spec x y), (N.ltb_spec y x), (N.ltb_spec y z),
    (N.ltb_spec z y), (N.ltb_spec x z), (N.ltb_spec z x); try lia.
  apply IH.
Qed.

Lemma compareUnits_consistent : consistent compareUnits.
Proof. split; [exact compareUnits_flip | exact compareUnits_trans]. Qed.





(** ** Trees whose nodes carry their paths *)

Lemma getOwn_Some {A} (o : object A) (k : jstring) (v : A) :
  getOwn o k = Some v -> In (k, v) o.
Proof.
  induction o as [|[k' v'] o IH]; simpl; [discriminate|].
  destruct (str_eqb k' k) eqn:E; [|auto].
  apply str_eqb_eq in E. intros [= ->]. subst. auto.
Qed.

Lemma set_Forall {A} (P : jstring * A -> Prop) (o : object A) (k : jstring)
  (v : A) :
  Forall P o -> P (k, v) -> Forall P (set o k v).
Proof.
  intros Ho Hk. induction Ho as [|[k' v'] o Hkv Ho IH]; simpl.
  - constructor; auto.
  - destruct (str_eqb k' k) eqn:E.
    + apply str_eqb_eq in E. subst k'. constructor; auto.
    + destruct (arrayIndex k) as [i|]; [destruct (arrayIndex k') as [i'|]|].
      * destruct (i <? i')%Z; repeat (constructor; auto).
      * repeat (constructor; auto).
      * constructor; auto.
Qed.

Lemma wellFormed_path (p : jstring) (n : node) : wellFormed p n -> path n = p.
Proof. destruct n; intros [H _]; exact H. Qed.

Lemma wellFormed_children (p nm pth : jstring) (pid : option Z)
  (children : object node) :
  wellFormed p (Directory nm pth pid children)
  <-> pth = p /\ Forall (fun kv => wellFormed (childPath p (fst kv)) (snd kv))
                   children.
Proof.
  simpl. apply and_iff_compat_l.
  induction children as [|[k c] rest IH]; simpl.
  - split; [constructor | trivial].
  - rewrite IH. split.
    + intros [Hc Hrest]. constructor; assumption.
    + intros H. inversion H; subst. auto.
Qed.

Lemma wellFormed_file (p nm pth content : jstring) (u : option jstring) :
  pth = p -> wellFormed p (File nm pth content u).
Proof. intros ->. split; [reflexivity | exact I]. Qed.

Lemma childPath_below (p k : jstring) (c : char) :
  c <> ch "/" -> childPath (ch "/" :: c :: p) k = (ch "/" :: c :: p) ++ js "/" ++ k.
Proof.
  intros Hc. unfold childPath. simpl. destruct (c =? 47)%N; reflexivity.
Qed.

Lemma wellFormed_walk (parts : list jstring) :
  forall (p : jstring) (current n : node),
    wellFormed p current ->
    walk (Node current) parts = Some (Node n) ->
    wellFormed (fold_left childPath parts p) n.
Proof.
  induction parts as [|part rest IH]; intros p current n Hwf Hwalk.
  - injection Hwalk as <-. exact Hwf.
  - destruct current as [|nm pth pid children]; [discriminate Hwalk|].
    simpl in Hwalk. unfold child, get in Hwalk.
    destruct (getOwn children part) as [c|] eqn:E.
    + apply getOwn_Some in E. apply wellFormed_children in Hwf as [_ Hall].
      rewrite Forall_forall in Hall. specialize (Hall _ E). simpl in Hall.
      simpl. eapply IH; eauto.
    + destruct (isPrototypeKey part); [|discriminate Hwalk].
      destruct rest; discriminate Hwalk.
Qed.

Lemma childPath_deeper (parts : list jstring) :
  forall p, p <> js "/" -> p <> [] ->
    fold_left childPath parts p
    = p ++ concat (map (fun k => js "/" ++ k) parts).
Proof.
  induction parts as [|k rest IH]; intros p Hp Hne; simpl.
  - rewrite app_nil_r; reflexivity.
  - unfold childPath at 2. apply str_eqb_neq in Hp. rewrite Hp.
    rewrite IH.
    + rewrite <- !app_assoc. reflexivity.
    + destruct p as [|c p]; [congruence|]. simpl. destruct p; discriminate.
    + destruct p; [congruence | discriminate].
Qed.

Lemma join_slashes (k : jstring) (rest : list jstring) :
  join (js "/") (k :: rest) = k ++ concat (map (fun k => js "/" ++ k) rest).
Proof.
  revert k; induction rest as [|k' rest IH]; intros k.
  - simpl. rewrite app_nil_r; reflexivity.
  - change (join (js "/") (k :: k' :: rest))
      with (k ++ js "/" ++ join (js "/") (k' :: rest)).
    rewrite IH. reflexivity.
Qed.

Lemma childPath_from_root (parts : list jstring) :
  Forall segment parts ->
  fold_left childPath parts (js "/") = js "/" ++ join (js "/") parts.
Proof.
  intros Hseg. destruct parts as [|k rest]; [reflexivity|].
  inversion Hseg as [|? ? [Hk _] _]; subst.
  rewrite join_slashes. simpl fold_left.
  change (childPath (js "/") k) with (js "/" ++ k).
  rewrite childPath_deeper.
  - rewrite <- app_assoc. reflexivity.
  - destruct k; [congruence | discriminate].
  - discriminate.
Qed.

(** In such a tree the path of a node that a walk reaches is the path that
    was walked. *)
Lemma wellFormed_located (r n : node) (parts : list jstring) :
  wellFormed (js "/") r ->
  Forall segment parts ->
  walk (Node r) parts = Some (Node n) ->
  path n = js "/" ++ join (js "/") parts.
Proof.
  intros Hwf Hseg Hwalk.
  rewrite <- childPath_from_root by assumption.
  eapply wellFormed_path, wellFormed_walk; eauto.
Qed.

Section Properties.

Context {host : Host}.

Lemma resolvePath_walk (fs : VirtualFileSystem) (r : node) :
  initialized fs = true ->
  root fs = Some r ->
  forall p cwd,
    resolvePath fs p cwd
    = Return (walk (Node r) (segments (_resolveAbsolutePath p cwd))).
Proof.
  intros Hi Hr p cwd. unfold resolvePath. rewrite Hi, Hr. simpl.
  destruct (segments (_resolveAbsolutePath p cwd)); reflexivity.
Qed.

(** C4, the resolver as it is.  On a filesystem that is not initialized
    [resolvePath] throws, for every path and every working directory, the
    error that the filesystem is not initialized.  On one that is
    initialized it returns for every path and every working directory, and
    what it returns is the walk from the root along the segments of the
    absolute path: the root itself when there are no segments, not-found
    when the walk has to go on below a file, and not-found when a directory
    has no child of the name and the name is not one that every object
    inherits.  The function takes the filesystem and two strings and gives
    back a value: there is no state for it to change. *)
Theorem resolver_total (fs : VirtualFileSystem) :
  (initialized fs = false ->
   forall p cwd, resolvePath fs p cwd = Throw FilesystemNotInitialized)
  /\ (forall r,
        initialized fs = true ->
        root fs = Some r ->
        (forall p cwd,
           resolvePath fs p cwd
           = Return (walk (Node r) (segments (_resolveAbsolutePath p cwd))))
        /\ (forall p cwd,
              segments (_resolveAbsolutePath p cwd) = [] ->
              resolvePath fs p cwd = Return (Some (Node r)))
        /\ (forall pre rest nm pth content u,
              walk (Node r) pre = Some (Node (File nm pth content u)) ->
              rest <> [] ->
              walk (Node r) (pre ++ rest) = None)
        /\ (forall pre part rest nm pth pid children,
              walk (Node r) pre = Some (Node (Directory nm pth pid children)) ->
              getOwn children part = None ->
              isPrototypeKey part = false ->
              walk (Node r) (pre ++ part :: rest) = None)).
Proof.
  split.
  { intros Hi p cwd. unfold resolvePath. rewrite Hi. reflexivity. }
  intros r Hi Hr. pose proof (resolvePath_walk fs Hi Hr) as H1.
  repeat split.
  - exact H1.
  - intros p cwd Hs. rewrite H1, Hs. reflexivity.
  - intros pre rest nm pth content u Hw Hrest. rewrite walk_app, Hw.
    destruct rest; [congruence | reflexivity].
  - intros pre part rest nm pth pid children Hw Hown Hkey.
    rewrite walk_app, Hw. simpl. unfold child, get. rewrite Hown, Hkey.
    reflexivity.
Qed.

(** ** Listing *)




(** ** Search *)

Lemma _searchNode_files (n : node) (searchTerm : jstring) :
  forall results,
    _searchNode n searchTerm results
    = results ++ flat_map (hits searchTerm) (files n).
Proof.
  induction n as [nm p content u | nm p pid children IH] using node_induction;
    intros results.
  - simpl. destruct (truthy content); [|rewrite app_nil_r; reflexivity].
    destruct (searchHit p content searchTerm); simpl;
      rewrite ?app_nil_r; reflexivity.
  - simpl. revert results.
    induction IH as [|[k c] rest Hc _ IHrest]; intros results.
    + rewrite app_nil_r; reflexivity.
    + simpl in Hc. rewrite IHrest, Hc, flat_map_app, app_assoc. reflexivity.
Qed.



(** ** Dispatch *)

(** C10. Blank input.  For an input line that is empty or consists of white
    space only, [execute] returns the empty result that is no error, and
    the session is the one before: nothing is added to the history and the
    working directory is untouched. *)
Theorem blank_input_noop (fs : VirtualFileSystem) (st : session)
  (input : jstring) :
  forallb isWhiteSpace input = true ->
  execute fs st input
  = ({| output := []; error := false; navigation := None; exit := false |}, st).
Proof.
  intros H. unfold execute, executeWith. rewrite (blank_trim _ H). reflexivity.
Qed.


Lemma getOwn_In {A} (o : object A) (k : jstring) (v : A) :
  getOwn o k = Some v -> exists k', In (k', v) o.
Proof.
  induction o as [|[k' v'] o IH]; simpl; [discriminate|].
  destruct (str_eqb k' k).
  - intros [= ->]. exists k'; auto.
  - intros H. destruct (IH H) as [k'' Hk]. exists k''; auto.
Qed.

Lemma cmdOpen_keepsSession (fs : VirtualFileSystem) : keepsSession (cmdOpen fs).
Proof.
  intros args st. unfold cmdOpen. destruct args as [|p args]; [simpl; split; [reflexivity|discriminate]|].
  destruct (resolvePath fs p (cwd st)) as [[[[nm fp c u|nm dp pid ch]|k]|]|e];
    simpl; split; try reflexivity; try discriminate.
Qed.

Lemma commands_keepSession (fs : VirtualFileSystem) (k : jstring) (run : handler) :
  get (commands fs) k = Own run -> keepsSession run.
Proof.
  unfold get. destruct (getOwn (commands fs) k) as [h|] eqn:E;
    [|destruct (isPrototypeKey k); discriminate].
  intros [= ->]. apply getOwn_In in E as [k' Hin].
  simpl in Hin.
  repeat (destruct Hin as [[= _ <-]|Hin];
          [first [ apply cmdOpen_keepsSession
                 | intros args st; destruct args;
                   (split; [reflexivity | intros; reflexivity]) ]|]).
  contradiction.
Qed.

(** C2, the dispatch as it is.  For an input line that is not blank,
    [execute] adds the line, trimmed of the white space around it, to the
    history once, whether the line is rejected, unknown, fails or
    succeeds; for a blank line the session stays as it is.  Whenever the
    result is an error, the working directory is the one before. *)
Theorem dispatch_atomicity (fs : VirtualFileSystem) (st : session)
  (input : jstring) :
  (trim input <> [] ->
   history (snd (execute fs st input)) = history st ++ [trim input])
  /\ (trim input = [] -> snd (execute fs st input) = st)
  /\ (error (fst (execute fs st input)) = true ->
      cwd (snd (execute fs st input)) = cwd st).
Proof.
  unfold execute, executeWith.
  destruct (trim input) as [|c t] eqn:E.
  { simpl. repeat split; auto. congruence. }
  simpl length. simpl Nat.eqb. cbv iota.
  assert (Hgoal :
    forall rs : result * session,
      history (snd rs) = history st ++ [c :: t]
      /\ (error (fst rs) = true -> cwd (snd rs) = cwd st) ->
      (c :: t <> [] -> history (snd rs) = history st ++ [c :: t])
      /\ (c :: t = [] -> snd rs = st)
      /\ (error (fst rs) = true -> cwd (snd rs) = cwd st)).
  { intros rs [H1 H2]. repeat split; auto. discriminate. }
  apply Hgoal.
  destruct (_containsShellFeatures (c :: t)); [simpl; auto|].
  destruct (_parseCommand (c :: t)) as [command args].
  destruct (get (commands fs) (canonicalCommand aliases command)) as [run|k|] eqn:G;
    [|simpl; auto|simpl; auto].
  cbv zeta.
  match goal with
  | |- context [run args ?s] =>
      destruct (commands_keepSession fs _ G args s) as [Hh Hc];
      destruct (run args s) as [[r|e] st'] eqn:R
  end; simpl in *.
  - split; [exact Hh | discriminate].
  - split; [exact Hh | intros _; apply (Hc e); reflexivity].
Qed.

(** ** Tree command *)

Lemma getTree_not_InvalidDepth (fs : VirtualFileSystem) (p : jstring)
  (d : Z) (cwd : jstring) :
  getTree fs p d cwd <> Throw InvalidDepth.
Proof.
  unfold getTree.
  destruct (resolvePath fs p cwd) as [[[n|k]|]|e] eqn:E; simpl;
    try discriminate.
  intros [= ->]. revert E. unfold resolvePath.
  destruct (initialized fs); cbn [negb]; [|discriminate].
  destruct (segments (_resolveAbsolutePath p cwd)), (root fs); discriminate.
Qed.

(** C7, the validation as it is.  [cmdTree] throws the invalid-depth error
    exactly when a depth argument is given, is not the empty string, and
    [parseInt] reads no integer from it or reads an integer below one.  The
    condition does not mention the filesystem: the error is decided before
    anything is resolved or rendered.  A depth argument of decimal digits
    with a value of one at least never gives the error.  The session is
    left as it is.  Without a depth argument, and with the empty string for
    one, the tree is that of [getTree] to the depth 3; with a depth
    argument of which [parseInt] reads an integer of one at least, and of
    2^53 at most, up to where the integer read is the number that
    [parseInt] returns, it is that of [getTree] to that depth; the path is
    the first argument, or [.] without one. *)
Theorem tree_depth_validation (fs : VirtualFileSystem) (args : list jstring)
  (st : session) :
  (fst (cmdTree fs args st) = Throw InvalidDepth
   <-> exists a, nth_error args 1 = Some a
                 /\ a <> []
                 /\ (parseInt a = None
                     \/ exists d, parseInt a = Some d /\ (d < 1)%Z))
  /\ (forall a, nth_error args 1 = Some a -> isPositiveInteger a = true ->
                fst (cmdTree fs args st) <> Throw InvalidDepth)
  /\ snd (cmdTree fs args st) = st
  /\ (nth_error args 1 = None \/ nth_error args 1 = Some [] ->
      fst (cmdTree fs args st)
      = (tree <- getTree fs (nthOr args 0 (js ".")) 3 (cwd st) ;;
         Return (say tree)))
  /\ (forall a d,
        nth_error args 1 = Some a -> a <> [] ->
        parseInt a = Some d -> (1 <= d <= 2 ^ 53)%Z ->
        fst (cmdTree fs args st)
        = (tree <- getTree fs (nthOr args 0 (js ".")) d (cwd st) ;;
           Return (say tree))).
Proof.
  assert (Hthrow : fst (cmdTree fs args st) = Throw InvalidDepth
                   <-> (depthArgument args = None
                        \/ exists d, depthArgument args = Some d /\ (d < 1)%Z)).
  { unfold cmdTree. cbv zeta. cbn [fst].
    destruct (depthArgument args) as [d|]; [|intuition].
    destruct (Z.ltb_spec d 1) as [Hlt|Hge].
    - split; [|reflexivity]. intros _. right. exists d; auto.
    - split.
      + destruct (getTree fs (nthOr args 0 (js ".")) d (cwd st)) eqn:G;
          simpl; intros H; [discriminate H|].
        injection H as ->. destruct (getTree_not_InvalidDepth _ _ _ _ G).
      + intros [H|[d' [[= <-] Hd']]]; [discriminate H | lia]. }
  assert (Hiff : fst (cmdTree fs args st) = Throw InvalidDepth
                 <-> exists a, nth_error args 1 = Some a
                               /\ a <> []
                               /\ (parseInt a = None
                                   \/ exists d, parseInt a = Some d /\ (d < 1)%Z)).
  { rewrite Hthrow. unfold depthArgument.
    destruct (nth_error args 1) as [[|c a]|]; simpl truthy; cbv iota.
    - split.
      + intros [H|[d [[= <-] Hd]]]; [discriminate H | lia].
      + intros [a [[= <-] [Hne _]]]. congruence.
    - split.
      + intros H. exists (c :: a). repeat split; [discriminate | exact H].
      + intros [a' [[= <-] [_ H]]]. exact H.
    - split.
      + intros [H|[d [[= <-] Hd]]]; [discriminate H | lia].
      + intros [a [H _]]. discriminate H. }
  split; [exact Hiff|]. split; [|split; [reflexivity|split]].
  - intros a Ha Hpos Hinvalid. apply Hiff in Hinvalid as [a' [Ha' [Hne Hp]]].
    rewrite Ha in Ha'. injection Ha' as <-.
    unfold isPositiveInteger in Hpos.
    apply andb_true_iff in Hpos as [Hpos Hval].
    apply andb_true_iff in Hpos as [_ Hdig].
    rewrite (parseInt_digits Hne Hdig) in Hp.
    destruct Hp as [Hp|[d [[= <-] Hd]]]; [discriminate|]. lia.
  - intros Hnone. unfold cmdTree, depthArgument. cbv zeta. cbn [fst].
    destruct Hnone as [-> | ->]; reflexivity.
  - intros a d Ha Hne Hp Hd. unfold cmdTree, depthArgument. cbv zeta.
    cbn [fst]. rewrite Ha.
    destruct a as [|c a]; [congruence|]. cbn [truthy]. rewrite Hp.
    destruct (Z.ltb_spec d 1); [lia | reflexivity].
Qed.

(** ** Attachments *)

Lemma hyphenate_units (s : jstring) (inRun : bool) (c : char) :
  In c (hyphenate s inRun) -> isLowerAlnum c = true \/ c = ch "-".
Proof.
  revert inRun; induction s as [|x s IH]; intros inRun; simpl; [tauto|].
  destruct (isLowerAlnum x) eqn:E.
  - intros [<-|H]; eauto.
  - destruct inRun; [eauto|]. intros [<-|H]; eauto.
Qed.

Lemma slug_dotless (t : jstring) : ~ In (ch ".") (_generateSlug t).
Proof.
  unfold _generateSlug, stripHyphens. intros H.
  apply In_dropWhileEnd, In_dropWhile, hyphenate_units in H.
  destruct H as [H|H]; discriminate H.
Qed.

Lemma dropWhile_hyphenate (s : jstring) :
  dropWhile isHyphen (hyphenate s true) = hyphenate s true
  /\ dropWhile isHyphen (hyphenate s false) = hyphenate s true.
Proof.
  induction s as [|c r [IH1 IH2]]; [split; reflexivity|].
  cbn [hyphenate]. destruct (isLowerAlnum c) eqn:Hc.
  - assert (Hh : isHyphen c = false).
    { unfold isHyphen. destruct (N.eqb_spec c (ch "-")) as [->|]; [discriminate Hc | reflexivity]. }
    cbn [dropWhile]. rewrite Hh. split; reflexivity.
  - split; [exact IH1|].
    change (dropWhile isHyphen (ch "-" :: hyphenate r true))
      with (dropWhile isHyphen (hyphenate r true)).
    exact IH1.
Qed.

Lemma dropWhileEnd_cons (p : char -> bool) (c : char) (s : jstring) :
  dropWhileEnd p (c :: s)
  = match dropWhileEnd p s with
    | [] => if p c then [] else [c]
    | x :: r => c :: x :: r
    end.
Proof.
  unfold dropWhileEnd. cbn [rev].
  induction (rev s) as [|y t IH]; [simpl; destruct (p c); reflexivity|].
  cbn [app dropWhile]. destruct (p y) eqn:Hy.
  - exact IH.
  - cbn [rev]. rewrite rev_app_distr. cbn [rev app].
    destruct (rev t ++ [y]) as [|x r] eqn:E; [destruct (rev t); discriminate E|].
    rewrite <- E. reflexivity.
Qed.

Lemma pieces_cons (s : jstring) : exists w ws, pieces s = w :: ws.
Proof.
  destruct s as [|c r]; [exists [], []; reflexivity|].
  cbn [pieces]. destruct (isLowerAlnum c); [|eauto].
  destruct (pieces r); eauto.
Qed.

Lemma join_words_nil (ws : list jstring) :
  Forall (fun w => truthy w = true) ws ->
  join (js "-") ws = [] -> ws = [].
Proof.
  intros Hws Hj. destruct ws as [|w ws]; [reflexivity|].
  inversion Hws as [|? ? Hw _]; subst. destruct w as [|c w]; [discriminate Hw|].
  destruct ws; discriminate Hj.
Qed.

Lemma alnumWords_truthy (s : jstring) :
  Forall (fun w => truthy w = true) (alnumWords s).
Proof.
  apply Forall_forall. intros w Hw. apply filter_In in Hw. apply Hw.
Qed.

Lemma join_cons_unit (sep : jstring) (c : char) (w : jstring) (ws : list jstring) :
  join sep ((c :: w) :: ws) = c :: join sep (w :: ws).
Proof. destruct ws; reflexivity. Qed.

(** The slug that the code computes consists of the words of the text. *)
Lemma hyphenate_words (s : jstring) :
  dropWhileEnd isHyphen (hyphenate s true) = join (js "-") (alnumWords s)
  /\ dropWhileEnd isHyphen (hyphenate s false)
     = join (js "-") (hd [] (pieces s) :: filter truthy (tl (pieces s))).
Proof.
  induction s as [|c r [IH1 IH0]]; [split; reflexivity|].
  destruct (pieces_cons r) as [w [ws Hp]].
  cbn [hyphenate pieces]. unfold alnumWords. cbn [pieces].
  rewrite Hp in *. cbn [hd tl] in IH0.
  destruct (isLowerAlnum c) eqn:Hc.
  - assert (Hh : isHyphen c = false).
    { unfold isHyphen. destruct (N.eqb_spec c (ch "-")) as [->|]; [discriminate Hc | reflexivity]. }
    change (filter truthy ((c :: w) :: ws)) with ((c :: w) :: filter truthy ws).
    cbn [hd tl]. rewrite join_cons_unit.
    rewrite dropWhileEnd_cons, IH0, Hh.
    match goal with
    | |- context [match ?j with _ => _ end] =>
        change (join (js "-") (w :: filter truthy ws)) with j; destruct j
    end; split; reflexivity.
  - split; [rewrite IH1; unfold alnumWords; rewrite Hp; reflexivity|].
    cbn [hd tl]. rewrite dropWhileEnd_cons, IH1.
    unfold alnumWords. rewrite Hp.
    change (isHyphen (ch "-")) with true.
    destruct (filter truthy (w :: ws)) as [|v vs] eqn:Ev; [reflexivity|].
    pose proof (alnumWords_truthy r) as Ht. unfold alnumWords in Ht.
    rewrite Hp, Ev in Ht.
    change (join (js "-") ([] :: v :: vs))
      with (ch "-" :: join (js "-") (v :: vs)).
    match goal with
    | |- context [match ?j with _ => _ end] =>
        change (join (js "-") (v :: vs)) with j; destruct j as [|x t] eqn:Ej
    end; [|reflexivity].
    apply join_words_nil in Ej; [discriminate Ej | exact Ht].
Qed.

Lemma generateSlug_words (t : jstring) : _generateSlug t = slugOf t.
Proof.
  unfold _generateSlug, slugOf, stripHyphens.
  rewrite (proj2 (dropWhile_hyphenate _)). apply hyphenate_words.
Qed.

Lemma addAttachment_spec (slug : jstring) (children : object node)
  (att : attachment) (index : nat) :
  exists nm content,
    addAttachment slug children att index
    = Some (children
            ++ [(nm, File nm (js "/projects/" ++ slug ++ js "/attachments/" ++ nm)
                       content (Some (url att)))])
    /\ firstFree (map fst children) (baseOf att index) (extensionOf att) nm.
Proof.
  replace (baseOf att index)
    with (_generateSlug
            (if present (caption att) then show (caption att)
             else js "attachment-" ++ String_of_nat (index + 1)))
    by apply generateSlug_words.
  destruct (@attachment_loop_finishes children _ (extensionOf att)
              (slug_dotless
                 (if present (caption att) then show (caption att)
                  else js "attachment-" ++ String_of_nat (index + 1))))
    as [nm [Hloop Hfree]].
  unfold addAttachment, attachmentFilename.
  change (uniqueFilename (S (length children)) children
            ((_generateSlug
               (if present (caption att) then show (caption att)
                else js "attachment-" ++ String_of_nat (index + 1))) ++ js "." ++ extensionOf att) (extensionOf att)
            ((_generateSlug
               (if present (caption att) then show (caption att)
                else js "attachment-" ++ String_of_nat (index + 1))) ++ js "." ++ extensionOf att) 1 = Some nm)
    in Hloop.
  change (firstFree (map fst children) ((_generateSlug
               (if present (caption att) then show (caption att)
                else js "attachment-" ++ String_of_nat (index + 1)))) (extensionOf att) nm)
    in Hfree.
  unfold extensionOf in Hloop. rewrite Hloop.
  destruct Hfree as [k [Hk [Hnew Hbelow]]].
  rewrite set_fresh.
  - do 2 eexists. split; [reflexivity|]. exists k; auto.
  - exact Hnew.
  - apply arrayIndex_not_dotted. rewrite Hk. apply candidate_dotted.
Qed.

Lemma addAttachments_spec (slug : jstring) (atts : list attachment) :
  forall (children : object node) (index : nat),
    NoDup (map fst children) ->
    exists added,
      addAttachments slug children atts index = Some (children ++ added)
      /\ length added = length atts
      /\ NoDup (map fst (children ++ added))
      /\ forall before att after,
           atts = before ++ att :: after ->
           exists ab nm content aa,
             added = ab ++ (nm, File nm (js "/projects/" ++ slug ++ js "/attachments/" ++ nm)
                                  content (Some (url att))) :: aa
             /\ length ab = length before
             /\ firstFree (map fst (children ++ ab))
                  (baseOf att (index + length before)) (extensionOf att) nm.
Proof.
  induction atts as [|a rest IH]; intros children index Hnd.
  - exists []. rewrite app_nil_r. repeat split; auto.
    intros [|b before] att after H; discriminate H.
  - destruct (addAttachment_spec slug children a index)
      as [nm [content [Hadd Hfree]]].
    set (pth := js "/projects/" ++ slug ++ js "/attachments/" ++ nm) in *.
    assert (Hnd' : NoDup (map fst (children ++ [(nm, File nm pth content (Some (url a)))]))).
    { rewrite map_app. simpl. apply NoDup_app.
      - exact Hnd.
      - repeat constructor. simpl; tauto.
      - intros x Hx [<-|[]]. destruct Hfree as [k [_ [Hnew _]]]. tauto. }
    destruct (IH _ (S index) Hnd') as [added [Hrest [Hlen [Hnd'' Hnames]]]].
    exists ((nm, File nm pth content (Some (url a))) :: added).
    simpl addAttachments. rewrite Hadd, Hrest, <- app_assoc. simpl.
    repeat split.
    + rewrite Hlen; reflexivity.
    + rewrite <- app_assoc in Hnd''. exact Hnd''.
    + intros [|b before] att after H.
      * injection H as <- <-.
        exists [], nm, content, added. simpl.
        rewrite app_nil_r, Nat.add_0_r. auto.
      * injection H as <- H.
        destruct (Hnames before att after H)
          as [ab [nm' [content' [aa [Hadded [Hlab Hfree']]]]]].
        exists ((nm, File nm pth content (Some (url a))) :: ab),
          nm', content', aa.
        rewrite Hadded. simpl. repeat split; [lia|].
        rewrite <- app_assoc in Hfree'. simpl in Hfree'.
        replace (index + S (length before)) with (S index + length before) by lia.
        exact Hfree'.
Qed.

(** C8, the names as they are.  [_buildAttachmentsDirectory] returns a
    directory with one file for each attachment, in their order, under
    names that are all different; each file carries its name, its path
    below the directory and the URL of the attachment.  The name of a file
    is the first free name, among the names of the attachments before it,
    in the row that starts with the base name, a dot and the extension, and
    goes on with the same with [-1], [-2], ... put before the dot.  The
    base name is the slug of the caption, or of the ordinal [attachment-n]
    for an attachment without caption or with an empty one: the words of
    lower-case letters and digits of the text in lower case, up to the
    first em dash, with one hyphen between two words.  The extension is
    [pdf] when the URL in lower case ends in [.pdf], so for [.PDF] too, and
    [jpg] otherwise.  In particular, on a host that lowers [Shot] to
    [shot], two attachments with the caption [Shot] and URLs of images give
    the files [shot.jpg] and [shot-1.jpg]. *)
Theorem attachment_naming (slug : jstring) :
  (forall atts : list attachment,
     exists children,
       _buildAttachmentsDirectory atts slug
       = Some (Directory (js "attachments")
                 (js "/projects/" ++ slug ++ js "/attachments") None children)
       /\ length children = length atts
       /\ NoDup (map fst children)
       /\ forall before att after,
            atts = before ++ att :: after ->
            exists cb nm content ca,
              children
              = cb ++ (nm, File nm (js "/projects/" ++ slug ++ js "/attachments/" ++ nm)
                             content (Some (url att))) :: ca
              /\ length cb = length before
              /\ firstFree (map fst cb) (baseOf att (length before))
                   (extensionOf att) nm)
  /\ (forall first second : attachment,
        toLowerCase (js "Shot") = js "shot" ->
        caption first = Some (js "Shot") ->
        caption second = Some (js "Shot") ->
        extensionOf first = js "jpg" ->
        extensionOf second = js "jpg" ->
        exists children,
          _buildAttachmentsDirectory [first; second] slug
          = Some (Directory (js "attachments")
                    (js "/projects/" ++ slug ++ js "/attachments") None children)
          /\ map fst children = [js "shot.jpg"; js "shot-1.jpg"]).
Proof.
  assert (Hgeneral : forall atts : list attachment,
     exists children,
       _buildAttachmentsDirectory atts slug
       = Some (Directory (js "attachments")
                 (js "/projects/" ++ slug ++ js "/attachments") None children)
       /\ length children = length atts
       /\ NoDup (map fst children)
       /\ forall before att after,
            atts = before ++ att :: after ->
            exists cb nm content ca,
              children
              = cb ++ (nm, File nm (js "/projects/" ++ slug ++ js "/attachments/" ++ nm)
                             content (Some (url att))) :: ca
              /\ length cb = length before
              /\ firstFree (map fst cb) (baseOf att (length before))
                   (extensionOf att) nm).
  { intros atts.
    destruct (addAttachments_spec slug atts [] 0 (NoDup_nil _))
      as [added [Hadd [Hlen [Hnd Hnames]]]].
    exists added. unfold _buildAttachmentsDirectory. rewrite Hadd. simpl.
    repeat split; auto. }
  split; [exact Hgeneral|].
  intros first second Hlower Hc1 Hc2 He1 He2.
  destruct (Hgeneral [first; second]) as [children [Hbuild [Hlen [_ Hnames]]]].
  exists children. split; [exact Hbuild|].
  assert (Hbase : forall att i, caption att = Some (js "Shot") ->
                                baseOf att i = js "shot").
  { intros att i Hc. unfold baseOf, slugOf. rewrite Hc. simpl present.
    cbv iota. simpl show. rewrite Hlower. reflexivity. }
  destruct (Hnames [] first [second] eq_refl)
    as [cb1 [n1 [c1 [ca1 [Hch1 [Hl1 Hf1]]]]]].
  destruct (Hnames [first] second [] eq_refl)
    as [cb2 [n2 [c2 [ca2 [Hch2 [Hl2 Hf2]]]]]].
  destruct cb1; [|discriminate Hl1]. simpl in Hch1.
  destruct cb2 as [|e [|]]; try discriminate Hl2.
  rewrite Hch1 in Hch2. simpl in Hch2. injection Hch2 as <- Hca1.
  rewrite Hbase, He1 in Hf1 by assumption.
  rewrite Hbase, He2 in Hf2 by assumption.
  apply firstFree_first in Hf1. simpl in Hf2. rewrite Hf1 in Hf2.
  apply firstFree_second in Hf2.
  rewrite Hch1, Hca1 in Hlen. simpl in Hlen.
  destruct ca2; [|simpl in Hlen; discriminate Hlen].
  rewrite Hch1, Hca1, Hf1, Hf2. reflexivity.
Qed.

(** ** The tree that the builder makes *)

Lemma addAttachments_wellFormed (slug : jstring) (atts : list attachment) :
  forall (children children' : object node) (index : nat),
    Forall (fun kv =>
              wellFormed
                (childPath (js "/projects/" ++ slug ++ js "/attachments") (fst kv))
                (snd kv)) children ->
    addAttachments slug children atts index = Some children' ->
    Forall (fun kv =>
              wellFormed
                (childPath (js "/projects/" ++ slug ++ js "/attachments") (fst kv))
                (snd kv)) children'.
Proof.
  induction atts as [|a rest IH]; intros children children' index Hall Hadd.
  - injection Hadd as <-. exact Hall.
  - simpl in Hadd. unfold addAttachment in Hadd.
    destruct (attachmentFilename children a index) as [filename|];
      [|discriminate Hadd].
    eapply IH; [|exact Hadd].
    apply set_Forall; [exact Hall|].
    apply wellFormed_file. cbn [fst].
    change (js "/projects/" ++ slug ++ js "/attachments")
      with (ch "/" :: ch "p" :: js "rojects/" ++ slug ++ js "/attachments").
    rewrite childPath_below by discriminate.
    change (ch "/" :: ch "p" :: js "rojects/" ++ slug ++ js "/attachments")
      with (js "/projects/" ++ slug ++ js "/attachments").
    rewrite <- !app_assoc. reflexivity.
Qed.

Lemma projectNode_wellFormed (p : project) (n : node) :
  projectNode p = Some n ->
  wellFormed (js "/projects/" ++ _generateSlug (title p)) n.
Proof.
  unfold projectNode.
  set (slug := _generateSlug (title p)).
  assert (Hplain : wellFormed (js "/projects/" ++ slug)
            (Directory slug (js "/projects/" ++ slug) (id p)
               [ (js "overview",
                  File (js "overview") ((js "/projects/" ++ slug) ++ js "/overview")
                    (_formatProjectOverview p) None);
                 (js "architecture",
                  File (js "architecture")
                    ((js "/projects/" ++ slug) ++ js "/architecture")
                    (_formatProjectArchitecture p) None);
                 (js "decisions.log",
                  File (js "decisions.log")
                    ((js "/projects/" ++ slug) ++ js "/decisions.log")
                    (_formatProjectDecisions p) None);
                 (js "impact",
                  File (js "impact") ((js "/projects/" ++ slug) ++ js "/impact")
                    (_formatProjectImpact p) None) ])).
  { simpl. repeat split. }
  destruct (attachments p) as [[|a atts]|].
  - intros [= <-]. exact Hplain.
  - unfold _buildAttachmentsDirectory.
    destruct (addAttachments slug [] (a :: atts) 0) as [added|] eqn:E;
      [|discriminate].
    intros [= <-].
    pose proof (@addAttachments_wellFormed slug (a :: atts) [] added 0
                  (Forall_nil _) E) as Hadded.
    apply wellFormed_children in Hplain as [_ Hfiles].
    apply wellFormed_children. split; [reflexivity|].
    repeat (apply Forall_cons; [apply wellFormed_file; reflexivity|]).
    apply Forall_cons; [|apply Forall_nil].
    apply wellFormed_children.
    assert (Hdir : js "/projects/" ++ slug ++ js "/attachments"
                   = childPath (js "/projects/" ++ slug) (js "attachments")).
    { change (js "/projects/" ++ slug)
        with (ch "/" :: ch "p" :: js "rojects/" ++ slug).
      rewrite childPath_below by discriminate.
      change (ch "/" :: ch "p" :: js "rojects/" ++ slug)
        with (js "/projects/" ++ slug).
      rewrite <- !app_assoc. reflexivity. }
    simpl fst. simpl snd. rewrite <- Hdir. split; [reflexivity | exact Hadded].
  - intros [= <-]. exact Hplain.
Qed.

Lemma addProjects_wellFormed (projectData : list project) :
  forall children children' : object node,
    Forall (fun kv => wellFormed (js "/projects/" ++ fst kv) (snd kv)) children ->
    addProjects children projectData = Some children' ->
    Forall (fun kv => wellFormed (js "/projects/" ++ fst kv) (snd kv)) children'.
Proof.
  induction projectData as [|p rest IH]; intros children children' Hall Hadd.
  - injection Hadd as <-. exact Hall.
  - simpl in Hadd. destruct (projectNode p) as [n|] eqn:E; [|discriminate Hadd].
    eapply IH; [|exact Hadd].
    apply set_Forall; [exact Hall|]. apply projectNode_wellFormed, E.
Qed.

(** Every node of the tree that [_buildFileTree] returns carries the path
    at which it stands. *)
Lemma built_tree_wellFormed (CONSTANTS : Constants)
  (projectData : option (list project)) (r : node) :
  _buildFileTree CONSTANTS projectData = Some r -> wellFormed (js "/") r.
Proof.
  unfold _buildFileTree, _buildProjectsDirectory.
  destruct (match projectData with
            | Some ps => addProjects [] ps
            | None => Some []
            end) as [projects|] eqn:E; [|discriminate].
  intros [= <-].
  assert (Hprojects : Forall (fun kv => wellFormed (js "/projects/" ++ fst kv) (snd kv))
                        projects).
  { destruct projectData as [ps|].
    - eapply addProjects_wellFormed; [|exact E]. constructor.
    - injection E as <-. constructor. }
  apply wellFormed_children. split; [reflexivity|].
  constructor; [simpl; repeat split|].
  constructor; [|constructor; [simpl; repeat split | constructor]].
  apply wellFormed_children. split; [reflexivity|].
  exact Hprojects.
Qed.

(** The builder returns a tree for every list of project records: none of
    the loops over the names of attachments runs out of turns. *)
Lemma built_tree_exists (CONSTANTS : Constants)
  (projectData : option (list project)) :
  exists r, _buildFileTree CONSTANTS projectData = Some r.
Proof.
  assert (Hnode : forall p, exists n, projectNode p = Some n).
  { intros p. unfold projectNode.
    destruct (attachments p) as [[|a atts]|]; eauto.
    unfold _buildAttachmentsDirectory.
    destruct (addAttachments_spec (_generateSlug (title p)) (a :: atts) [] 0
                (NoDup_nil _)) as [added [-> _]].
    simpl. eauto. }
  assert (Hall : forall ps children, exists children',
             addProjects children ps = Some children').
  { induction ps as [|p ps IH]; intros children; simpl; eauto.
    destruct (Hnode p) as [n ->]. apply IH. }
  unfold _buildFileTree, _buildProjectsDirectory.
  destruct projectData as [ps|]; simpl; eauto.
  destruct (Hall ps []) as [children ->]. simpl. eauto.
Qed.

(** After [initialize] the filesystem is initialized, and its nodes carry
    the paths at which they stand. *)
Lemma initialize_wellFormed (CONSTANTS : Constants)
  (projectData : option (list project)) :
  exists fs r,
    initialize CONSTANTS newVirtualFileSystem projectData = Some fs
    /\ initialized fs = true
    /\ root fs = Some r
    /\ wellFormed (js "/") r.
Proof.
  destruct (built_tree_exists CONSTANTS projectData) as [r Hr].
  exists {| root := Some r; initialized := true |}, r.
  unfold initialize. simpl. rewrite Hr. simpl.
  repeat split. eapply built_tree_wellFormed, Hr.
Qed.

(** ** Open command *)

Lemma resolve_absolute_again (parts : list jstring) (cwd : jstring) :
  Forall segment parts ->
  segments (_resolveAbsolutePath (js "/" ++ join (js "/") parts) cwd) = parts.
Proof.
  intros H. unfold _resolveAbsolutePath.
  change (startsWith (js "/" ++ join (js "/") parts) (js "/")) with true.
  cbv iota. unfold _normalizePath.
  rewrite !segments_absolute by (assumption || apply Forall_segments).
  reflexivity.
Qed.

Lemma found_at_own_path (fs : VirtualFileSystem) (r n : node)
  (p cwd : jstring) :
  initialized fs = true ->
  root fs = Some r ->
  wellFormed (js "/") r ->
  resolvePath fs p cwd = Return (Some (Node n)) ->
  path n = js "/" ++ join (js "/") (segments (_resolveAbsolutePath p cwd))
  /\ resolvePath fs (path n) (js "/") = Return (Some (Node n)).
Proof.
  intros Hi Hr Hwf Hres.
  pose proof (resolvePath_walk fs Hi Hr) as Hwalk.
  rewrite Hwalk in Hres. injection Hres as Hres.
  pose proof (wellFormed_located _ Hwf (Forall_segments _) Hres) as Hpath.
  split; [exact Hpath|].
  rewrite Hwalk, Hpath, resolve_absolute_again by apply Forall_segments.
  rewrite Hres. reflexivity.
Qed.

(** C9, the precedence of the intents of [open] as it is.  Take a
    filesystem whose nodes carry the paths at which they stand, as
    [_buildFileTree] builds it, and a path that resolves to a file; the
    path of the file is then the absolute path that was resolved.  If the
    file lies under the directory of a project whose identifier is not 0,
    [cmdOpen] emits the intent to navigate to that project, whether the
    file carries a URL or not.  If it lies under the directory of a
    project whose identifier is 0 or that has none, or under no project
    directory, [cmdOpen] emits the intent to navigate to the URL when the
    file carries one, and returns the content of the file (or the note of
    an empty file) when it carries none: the identifier is tested as a
    condition, in which 0 and a missing one are false.  The session is left
    as it is. *)
Theorem open_intent_precedence (fs : VirtualFileSystem) (r : node)
  (st : session) (p : jstring) (rest : list jstring)
  (nm filePath content : jstring) (u : option jstring) :
  initialized fs = true ->
  root fs = Some r ->
  wellFormed (js "/") r ->
  resolvePath fs p (cwd st) = Return (Some (Node (File nm filePath content u))) ->
  filePath = js "/" ++ join (js "/") (segments (_resolveAbsolutePath p (cwd st)))
  /\ (forall i, inProject fs filePath (Some i) -> i <> 0%Z ->
        cmdOpen fs (p :: rest) st
        = (Return {| resOutput := js "Opening project: " ++ filePath;
                     resNavigation := Some (NavigateProject i);
                     resExit := false; resClear := false |}, st))
  /\ (forall pid, inProject fs filePath pid ->
        pid = None \/ pid = Some 0%Z ->
        cmdOpen fs (p :: rest) st
        = (Return (if present u
                   then {| resOutput := js "Opening: " ++ filePath;
                           resNavigation := option_map NavigateUrl u;
                           resExit := false; resClear := false |}
                   else say (orElse content (js "(empty file)"))), st))
  /\ ((forall pid, ~ inProject fs filePath pid) ->
      cmdOpen fs (p :: rest) st
      = (Return (if present u
                 then {| resOutput := js "Opening: " ++ filePath;
                         resNavigation := option_map NavigateUrl u;
                         resExit := false; resClear := false |}
                 else say (orElse content (js "(empty file)"))), st)).
Proof.
  intros Hi Hr Hwf H0.
  destruct (found_at_own_path fs p (cwd st) Hi Hr Hwf H0) as [Hpath H1].
  simpl path in Hpath, H1.
  pose proof (resolvePath_walk fs Hi Hr) as Hwalk.
  split; [exact Hpath|]. split; [|split].
  - intros i [slug [tail [dn [dp [dc [Hseg Hdir]]]]]] Hnz.
    unfold cmdOpen. rewrite H0. unfold getProjectIdFromPath.
    rewrite H1. cbn [bind projectIdOf].
    rewrite Hseg, str_eqb_refl, Hdir. cbn [bind projectIdOf].
    apply Z.eqb_neq in Hnz. rewrite Hnz. reflexivity.
  - intros pid [slug [tail [dn [dp [dc [Hseg Hdir]]]]]] Hpid.
    unfold cmdOpen. rewrite H0. unfold getProjectIdFromPath.
    rewrite H1. cbn [bind projectIdOf].
    rewrite Hseg, str_eqb_refl, Hdir. cbn [bind projectIdOf].
    destruct Hpid as [-> | ->]; cbn; destruct (present u); reflexivity.
  - intros Hno. unfold cmdOpen. rewrite H0. unfold getProjectIdFromPath.
    rewrite H1. cbn [bind projectIdOf].
    destruct (segments filePath) as [|p0 [|slug tail]] eqn:Hseg;
      [destruct (present u); reflexivity
      |destruct (present u); reflexivity|].
    destruct (str_eqb p0 (js "projects")) eqn:E;
      [|destruct (present u); reflexivity].
    apply str_eqb_eq in E. subst p0.
    rewrite Hwalk. cbn [bind].
    destruct (walk (Node r) (segments (_resolveAbsolutePath (js "/projects/" ++ slug) (js "/"))))
      as [[[|dn dp pid dc]|k]|] eqn:W; cbn [bind projectIdOf];
      try (destruct (present u); reflexivity).
    exfalso. apply (Hno pid). exists slug, tail, dn, dp, dc.
    split; [exact Hseg|]. rewrite Hwalk, W. reflexivity.
Qed.

(** ** The tables of the parser *)

(** A command name never leads to a property that the table of handlers
    only inherits: for a name that [Object.prototype] has, the table of
    aliases gives the builtin first, and the string of a builtin is no key
    at all. *)
Lemma canonical_is_no_prototype_key (fs : VirtualFileSystem)
  (command k : jstring) :
  get (commands fs) (canonicalCommand aliases command) <> Inherited k.
Proof.
  unfold canonicalCommand. unfold get at 2.
  destruct (getOwn aliases command) as [c|] eqn:Ea.
  - apply getOwn_In in Ea as [k' Hin]. simpl in Hin.
    repeat (destruct Hin as [[= _ <-]|Hin]; [discriminate|]).
    contradiction.
  - destruct (isPrototypeKey command) eqn:Ep.
    + unfold isPrototypeKey in Ep. apply existsb_exists in Ep as [x [Hx Ex]].
      apply str_eqb_eq in Ex. subst x. simpl in Hx.
      repeat (destruct Hx as [<-|Hx]; [discriminate|]).
      contradiction.
    + unfold get. destruct (getOwn (commands fs) command); [discriminate|].
      rewrite Ep. discriminate.
Qed.

End Properties.

(* ================================================================== *)
(** * Part III: further properties *)
(* ================================================================== *)

(** ** The resolver on its own results and on absolute paths *)

Lemma resolved_form (p cwd : jstring) :
  exists segs, Forall segment segs
               /\ _resolveAbsolutePath p cwd = js "/" ++ join (js "/") segs.
Proof.
  unfold _resolveAbsolutePath, _normalizePath.
  destruct (startsWith p (js "/")).
  - exists (segments p). split; [apply Forall_segments | reflexivity].
  - eexists. split; [|reflexivity].
    apply resolve_segments; apply Forall_segments.
Qed.

(** X1. The absolute path that [_resolveAbsolutePath] returns is in normal
    form, whatever the path and the working directory it was given:
    [_normalizePath] leaves it as it is, and resolving it again, against any
    working directory, gives the same path. *)
Theorem resolve_idempotent (p cwd : jstring) :
  _normalizePath (_resolveAbsolutePath p cwd) = _resolveAbsolutePath p cwd
  /\ forall cwd', _resolveAbsolutePath (_resolveAbsolutePath p cwd) cwd'
                  = _resolveAbsolutePath p cwd.
Proof.
  destruct (resolved_form p cwd) as [segs [Hsegs Heq]].
  assert (Hn : _normalizePath (_resolveAbsolutePath p cwd)
               = _resolveAbsolutePath p cwd).
  { rewrite Heq. unfold _normalizePath.
    rewrite (segments_absolute Hsegs). reflexivity. }
  split; [exact Hn|].
  intros cwd'. rewrite <- Hn at 2.
  rewrite Heq. reflexivity.
Qed.

Lemma keysOf_child (children : object node) (k : jstring) (c : node)
  (nm pth : jstring) (pid : option Z) (s : jstring) :
  In (k, c) children -> In s (keysOf c) ->
  In s (keysOf (Directory nm pth pid children)).
Proof.
  intros Hin Hs. simpl.
  induction children as [|[k' c'] rest IH]; [destruct Hin|].
  destruct Hin as [Heq | Hin].
  - inversion Heq; subst. right. apply in_or_app. left. exact Hs.
  - right. apply in_or_app. right. apply IH. exact Hin.
Qed.

Lemma keysOf_key (children : object node) (k : jstring) (c : node)
  (nm pth : jstring) (pid : option Z) :
  In (k, c) children -> In k (keysOf (Directory nm pth pid children)).
Proof.
  intros Hin. simpl.
  induction children as [|[k' c'] rest IH]; [destruct Hin|].
  destruct Hin as [Heq | Hin].
  - inversion Heq; subst. left. reflexivity.
  - right. apply in_or_app. right. apply IH. exact Hin.
Qed.

Section Walks.
Context {host : Host}.

Lemma walk_unnamed (s : jstring) (parts : list jstring) :
  forall n : node,
    In s parts -> ~ In s (keysOf n) -> isPrototypeKey s = false ->
    walk (Node n) parts = None.
Proof.
  induction parts as [|part rest IH]; intros n Hin Hkeys Hproto; [destruct Hin|].
  destruct n as [nm pth content u | nm pth pid children]; [reflexivity|].
  cbn [walk]. unfold child, get.
  destruct (getOwn children part) as [c|] eqn:Hown.
  - apply getOwn_Some in Hown.
    destruct Hin as [Heq | Hin].
    + subst part. exfalso. apply Hkeys. eapply keysOf_key; eassumption.
    + apply IH; [exact Hin| |exact Hproto].
      intros Hc. apply Hkeys. eapply keysOf_child; eassumption.
  - destruct (isPrototypeKey part) eqn:Hp; [|reflexivity].
    destruct rest as [|part' rest']; [|reflexivity].
    destruct Hin as [Heq | []]. subst part. congruence.
Qed.

(** X2. A path that starts with a slash is resolved without the working
    directory and without interpreting [.] and [..]: the segments that
    [resolvePath] walks are the non-empty pieces of the path as typed.  So
    in an initialized filesystem an absolute path with a segment that names
    no node of the tree (and no property of [Object.prototype]) resolves to
    nothing, also when a [..] after it would step back over it. *)
Theorem absolute_path_keeps_dots (fs : VirtualFileSystem) (r : node)
  (p cwd : jstring) :
  initialized fs = true ->
  root fs = Some r ->
  startsWith p (js "/") = true ->
  segments (_resolveAbsolutePath p cwd) = segments p
  /\ (forall s, In s (segments p) -> ~ In s (keysOf r) ->
                isPrototypeKey s = false ->
                resolvePath fs p cwd = Return None).
Proof.
  intros Hinit Hroot Habs.
  assert (Hsegs : segments (_resolveAbsolutePath p cwd) = segments p).
  { unfold _resolveAbsolutePath. rewrite Habs. unfold _normalizePath.
    apply segments_absolute. apply Forall_segments. }
  split; [exact Hsegs|].
  intros s Hin Hkeys Hproto.
  rewrite (resolvePath_walk fs Hinit Hroot). rewrite Hsegs.
  f_equal. eapply walk_unnamed; eassumption.
Qed.
End Walks.

(** ** The size of a rendered tree *)

Lemma _buildTreeLines_count (n : node) :
  forall (prefix : jstring) (isLast : bool) (m c : Z) (lines : list jstring),
    (c <= m)%Z ->
    length (_buildTreeLines n prefix isLast m c lines)
    = length lines + countWithin n (Z.to_nat (m - c)).
Proof.
  induction n as [nm pth content u | nm pth pid children IH] using node_induction;
    intros prefix isLast m c lines Hle.
  - cbn [_buildTreeLines countWithin].
    destruct (Z.gtb_spec c m); [lia|].
    rewrite length_app. reflexivity.
  - cbn [_buildTreeLines].
    destruct (Z.gtb_spec c m); [lia|].
    destruct (Z.ltb_spec c m) as [Hlt | Hge].
    + replace (Z.to_nat (m - c)) with (S (Z.to_nat (m - (c + 1)))) by lia.
      cbn [countWithin].
      set (newPrefix := if (c =? 0)%Z then [] else _).
      set (first := lines ++ _).
      assert (Hfirst : length first = S (length lines))
        by (unfold first; rewrite length_app; cbn [length]; lia).
      rewrite <- Nat.add_succ_comm, <- Hfirst.
      clearbody first. clear Hfirst.
      revert first.
      induction IH as [|[k ch] rest Hch _ IHrest]; intros first; [lia|].
      rewrite IHrest. cbn [snd] in Hch. rewrite Hch by lia. lia.
    + replace (Z.to_nat (m - c)) with 0 by lia.
      cbn [countWithin]. rewrite length_app. reflexivity.
Qed.

Lemma _buildTreeLines_saturates (n : node) :
  forall (prefix : jstring) (isLast : bool) (m m' c : Z) (lines : list jstring),
    (c <= m)%Z -> (c <= m')%Z ->
    height n <= Z.to_nat (m - c) -> height n <= Z.to_nat (m' - c) ->
    _buildTreeLines n prefix isLast m c lines
    = _buildTreeLines n prefix isLast m' c lines.
Proof.
  induction n as [nm pth content u | nm pth pid children IH] using node_induction;
    intros prefix isLast m m' c lines Hle Hle' Hh Hh'.
  - cbn [_buildTreeLines].
    destruct (Z.gtb_spec c m); [lia|].
    destruct (Z.gtb_spec c m'); [lia|]. reflexivity.
  - cbn [_buildTreeLines name].
    destruct (Z.gtb_spec c m); [lia|].
    destruct (Z.gtb_spec c m'); [lia|].
    destruct (Z.ltb_spec c m), (Z.ltb_spec c m').
    + set (newPrefix := if (c =? 0)%Z then [] else _).
      generalize (lines ++ [treeLine (orElse nm (js "/")) (js "/") prefix isLast c]).
      revert Hh Hh'.
      induction IH as [|[k ch] rest Hch _ IHrest]; intros Hh Hh' first;
        [reflexivity|].
      cbn [snd] in Hch. cbn [height] in Hh, Hh'.
      rewrite (Hch newPrefix (match rest with [] => true | _ => false end)
                 m m' (c + 1)%Z first) by lia.
      apply IHrest; cbn [height]; lia.
    + destruct children as [|[k0 c0] rest0]; [reflexivity|].
      cbn [height] in Hh'. lia.
    + destruct children as [|[k0 c0] rest0]; [reflexivity|].
      cbn [height] in Hh. lia.
    + reflexivity.
Qed.

(** X3. The tree of a node to depth [d], as [getTree] starts
    [_buildTreeLines], has one line for every node that is at most [d]
    levels below the top; and a depth beyond the height of the tree changes
    nothing: the lines are those for the height itself. *)
Theorem tree_size_and_saturation (n : node) (d : nat) :
  length (_buildTreeLines n [] true (Z.of_nat d) 0 []) = countWithin n d
  /\ (height n <= d ->
      _buildTreeLines n [] true (Z.of_nat d) 0 []
      = _buildTreeLines n [] true (Z.of_nat (height n)) 0 []).
Proof.
  split.
  - rewrite _buildTreeLines_count by lia.
    replace (Z.to_nat (Z.of_nat d - 0)) with d by lia. reflexivity.
  - intros Hh. apply _buildTreeLines_saturates; lia.
Qed.

Lemma _buildTreeLines_leaf (c : node) (isLast : bool) (lines : list jstring) :
  _buildTreeLines c [] isLast 1 (0 + 1) lines
  = lines ++ [(if isLast then connectorLast else connectorMid)
              ++ orElse (name c) (js "/")
              ++ match c with Directory _ _ _ _ => js "/" | File _ _ _ _ => [] end].
Proof. destruct c, isLast; reflexivity. Qed.

Section Rendering.
Context {host : Host}.

(** X4. The tree of a directory to depth one: the line of the directory
    (its name, or [/] for the root, and a slash), then one line for each
    child, in the order of the children in the object and not in that of a
    listing, without indentation, with the connector of a last child for the
    last one, the name that the child node carries, and a slash after a
    directory. *)
Theorem tree_depth_one (fs : VirtualFileSystem) (p cwd : jstring)
  (nm pth : jstring) (pid : option Z) (children : object node) :
  resolvePath fs p cwd = Return (Some (Node (Directory nm pth pid children))) ->
  getTree fs p 1 cwd
  = Return (join nl ((orElse nm (js "/") ++ js "/") :: firstLevel children)).
Proof.
  intros Hres. unfold getTree. rewrite Hres. cbn [bind].
  apply f_equal. apply f_equal.
  cbn [_buildTreeLines name]. 
  change (0 >? 1)%Z with false. change (0 <? 1)%Z with true.
  change (0 =? 0)%Z with true. cbv iota.
  change ([] ++ [treeLine (orElse nm (js "/")) (js "/") [] true 0])
    with ([orElse nm (js "/") ++ js "/"]).
  change ((orElse nm (js "/") ++ js "/") :: firstLevel children)
    with ([orElse nm (js "/") ++ js "/"] ++ firstLevel children).
  generalize [orElse nm (js "/") ++ js "/"].
  clear Hres.
  induction children as [|[k c] rest IH]; intros first.
  - cbn [firstLevel]. rewrite app_nil_r. reflexivity.
  - rewrite _buildTreeLines_leaf. rewrite IH. cbn [firstLevel].
    rewrite <- app_assoc. destruct rest; reflexivity.
Qed.

End Rendering.

(** ** The order of the search results, and the tokenizer *)

Section Searching.
Context {host : Host}.

Lemma hits_paths (searchTerm : jstring) (fs : list node) :
  map resultPath (flat_map (hits searchTerm) fs)
  = map path (filter (matches searchTerm) fs)
  /\ Forall (fun res => resultType res = file) (flat_map (hits searchTerm) fs).
Proof.
  induction fs as [|f fs [IHp IHt]]; [split; [reflexivity | constructor]|].
  cbn [flat_map filter]. rewrite map_app, IHp.
  destruct f as [nm p content u | nm p pid children]; cbn [hits matches].
  - destruct (truthy content); cbn [andb]; [|split; [reflexivity | exact IHt]].
    unfold searchHit.
    destruct (includes (toLowerCase content) searchTerm).
    + split; [reflexivity|]. constructor; [reflexivity | exact IHt].
    + split; [reflexivity | exact IHt].
  - split; [reflexivity | exact IHt].
Qed.

(** X5. The results of [search] for a keyword that is not blank: one
    result for each file with a non-empty content whose lowered content has
    the lowered keyword, in the order in which a walk that visits the
    children of a directory in the order of its object meets the files;
    every result has the type of a file.  The filesystem need not be
    initialized, only to have a root. *)
Theorem search_order (fs : VirtualFileSystem) (r : node) (keyword : jstring) :
  root fs = Some r ->
  trim keyword <> [] ->
  exists results,
    search fs keyword = Return results
    /\ map resultPath results
       = map path (filter (matches (toLowerCase keyword)) (files r))
    /\ Forall (fun res => resultType res = file) results.
Proof.
  intros Hroot Hkey. unfold search.
  destruct (trim keyword) as [|c t] eqn:Htrim; [congruence|].
  cbn [length Nat.eqb]. rewrite Hroot.
  eexists. split; [reflexivity|].
  rewrite _searchNode_files. cbn [app].
  apply hits_paths.
Qed.

(** X6. [cmdSearch] leaves the session as it is.  It throws the error of a
    missing argument in two cases with two messages: without any argument,
    and when the arguments joined by a space are blank (as for the one
    argument of two quotes); with a keyword that is not blank it never
    throws that error. *)
Theorem search_requires_keyword (fs : VirtualFileSystem)
  (args : list jstring) (st : session) :
  snd (cmdSearch fs args st) = st
  /\ (args = [] ->
      fst (cmdSearch fs args st)
      = Throw (MissingArgument (js "search requires a keyword")))
  /\ (args <> [] -> trim (join (js " ") args) = [] ->
      fst (cmdSearch fs args st)
      = Throw (MissingArgument (js "search keyword required")))
  /\ (trim (join (js " ") args) <> [] ->
      forall m, fst (cmdSearch fs args st) <> Throw (MissingArgument m)).
Proof.
  destruct args as [|a args].
  - split; [reflexivity|]. split; [reflexivity|].
    split; [congruence|]. intros H. exfalso. apply H. reflexivity.
  - split; [reflexivity|]. split; [discriminate|].
    unfold cmdSearch, search. cbn [fst].
    split.
    + intros _ Hblank. rewrite Hblank. reflexivity.
    + intros Hkey m.
      destruct (trim (join (js " ") (a :: args))) as [|c t] eqn:Htrim;
        [congruence|].
      cbn [length Nat.eqb].
      destruct (root fs) as [r|]; cbn [bind]; [|discriminate].
      destruct (_searchNode r _ []); discriminate.
Qed.

End Searching.

Lemma matchTokens_plain (w : jstring) :
  forallb plainUnit w = true ->
  forall rest token,
    matchTokens (w ++ rest) token false = matchTokens rest (token ++ w) false.
Proof.
  induction w as [|c w IH]; intros Hw rest token.
  - rewrite app_nil_r. reflexivity.
  - cbn [forallb] in Hw. apply andb_prop in Hw. destruct Hw as [Hc Hw].
    unfold plainUnit in Hc. apply andb_prop in Hc. destruct Hc as [Hs Hq].
    apply negb_true_iff in Hs, Hq.
    cbn [app matchTokens]. rewrite Hs, Hq.
    rewrite (IH Hw). rewrite <- app_assoc. reflexivity.
Qed.

Lemma matchTokens_word (w : jstring) :
  plainWord w = true -> matchTokens w [] false = [w].
Proof.
  intros Hw. unfold plainWord in Hw. apply andb_prop in Hw.
  destruct Hw as [Hne Hw].
  rewrite <- (app_nil_r w) at 1. rewrite (matchTokens_plain _ Hw).
  cbn [app matchTokens]. destruct w; [discriminate Hne | reflexivity].
Qed.

Lemma matchTokens_words (ws : list jstring) (tail : jstring) :
  forallb plainWord ws = true -> ws <> [] ->
  matchTokens (join (js " ") ws ++ js " " ++ tail) [] false
  = ws ++ matchTokens tail [] false.
Proof.
  induction ws as [|w ws IH]; intros Hws Hne; [congruence|].
  cbn [forallb] in Hws. apply andb_prop in Hws. destruct Hws as [Hw Hws].
  assert (Hstep : forall rest,
             matchTokens (w ++ js " " ++ rest) [] false
             = w :: matchTokens rest [] false).
  { intros rest. unfold plainWord in Hw. apply andb_prop in Hw.
    destruct Hw as [Hne' Hw].
    rewrite (matchTokens_plain _ Hw). cbn [app].
    change (js " " ++ rest) with (32%N :: rest).
    cbn [matchTokens]. change (N.eqb 32%N quote) with false.
    change (isWhiteSpace 32%N) with true. cbv iota.
    destruct w; [discriminate Hne' | reflexivity]. }
  destruct ws as [|w' ws'].
  - cbn [join]. apply Hstep.
  - change (join (js " ") (w :: w' :: ws'))
      with (w ++ js " " ++ join (js " ") (w' :: ws')).
    set (J := join (js " ") (w' :: ws')) in *.
    replace ((w ++ js " " ++ J) ++ js " " ++ tail)
      with (w ++ js " " ++ (J ++ js " " ++ tail))
      by (rewrite <- app_assoc; reflexivity).
    rewrite Hstep. rewrite IH; [reflexivity | exact Hws | discriminate].
Qed.

Lemma matchTokens_line (ws : list jstring) :
  forallb plainWord ws = true ->
  matchTokens (join (js " ") ws) [] false = ws.
Proof.
  induction ws as [|w ws IH]; intros Hws; [reflexivity|].
  cbn [forallb] in Hws. apply andb_prop in Hws. destruct Hws as [Hw Hws].
  destruct ws as [|w' ws'].
  - cbn [join]. apply matchTokens_word. exact Hw.
  - change (join (js " ") (w :: w' :: ws'))
      with (join (js " ") [w] ++ js " " ++ join (js " ") (w' :: ws')).
    rewrite matchTokens_words; [|cbn [forallb]; rewrite Hw; reflexivity|discriminate].
    rewrite (IH Hws). reflexivity.
Qed.

Lemma stripQuotes_plain (w : jstring) :
  forallb plainUnit w = true -> stripQuotes w = w.
Proof.
  intros Hw. unfold stripQuotes.
  destruct w as [|c r]; [reflexivity|].
  assert (Hq : forall d, In d (c :: r) -> N.eqb d quote = false).
  { intros d Hd. rewrite forallb_forall in Hw. specialize (Hw d Hd).
    unfold plainUnit in Hw. apply andb_prop in Hw. destruct Hw as [_ Hw].
    apply negb_true_iff in Hw. exact Hw. }
  rewrite (Hq c) by (left; reflexivity).
  destruct (rev (c :: r)) as [|d r'] eqn:Hrev.
  - apply (f_equal (@length _)) in Hrev. rewrite length_rev in Hrev.
    discriminate Hrev.
  - rewrite (Hq d); [reflexivity|].
    apply in_rev. rewrite Hrev. left. reflexivity.
Qed.

Lemma stripQuotes_words (ws : list jstring) :
  forallb plainWord ws = true -> map stripQuotes ws = ws.
Proof.
  induction ws as [|w ws IH]; intros Hws; [reflexivity|].
  cbn [forallb] in Hws. apply andb_prop in Hws. destruct Hws as [Hw Hws].
  cbn [map]. rewrite (IH Hws). f_equal. apply stripQuotes_plain.
  unfold plainWord in Hw. apply andb_prop in Hw. tauto.
Qed.

(** X7. The tokenizer gives back the words of a line: for words that are
    not empty and contain neither white space nor a quote,
    [_parseCommand] of the words joined by one space is the first word as
    the command and the other words as the arguments. *)
Theorem parse_words (w : jstring) (ws : list jstring) :
  plainWord w = true ->
  forallb plainWord ws = true ->
  _parseCommand (join (js " ") (w :: ws)) = (w, ws).
Proof.
  intros Hw Hws. unfold _parseCommand.
  rewrite matchTokens_line by (cbn [forallb]; rewrite Hw; exact Hws).
  cbn [hd tl]. rewrite (stripQuotes_words _ Hws). reflexivity.
Qed.

Lemma matchTokens_quoted (s : jstring) :
  ~ In quote s ->
  forall token,
    matchTokens (s ++ [quote]) token true = [token ++ s ++ [quote]].
Proof.
  induction s as [|c s IH]; intros Hs token.
  - cbn [app matchTokens]. change (N.eqb quote quote) with true.
    cbn [negb matchTokens]. destruct (token ++ [quote]) eqn:H; [|reflexivity].
    destruct token; discriminate H.
  - cbn [app matchTokens].
    destruct (N.eqb_spec c quote) as [Heq | Hneq].
    + exfalso. apply Hs. left. exact Heq.
    + cbn [negb]. rewrite IH by (intros H; apply Hs; right; exact H).
      rewrite <- app_assoc. reflexivity.
Qed.

Lemma stripQuotes_quoted (s : jstring) :
  stripQuotes (quote :: s ++ [quote]) = s.
Proof.
  unfold stripQuotes. change (N.eqb quote quote) with true. cbv iota.
  rewrite rev_app_distr. cbn [rev app].
  change (N.eqb quote quote) with true. cbv iota.
  apply rev_involutive.
Qed.

(** X8. A quoted argument: after plain words, a last argument written
    between two quotes is one argument, with the white space in it, and
    without the two quotes; an empty pair of quotes is the empty argument. *)
Theorem parse_quoted (w : jstring) (ws : list jstring) (s : jstring) :
  plainWord w = true ->
  forallb plainWord ws = true ->
  ~ In quote s ->
  _parseCommand (join (js " ") (w :: ws) ++ js " " ++ [quote] ++ s ++ [quote])
  = (w, ws ++ [s]).
Proof.
  intros Hw Hws Hs. unfold _parseCommand.
  rewrite matchTokens_words;
    [|cbn [forallb]; rewrite Hw; exact Hws|discriminate].
  cbn [app hd tl].
  assert (Hclosed : existsb (N.eqb quote) (s ++ [quote]) = true).
  { rewrite existsb_app. cbn [existsb]. change (N.eqb quote quote) with true.
    rewrite orb_true_r. reflexivity. }
  cbn [matchTokens]. change (N.eqb quote quote) with true. cbv iota.
  rewrite Hclosed. rewrite (@matchTokens_quoted s Hs).
  rewrite map_app. rewrite (stripQuotes_words _ Hws).
  cbn [map app]. rewrite stripQuotes_quoted. reflexivity.
Qed.

(** ** Lines of plain words *)

Lemma trim_solid (t : jstring) : solid t = true -> trim t = t.
Proof.
  unfold solid, trim, dropWhileEnd. intros H.
  destruct t as [|c t]; [discriminate H|].
  destruct (rev (c :: t)) as [|d r] eqn:Hrev; [discriminate H|].
  apply andb_prop in H. destruct H as [Hc Hd].
  apply negb_true_iff in Hc, Hd.
  cbn [dropWhile]. rewrite Hc. rewrite Hrev. cbn [dropWhile]. rewrite Hd.
  rewrite <- Hrev. apply rev_involutive.
Qed.

Lemma plainWord_units (w : jstring) (c : char) :
  plainWord w = true -> In c w -> isWhiteSpace c = false.
Proof.
  intros Hw Hc. unfold plainWord in Hw. apply andb_prop in Hw.
  destruct Hw as [_ Hw]. rewrite forallb_forall in Hw.
  specialize (Hw c Hc). unfold plainUnit in Hw. apply andb_prop in Hw.
  destruct Hw as [Hw _]. apply negb_true_iff in Hw. exact Hw.
Qed.

Lemma line_ends_solid (ws : list jstring) :
  forall w, plainWord w = true -> forallb plainWord ws = true ->
    exists d r, rev (join (js " ") (w :: ws)) = d :: r
                /\ isWhiteSpace d = false.
Proof.
  induction ws as [|w' ws IH]; intros w Hw Hws.
  - cbn [join]. destruct (rev w) as [|d r] eqn:Hrev.
    + apply (f_equal (@rev _)) in Hrev. rewrite rev_involutive in Hrev.
      subst w. discriminate Hw.
    + exists d, r. split; [reflexivity|].
      apply (@plainWord_units w _ Hw). apply in_rev. rewrite Hrev. left. reflexivity.
  - cbn [forallb] in Hws. apply andb_prop in Hws. destruct Hws as [Hw' Hws].
    destruct (IH w' Hw' Hws) as [d [r [Hrev Hd]]].
    change (join (js " ") (w :: w' :: ws))
      with (w ++ js " " ++ join (js " ") (w' :: ws)).
    rewrite !rev_app_distr, Hrev.
    exists d. eexists. split; [reflexivity | exact Hd].
Qed.

Lemma trim_line (w : jstring) (ws : list jstring) :
  plainWord w = true -> forallb plainWord ws = true ->
  trim (join (js " ") (w :: ws)) = join (js " ") (w :: ws)
  /\ join (js " ") (w :: ws) <> [].
Proof.
  intros Hw Hws.
  destruct (line_ends_solid ws w Hw Hws) as [d [r [Hrev Hd]]].
  assert (Hhead : exists c t, join (js " ") (w :: ws) = c :: t
                              /\ isWhiteSpace c = false).
  { destruct w as [|c w'] eqn:Ew; [discriminate Hw|].
    exists c. destruct ws; cbn [join app]; eexists; (split; [reflexivity|]);
      apply (@plainWord_units _ _ Hw); left; reflexivity. }
  destruct Hhead as [c [t [Hline Hc]]].
  rewrite Hline in *.
  split; [|discriminate].
  apply trim_solid. unfold solid. rewrite Hrev, Hc, Hd. reflexivity.
Qed.

Section Lines.
Context {host : Host}.

(** What [execute] does with a line of plain words that has no shell
    syntax. *)
Lemma execute_line (fs : VirtualFileSystem) (st : session) (w : jstring)
  (ws : list jstring) :
  plainWord w = true -> forallb plainWord ws = true ->
  _containsShellFeatures (join (js " ") (w :: ws)) = false ->
  execute fs st (join (js " ") (w :: ws))
  = let st := {| cwd := cwd st;
                 history := history st ++ [join (js " ") (w :: ws)] |} in
    let unknown :=
      failure (js "Error: unknown command: " ++ w
               ++ js ". Type 'help' for available commands.") in
    match get (commands fs) (canonicalCommand aliases w) with
    | Own run =>
        match run ws st with
        | (Return r, st') =>
            ({| output := resOutput r; error := false;
                navigation := resNavigation r; exit := resExit r |}, st')
        | (Throw e, st') => (failure (js "Error: " ++ message e), st')
        end
    | Inherited _ => (unknown, st)
    | Undefined => (unknown, st)
    end.
Proof.
  intros Hw Hws Hshell.
  destruct (trim_line w ws Hw Hws) as [Htrim Hne].
  unfold execute, executeWith. rewrite Htrim.
  destruct (join (js " ") (w :: ws)) as [|c t] eqn:Hline; [congruence|].
  cbn [length Nat.eqb]. rewrite Hshell.
  rewrite <- Hline. unfold _parseCommand.
  rewrite matchTokens_line by (cbn [forallb]; rewrite Hw; exact Hws).
  cbn [hd tl]. rewrite (stripQuotes_words _ Hws). reflexivity.
Qed.

End Lines.

(** ** Sessions *)

Section Sessions.
Context {host : Host}.

Lemma builtin_is_no_command (fs : VirtualFileSystem) (k : jstring) :
  getOwn (commands fs) (builtinToString k) = None.
Proof.
  unfold builtinToString. destruct (str_eqb k (js "__proto__")); reflexivity.
Qed.

(** X9. A line that is not blank, has no shell syntax, and whose first
    token is neither a command nor an alias is answered by the error of an
    unknown command that quotes the token; the trimmed line is added to the
    history and the working directory stays.  This holds for every
    filesystem, initialized or not, and for the names of the properties of
    [Object.prototype] such as [toString]. *)
Theorem unknown_command (fs : VirtualFileSystem) (st : session)
  (input : jstring) :
  trim input <> [] ->
  _containsShellFeatures (trim input) = false ->
  ~ In (fst (_parseCommand (trim input)))
       (map fst (commands fs) ++ map fst aliases) ->
  execute fs st input
  = (failure (js "Error: unknown command: " ++ fst (_parseCommand (trim input))
              ++ js ". Type 'help' for available commands."),
     {| cwd := cwd st; history := history st ++ [trim input] |}).
Proof.
  intros Hne Hshell Hunknown.
  unfold execute, executeWith.
  destruct (trim input) as [|c t] eqn:Htrim; [congruence|].
  cbn [length Nat.eqb]. rewrite Hshell.
  destruct (_parseCommand (c :: t)) as [command args]. cbn [fst] in *.
  assert (Hcommand : getOwn (commands fs) command = None).
  { apply getOwn_None. intros H. apply Hunknown, in_or_app. left. exact H. }
  assert (Halias : getOwn aliases command = None).
  { apply getOwn_None. intros H. apply Hunknown, in_or_app. right. exact H. }
  assert (Hnone : getOwn (commands fs) (canonicalCommand aliases command) = None).
  { unfold canonicalCommand, get. rewrite Halias.
    destruct (isPrototypeKey command);
      [apply builtin_is_no_command | exact Hcommand]. }
  unfold get at 1. rewrite Hnone.
  destruct (isPrototypeKey (canonicalCommand aliases command)); reflexivity.
Qed.

Lemma execute_history (fs : VirtualFileSystem) (st : session) (input : jstring) :
  history (snd (execute fs st input))
  = history st
    ++ (if Nat.eqb (length (trim input)) 0 then [] else [trim input]).
Proof.
  unfold execute, executeWith.
  destruct (Nat.eqb (length (trim input)) 0);
    [cbn [snd]; rewrite app_nil_r; reflexivity|].
  destruct (_containsShellFeatures (trim input)); [reflexivity|].
  destruct (_parseCommand (trim input)) as [command args].
  destruct (get (commands fs) (canonicalCommand aliases command))
    as [run|k|] eqn:G; [|reflexivity|reflexivity].
  cbv zeta.
  match goal with
  | |- context [run args ?s] =>
      destruct (commands_keepSession fs _ G args s) as [Hh _];
      destruct (run args s) as [[r|e] st']
  end; exact Hh.
Qed.

(** X10. The history after a run of input lines is the history before
    followed by the trimmed lines that are not blank, in the order in which
    they were entered, whatever each line did. *)
Theorem history_log (fs : VirtualFileSystem) (inputs : list jstring) :
  forall st,
    getHistory (executeAll fs st inputs)
    = getHistory st
      ++ filter (fun line => negb (Nat.eqb (length line) 0)) (map trim inputs).
Proof.
  unfold getHistory.
  induction inputs as [|input rest IH]; intros st.
  - cbn. rewrite app_nil_r. reflexivity.
  - cbn [executeAll map filter]. rewrite IH, execute_history.
    destruct (Nat.eqb (length (trim input)) 0); cbn [negb].
    + rewrite app_nil_r. reflexivity.
    + rewrite <- app_assoc. reflexivity.
Qed.

Lemma cmdOpen_cwd (fs : VirtualFileSystem) (args : list jstring) (st : session) :
  cwd (snd (cmdOpen fs args st)) = cwd st
  \/ exists p nm pid children,
       resolvePath fs p (cwd st)
       = Return (Some (Node (Directory nm (cwd (snd (cmdOpen fs args st)))
                               pid children))).
Proof.
  unfold cmdOpen. destruct args as [|p args]; [left; reflexivity|].
  destruct (resolvePath fs p (cwd st)) as [[[[nm fp c u|nm dp pid ch]|k]|]|e]
    eqn:Hres; try (left; reflexivity).
  right. exists p, nm, pid, ch. exact Hres.
Qed.

Lemma commands_cwd (fs : VirtualFileSystem) (k : jstring) (run : handler) :
  get (commands fs) k = Own run ->
  forall args st,
    cwd (snd (run args st)) = cwd st
    \/ exists p nm pid children,
         resolvePath fs p (cwd st)
         = Return (Some (Node (Directory nm (cwd (snd (run args st)))
                                 pid children))).
Proof.
  unfold get. destruct (getOwn (commands fs) k) as [h|] eqn:E;
    [|destruct (isPrototypeKey k); discriminate].
  intros [= ->]. apply getOwn_In in E as [k' Hin].
  simpl in Hin.
  repeat (destruct Hin as [[= _ <-]|Hin];
          [first [ apply cmdOpen_cwd
                 | intros args st; destruct args; left; reflexivity ]|]).
  contradiction.
Qed.

Lemma execute_cwd (fs : VirtualFileSystem) (st : session) (input : jstring) :
  cwd (snd (execute fs st input)) = cwd st
  \/ exists p nm pid children,
       resolvePath fs p (cwd st)
       = Return (Some (Node (Directory nm (cwd (snd (execute fs st input)))
                               pid children))).
Proof.
  unfold execute, executeWith.
  destruct (Nat.eqb (length (trim input)) 0); [left; reflexivity|].
  destruct (_containsShellFeatures (trim input)); [left; reflexivity|].
  destruct (_parseCommand (trim input)) as [command args].
  destruct (get (commands fs) (canonicalCommand aliases command))
    as [run|k|] eqn:G; [|left; reflexivity|left; reflexivity].
  cbv zeta.
  match goal with
  | |- context [run args ?s] =>
      destruct (commands_cwd fs _ G args s) as [Hc | Hc];
      destruct (run args s) as [[r|e] st']
  end; cbn [snd cwd] in *; auto.
Qed.

Lemma execute_validCwd (fs : VirtualFileSystem) (r : node) (st : session)
  (input : jstring) :
  initialized fs = true ->
  root fs = Some r ->
  wellFormed (js "/") r ->
  validCwd fs st -> validCwd fs (snd (execute fs st input)).
Proof.
  intros Hinit Hroot Hwf Hvalid.
  destruct (execute_cwd fs st input) as [Hsame | [p [nm [pid [ch Hres]]]]].
  - unfold validCwd. rewrite Hsame. exact Hvalid.
  - destruct (found_at_own_path fs _ _ Hinit Hroot Hwf Hres) as [_ Hown].
    cbn [path] in Hown. exists nm, pid, ch. exact Hown.
Qed.

(** X11. In an initialized filesystem whose nodes carry the paths at
    which they stand, the working directory stays valid: if it is the path
    of a directory of the tree and resolves to that directory, it still is
    and does after any run of input lines. *)
Theorem cwd_stays_valid (fs : VirtualFileSystem) (r : node)
  (inputs : list jstring) :
  initialized fs = true ->
  root fs = Some r ->
  wellFormed (js "/") r ->
  forall st, validCwd fs st -> validCwd fs (executeAll fs st inputs).
Proof.
  intros Hinit Hroot Hwf.
  induction inputs as [|input rest IH]; intros st Hvalid; [exact Hvalid|].
  cbn [executeAll]. apply IH.
  exact (@execute_validCwd fs r st input Hinit Hroot Hwf Hvalid).
Qed.

End Sessions.

(** ** Moving the working directory *)

Lemma resolved_normal (p cwd : jstring) :
  js "/" ++ join (js "/") (segments (_resolveAbsolutePath p cwd))
  = _resolveAbsolutePath p cwd.
Proof.
  destruct (resolved_form p cwd) as [segs [Hsegs Heq]].
  rewrite Heq at 1. rewrite (segments_absolute Hsegs). symmetry. exact Heq.
Qed.

Lemma segment_relative (k : jstring) :
  segment k -> startsWith k (js "/") = false.
Proof.
  intros [Hne Hslash]. destruct k as [|x k]; [congruence|].
  change (startsWith (x :: k) (js "/")) with (N.eqb 47 x && true).
  destruct (N.eqb_spec 47 x) as [Heq|]; [|reflexivity].
  exfalso. apply Hslash. left. symmetry. exact Heq.
Qed.

Lemma resolve_child (k cwd : jstring) :
  segment k -> k <> js "." -> k <> js ".." ->
  segments (_resolveAbsolutePath k cwd) = segments cwd ++ [k].
Proof.
  intros Hk Hdot Hdots.
  rewrite resolved_segments by (apply segment_relative; exact Hk).
  rewrite (segments_segment Hk). cbn [fold_left]. unfold resolveStep.
  apply str_eqb_neq in Hdot, Hdots. rewrite Hdot, Hdots. reflexivity.
Qed.

Lemma resolve_parent (cwd : jstring) :
  segments (_resolveAbsolutePath (js "..") cwd) = removelast (segments cwd).
Proof. rewrite resolved_segments by reflexivity. reflexivity. Qed.

Lemma includes_skip (a rest : jstring) (f0 : char) (f : jstring) :
  (forall x, In x a -> N.eqb f0 x = false) ->
  includes (a ++ rest) (f0 :: f) = includes rest (f0 :: f).
Proof.
  induction a as [|x a IH]; intros Ha; [reflexivity|].
  cbn [app]. unfold includes. rewrite find_unfold.
  cbn [startsWith]. rewrite (Ha x) by (left; reflexivity). cbn [andb].
  specialize (IH (fun y Hy => Ha y (or_intror Hy))). unfold includes in IH.
  destruct (find (a ++ rest) (f0 :: f)); cbn [option_map]; exact IH.
Qed.

Lemma existsb_includes_skip (a rest : jstring) (features : list jstring) :
  (forall x f, In x a -> In f features ->
               match f with [] => False | f0 :: _ => N.eqb f0 x = false end) ->
  existsb (fun feature => includes (a ++ rest) feature) features
  = existsb (fun feature => includes rest feature) features.
Proof.
  induction features as [|f features IH]; intros H; [reflexivity|].
  cbn [existsb]. rewrite IH by (intros x g Hx Hg; apply H; [exact Hx | right; exact Hg]).
  destruct f as [|f0 f].
  - destruct a as [|x a]; [reflexivity|].
    destruct (H x [] (or_introl eq_refl) (or_introl eq_refl)).
  - rewrite includes_skip; [reflexivity|].
    intros x Hx. exact (H x (f0 :: f) Hx (or_introl eq_refl)).
Qed.

(** No code unit of the word starts a shell feature. *)
Lemma containsShellFeatures_skip (a rest : jstring) :
  forallb (fun x => forallb (fun f => match f with
                                      | [] => false
                                      | f0 :: _ => negb (N.eqb f0 x)
                                      end) shellFeatures) a = true ->
  _containsShellFeatures (a ++ rest) = _containsShellFeatures rest.
Proof.
  intros H. unfold _containsShellFeatures. apply existsb_includes_skip.
  intros x f Hx Hf. rewrite forallb_forall in H. specialize (H x Hx).
  rewrite forallb_forall in H. specialize (H f Hf).
  destruct f as [|f0 f]; [discriminate H|].
  apply negb_true_iff. exact H.
Qed.

Lemma join_cons (sep a : jstring) (ws : list jstring) :
  join sep (a :: ws)
  = a ++ match ws with [] => [] | _ :: _ => sep ++ join sep ws end.
Proof. destruct ws; [symmetry; apply app_nil_r | reflexivity]. Qed.

Section Moves.
Context {host : Host}.

(** X12. [setCwd] on an initialized filesystem whose nodes carry their
    paths: it never touches the history; it returns [true] exactly when the
    path, resolved from the root and not from the working directory,
    reaches a directory; the working directory is then the normalised
    absolute path, which is valid; in every other case it returns [false]
    and the session is as before. *)
Theorem setCwd_moves (fs : VirtualFileSystem) (r : node) (st : session)
  (p : jstring) :
  initialized fs = true ->
  root fs = Some r ->
  wellFormed (js "/") r ->
  history (snd (setCwd fs p st)) = history st
  /\ (fst (setCwd fs p st) = Return true
      <-> exists nm pth pid children,
            resolvePath fs p (js "/")
            = Return (Some (Node (Directory nm pth pid children))))
  /\ (fst (setCwd fs p st) = Return true ->
      cwd (snd (setCwd fs p st)) = _resolveAbsolutePath p (js "/")
      /\ validCwd fs (snd (setCwd fs p st)))
  /\ (fst (setCwd fs p st) <> Return true ->
      fst (setCwd fs p st) = Return false /\ snd (setCwd fs p st) = st).
Proof.
  intros Hinit Hroot Hwf. unfold setCwd.
  pose proof (resolvePath_walk fs Hinit Hroot p (js "/")) as Hwalk.
  destruct (resolvePath fs p (js "/")) as [[[[nm fp c u|nm dp pid ch]|k]|]|e]
    eqn:Hres; try discriminate Hwalk; cbn [fst snd history cwd].
  1, 3, 4: (split; [reflexivity|]; split;
            [split; [discriminate | intros [? [? [? [? H]]]]; discriminate H]|];
            split; [discriminate | intros _; split; reflexivity]).
  split; [reflexivity|]. split.
  { split; [intros _; exists nm, dp, pid, ch; reflexivity | reflexivity]. }
  split; [|intros H; exfalso; apply H; reflexivity].
  intros _.
  destruct (found_at_own_path fs _ _ Hinit Hroot Hwf Hres) as [Hpath Hown].
  cbn [path] in Hpath, Hown. split.
  - rewrite Hpath. apply resolved_normal.
  - exists nm, pid, ch. exact Hown.
Qed.

Lemma execute_cd_directory (fs : VirtualFileSystem) (st : session)
  (k nm dp : jstring) (pid : option Z) (ch : object node) :
  plainWord k = true ->
  _containsShellFeatures (join (js " ") [js "cd"; k]) = false ->
  resolvePath fs k (cwd st) = Return (Some (Node (Directory nm dp pid ch))) ->
  execute fs st (join (js " ") [js "cd"; k])
  = ({| output := js "Changed directory to " ++ dp; error := false;
        navigation := None; exit := false |},
     {| cwd := dp; history := history st ++ [join (js " ") [js "cd"; k]] |}).
Proof.
  intros Hk Hshell Hres.
  rewrite execute_line;
    [|reflexivity|cbn [forallb]; rewrite Hk; reflexivity|exact Hshell].
  cbv zeta.
  change (get (commands fs) (canonicalCommand aliases (js "cd")))
    with (Own (cmdOpen fs)).
  cbv iota. unfold cmdOpen. cbn [cwd]. rewrite Hres. reflexivity.
Qed.

(** X13. Going into a child directory and back.  From a valid working
    directory, and for a name [k] of one segment that resolves to a
    directory, the line [cd k] moves to the path of the working directory
    extended by [k], and the line [cd ..] after it moves back to the
    working directory from which it started. *)
Theorem cd_round_trip (fs : VirtualFileSystem) (r : node) (st : session)
  (k nm dp : jstring) (pid : option Z) (children : object node) :
  initialized fs = true ->
  root fs = Some r ->
  wellFormed (js "/") r ->
  validCwd fs st ->
  plainWord k = true ->
  ~ In (ch "/") k -> k <> js "." -> k <> js ".." ->
  _containsShellFeatures (join (js " ") [js "cd"; k]) = false ->
  resolvePath fs k (cwd st) = Return (Some (Node (Directory nm dp pid children))) ->
  cwd (snd (execute fs st (join (js " ") [js "cd"; k])))
  = js "/" ++ join (js "/") (segments (cwd st) ++ [k])
  /\ cwd (executeAll fs st [join (js " ") [js "cd"; k]; js "cd .."]) = cwd st.
Proof.
  intros Hinit Hroot Hwf [nm0 [pid0 [ch0 Hvalid]]] Hk Hslash Hdot Hdots Hshell Hres.
  assert (Hseg : segment k).
  { split; [|exact Hslash]. intros ->. discriminate Hk. }
  destruct (found_at_own_path fs _ _ Hinit Hroot Hwf Hres) as [Hdp _].
  cbn [path] in Hdp. rewrite (resolve_child (cwd st) Hseg Hdot Hdots) in Hdp.
  destruct (found_at_own_path fs _ _ Hinit Hroot Hwf Hvalid) as [Hcwd _].
  cbn [path] in Hcwd.
  assert (Hsegs : segments (cwd st)
                  = segments (_resolveAbsolutePath (cwd st) (js "/"))).
  { rewrite Hcwd at 1. apply segments_absolute. apply Forall_segments. }
  rewrite (@execute_cd_directory fs st k nm dp pid children Hk Hshell Hres).
  split; [exact Hdp|].
  cbn [executeAll]. rewrite (@execute_cd_directory fs st k nm dp pid children Hk Hshell Hres). cbn [snd].
  change (js "cd ..") with (join (js " ") [js "cd"; js ".."]).
  erewrite execute_cd_directory; [reflexivity | reflexivity | reflexivity |].
  cbn [cwd].
  rewrite (resolvePath_walk fs Hinit Hroot). rewrite resolve_parent.
  rewrite Hdp. rewrite segments_absolute.
  - rewrite removelast_last.
    rewrite (resolvePath_walk fs Hinit Hroot) in Hvalid.
    rewrite Hsegs. exact Hvalid.
  - apply Forall_app. split; [apply Forall_segments|].
    constructor; [exact Hseg | constructor].
Qed.

Lemma commands_history_blind (fs : VirtualFileSystem) (k : jstring)
  (run : handler) :
  get (commands fs) k = Own run ->
  forall args c h1 h2,
    fst (run args {| cwd := c; history := h1 |})
    = fst (run args {| cwd := c; history := h2 |})
    /\ cwd (snd (run args {| cwd := c; history := h1 |}))
       = cwd (snd (run args {| cwd := c; history := h2 |})).
Proof.
  unfold get. destruct (getOwn (commands fs) k) as [h|] eqn:E;
    [|destruct (isPrototypeKey k); discriminate].
  intros [= ->]. apply getOwn_In in E as [k' Hin].
  simpl in Hin.
  repeat (destruct Hin as [[= _ <-]|Hin];
          [first [ intros args c h1 h2; destruct args; split; reflexivity
                 | intros args c h1 h2; unfold cmdOpen;
                   destruct args as [|p args]; [split; reflexivity|];
                   cbn [cwd];
                   destruct (resolvePath fs p c)
                     as [[[[nm fp ct u|nm dp pid ch]|b]|]|e];
                   split; reflexivity ]|]).
  contradiction.
Qed.

Lemma alias_facts (a c : jstring) :
  In (a, c) aliases ->
  plainWord a = true /\ plainWord c = true
  /\ forallb (fun x => forallb (fun f => match f with
                                         | [] => false
                                         | f0 :: _ => negb (N.eqb f0 x)
                                         end) shellFeatures) a = true
  /\ forallb (fun x => forallb (fun f => match f with
                                         | [] => false
                                         | f0 :: _ => negb (N.eqb f0 x)
                                         end) shellFeatures) c = true
  /\ canonicalCommand aliases a = c
  /\ canonicalCommand aliases c = c
  /\ forall fs, exists run, get (commands fs) c = Own run.
Proof.
  intros Hin. simpl in Hin.
  repeat (destruct Hin as [[= <- <-]|Hin];
          [repeat split; try reflexivity; intros fs; eexists; reflexivity|]).
  contradiction.
Qed.

(** X14. An alias behaves as the command it stands for: for every entry
    of the alias table and all plain arguments without shell syntax, the
    line with the alias and the line with the command give the same result
    and leave the same working directory; the sessions differ only in the
    line that the history records. *)
Theorem alias_equivalence (fs : VirtualFileSystem) (st : session)
  (a c : jstring) (ws : list jstring) :
  In (a, c) aliases ->
  forallb plainWord ws = true ->
  _containsShellFeatures (join (js " ") (a :: ws)) = false ->
  fst (execute fs st (join (js " ") (a :: ws)))
  = fst (execute fs st (join (js " ") (c :: ws)))
  /\ cwd (snd (execute fs st (join (js " ") (a :: ws))))
     = cwd (snd (execute fs st (join (js " ") (c :: ws)))).
Proof.
  intros Hin Hws Hshell.
  destruct (@alias_facts a c Hin)
    as [Ha [Hc [Hfa [Hfc [Hcana [Hcanc Hrun]]]]]].
  assert (Hshell' : _containsShellFeatures (join (js " ") (c :: ws)) = false).
  { rewrite join_cons, (@containsShellFeatures_skip c _ Hfc).
    rewrite join_cons, (@containsShellFeatures_skip a _ Hfa) in Hshell.
    exact Hshell. }
  rewrite (@execute_line _ fs st a ws Ha Hws Hshell).
  rewrite (@execute_line _ fs st c ws Hc Hws Hshell').
  cbv zeta. rewrite Hcana, Hcanc.
  destruct (Hrun fs) as [run Hget]. rewrite Hget.
  destruct (@commands_history_blind fs _ _ Hget ws (cwd st)
              (history st ++ [join (js " ") (a :: ws)])
              (history st ++ [join (js " ") (c :: ws)])) as [Hfst Hcwd].
  destruct (run ws {| cwd := cwd st;
                      history := history st ++ [join (js " ") (a :: ws)] |})
    as [[ra|ea] sta];
  destruct (run ws {| cwd := cwd st;
                      history := history st ++ [join (js " ") (c :: ws)] |})
    as [[rc|ec] stc];
  cbn [fst snd] in *; try discriminate Hfst;
    injection Hfst as <-; split; (reflexivity || exact Hcwd).
Qed.

End Moves.

(** ** Completion *)

Lemma dropWhile_head (p : char -> bool) (s : jstring) (c : char) (r : jstring) :
  dropWhile p s = c :: r -> p c = false.
Proof.
  induction s as [|x s IH]; cbn [dropWhile]; [discriminate|].
  destruct (p x) eqn:Hx; [exact IH|]. intros [= <- _]. exact Hx.
Qed.

Lemma trim_no_trailing_space (s : jstring) : endsWith (trim s) (js " ") = false.
Proof.
  unfold endsWith, trim, dropWhileEnd. rewrite rev_involutive.
  destruct (dropWhile isWhiteSpace (rev (dropWhile isWhiteSpace s)))
    as [|c r] eqn:Hd; [reflexivity|].
  apply dropWhile_head in Hd.
  change (startsWith (c :: r) (rev (js " "))) with (N.eqb 32 c && true).
  destruct (N.eqb_spec 32 c) as [<-|]; [discriminate Hd | reflexivity].
Qed.

Lemma includes_unit (s : jstring) (c : char) :
  includes s [c] = true <-> In c s.
Proof.
  rewrite includes_occurs. split.
  - intros [a [b ->]]. apply in_or_app. right. left. reflexivity.
  - intros H. apply in_split in H. destruct H as [a [b ->]].
    exists a, b. reflexivity.
Qed.

Lemma lastIndexOf_absent (s : jstring) (c : char) :
  ~ In c s -> lastIndexOf s c = (-1)%Z.
Proof.
  induction s as [|x s IH]; intros H; [reflexivity|].
  cbn [lastIndexOf]. rewrite IH by (intros Hc; apply H; right; exact Hc).
  cbn. destruct (N.eqb_spec x c) as [->|]; [|reflexivity].
  exfalso. apply H. left. reflexivity.
Qed.

Lemma lastIndexOf_last (a b : jstring) (c : char) :
  ~ In c b -> lastIndexOf (a ++ c :: b) c = Z.of_nat (length a).
Proof.
  intros Hb. induction a as [|x a IH].
  - cbn [app lastIndexOf length]. rewrite (@lastIndexOf_absent b c Hb).
    cbn. rewrite N.eqb_refl. reflexivity.
  - cbn [app lastIndexOf length]. rewrite IH.
    destruct (Z.leb_spec 0 (Z.of_nat (length a))); lia.
Qed.

Lemma last_occurrence (s : jstring) (c : char) :
  In c s -> exists a b, s = a ++ c :: b /\ ~ In c b.
Proof.
  induction s as [|x s IH]; intros H; [destruct H|].
  destruct (in_dec N.eq_dec c s) as [Hin | Hout].
  - destruct (IH Hin) as [a [b [-> Hb]]]. exists (x :: a), b. split; [reflexivity | exact Hb].
  - destruct H as [-> | H]; [|contradiction].
    exists [], s. split; [reflexivity | exact Hout].
Qed.

Lemma substring_prefix (a b : jstring) :
  substring (a ++ b) 0 (Z.of_nat (length a)) = a.
Proof.
  unfold substring. rewrite length_app.
  replace (Z.to_nat (Z.min (Z.min (Z.max 0 0) (Z.of_nat (length a + length b)))
                       (Z.min (Z.max (Z.of_nat (length a)) 0)
                          (Z.of_nat (length a + length b))))) with 0 by lia.
  replace (Z.to_nat (Z.max (Z.min (Z.max 0 0) (Z.of_nat (length a + length b)))
                       (Z.min (Z.max (Z.of_nat (length a)) 0)
                          (Z.of_nat (length a + length b))))) with (length a) by lia.
  cbn [skipn]. rewrite Nat.sub_0_r.
  rewrite firstn_app, firstn_all, Nat.sub_diag. cbn [firstn]. apply app_nil_r.
Qed.

Lemma substring_suffix (a b : jstring) :
  substring (a ++ b) (Z.of_nat (length a)) (Z.of_nat (length (a ++ b))) = b.
Proof.
  unfold substring. rewrite length_app.
  replace (Z.to_nat (Z.min (Z.min (Z.max (Z.of_nat (length a)) 0)
                              (Z.of_nat (length a + length b)))
                       (Z.min (Z.max (Z.of_nat (length a + length b)) 0)
                          (Z.of_nat (length a + length b))))) with (length a) by lia.
  replace (Z.to_nat (Z.max (Z.min (Z.max (Z.of_nat (length a)) 0)
                              (Z.of_nat (length a + length b)))
                       (Z.min (Z.max (Z.of_nat (length a + length b)) 0)
                          (Z.of_nat (length a + length b)))))
    with (length a + length b) by lia.
  rewrite skipn_app, skipn_all, Nat.sub_diag. cbn [skipn app].
  replace (length a + length b - length a) with (length b) by lia.
  apply firstn_all.
Qed.

Lemma last_slash_splits (prefix : jstring) :
  In (ch "/") prefix ->
  exists dirPart searchPrefix,
    prefix = dirPart ++ searchPrefix
    /\ ~ In (ch "/") searchPrefix
    /\ substring prefix 0 (lastIndexOf prefix (ch "/") + 1) = dirPart
    /\ substring prefix (lastIndexOf prefix (ch "/") + 1)
         (Z.of_nat (length prefix)) = searchPrefix.
Proof.
  intros Hin. destruct (@last_occurrence prefix (ch "/") Hin) as [a [b [-> Hb]]].
  exists (a ++ [ch "/"]), b.
  rewrite (@lastIndexOf_last a b (ch "/") Hb).
  replace (Z.of_nat (length a) + 1)%Z with (Z.of_nat (length (a ++ [ch "/"])))
    by (rewrite length_app; cbn [length]; lia).
  replace (a ++ ch "/" :: b) with ((a ++ [ch "/"]) ++ b)
    by (rewrite <- app_assoc; reflexivity).
  repeat split.
  - exact Hb.
  - apply substring_prefix.
  - apply substring_suffix.
Qed.

Lemma sorted_units (l : list jstring) :
  StronglySorted (fun a b => (compareUnits a b <= 0)%Z) (sort compareUnits l).
Proof. exact (sort_sorted compareUnits_consistent l). Qed.

Lemma In_sort_units (l : list jstring) (s : jstring) :
  In s (sort compareUnits l) <-> In s l.
Proof.
  split; apply Permutation_in;
    [|symmetry]; apply sort_permutation.
Qed.

Section Suggestions.
Context {host : Host}.

(** X15. Completion of the command.  When the trimmed input has no
    argument, the suggestions are exactly the commands and aliases that
    start with its one token, sorted by code units.  The input may end with
    spaces: they are trimmed before the test for a trailing space, so [cd]
    followed by a space still completes the command name and not a path. *)
Theorem autocomplete_commands (fs : VirtualFileSystem) (st : session)
  (partial : jstring) :
  trim partial <> [] ->
  snd (_parseCommand (trim partial)) = [] ->
  (forall s,
     In s (getAutocompleteSuggestions fs st partial)
     <-> In s (map fst (commands fs) ++ map fst aliases)
         /\ startsWith s (fst (_parseCommand (trim partial))) = true)
  /\ StronglySorted (fun a b => (compareUnits a b <= 0)%Z)
       (getAutocompleteSuggestions fs st partial).
Proof.
  intros Hne Hargs. unfold getAutocompleteSuggestions.
  pose proof (trim_no_trailing_space partial) as Hend.
  destruct (trim partial) as [|c t] eqn:Htrim; [congruence|].
  cbn [length Nat.eqb].
  destruct (_parseCommand (c :: t)) as [command args].
  cbn [fst snd] in *. subst args. rewrite Hend. cbn [length Nat.eqb negb andb].
  split; [|apply sorted_units].
  intros s. rewrite In_sort_units, filter_In. reflexivity.
Qed.

Lemma suggestions_of_entries (entries : list entry) (searchPrefix : jstring) :
  let suggestions :=
    sort compareUnits
      (map (fun e => entryName e
                     ++ match entryType e with
                        | directory => js "/"
                        | file => []
                        end)
         (filter (fun e => startsWith (entryName e) searchPrefix) entries)) in
  StronglySorted (fun a b => (compareUnits a b <= 0)%Z) suggestions
  /\ forall s,
       In s suggestions
       <-> exists e, In e entries
                     /\ startsWith (entryName e) searchPrefix = true
                     /\ s = entryName e
                            ++ match entryType e with
                               | directory => js "/"
                               | file => []
                               end.
Proof.
  cbv zeta. split; [apply sorted_units|].
  intros s. rewrite In_sort_units, in_map_iff. split.
  - intros [e [<- He]]. apply filter_In in He. destruct He as [He Hs].
    exists e. auto.
  - intros [e [He [Hs ->]]]. exists e. split; [reflexivity|].
    apply filter_In. auto.
Qed.

(** X16. Completion of a path.  The prefix is cut after its last slash
    into a directory part and a search prefix (all of it is the search prefix
    when it has no slash).  The suggestions are sorted by code units, and
    they are exactly the names, with a slash after a directory, of the
    entries whose name starts with the search prefix in the listing of the
    working directory or, when there is a directory part, of the directory
    that it resolves to.  A suggestion does not repeat the directory
    part. *)
Theorem path_suggestions (fs : VirtualFileSystem) (st : session)
  (prefix : jstring) :
  exists dirPart searchPrefix,
    prefix = dirPart ++ searchPrefix
    /\ ~ In (ch "/") searchPrefix
    /\ (dirPart = [] \/ endsWith dirPart (js "/") = true)
    /\ StronglySorted (fun a b => (compareUnits a b <= 0)%Z)
         (_getPathSuggestions fs st prefix)
    /\ (forall s,
          In s (_getPathSuggestions fs st prefix) ->
          exists dir entries e,
            ((dirPart = [] /\ dir = cwd st)
             \/ (dirPart <> []
                 /\ exists nm pid children,
                      resolvePath fs dirPart (cwd st)
                      = Return (Some (Node (Directory nm dir pid children)))))
            /\ listDirectory fs dir (cwd st) = Return entries
            /\ In e entries
            /\ startsWith (entryName e) searchPrefix = true
            /\ s = entryName e
                   ++ match entryType e with
                      | directory => js "/"
                      | file => []
                      end)
    /\ (forall dir entries e,
          ((dirPart = [] /\ dir = cwd st)
           \/ (dirPart <> []
               /\ exists nm pid children,
                    resolvePath fs dirPart (cwd st)
                    = Return (Some (Node (Directory nm dir pid children))))) ->
          listDirectory fs dir (cwd st) = Return entries ->
          In e entries ->
          startsWith (entryName e) searchPrefix = true ->
          In (entryName e
              ++ match entryType e with
                 | directory => js "/"
                 | file => []
                 end) (_getPathSuggestions fs st prefix)).
Proof.
  unfold _getPathSuggestions.
  destruct (includes prefix (js "/")) eqn:Hslash.
  - apply (includes_unit prefix (ch "/")) in Hslash.
    destruct (@last_slash_splits prefix Hslash)
      as [dirPart [searchPrefix [Hsplit [Hsearch [Hdir Hrest]]]]].
    exists dirPart, searchPrefix.
    assert (HdirPart : dirPart <> [] /\ endsWith dirPart (js "/") = true).
    { destruct (@last_occurrence prefix (ch "/") Hslash) as [a [b [Hab Hb]]].
      rewrite Hab, (@lastIndexOf_last a b (ch "/") Hb) in Hdir.
      replace (Z.of_nat (length a) + 1)%Z
        with (Z.of_nat (length (a ++ [ch "/"]))) in Hdir
        by (rewrite length_app; cbn [length]; lia).
      replace (a ++ ch "/" :: b) with ((a ++ [ch "/"]) ++ b) in Hdir
        by (rewrite <- app_assoc; reflexivity).
      rewrite substring_prefix in Hdir. subst dirPart.
      split; [destruct a; discriminate|].
      unfold endsWith. rewrite rev_app_distr. reflexivity. }
    destruct HdirPart as [Hne Hends].
    cbv zeta. rewrite Hdir, Hrest.
    split; [exact Hsplit|]. split; [exact Hsearch|].
    split; [right; exact Hends|].
    destruct (resolvePath fs dirPart (cwd st))
      as [[[[nm fp c u|nm dp pid ch]|k]|]|e] eqn:Hres; cbn [bind].
    1, 3, 4, 5:
      (split; [constructor|]; split; [intros s []|];
       intros dir entries e0 [[H _] | [_ [nm' [pid' [ch' H]]]]];
       [contradiction | discriminate H]).
    destruct (listDirectory fs dp (cwd st)) as [entries|e] eqn:Hlist; cbn [bind].
    + destruct (suggestions_of_entries entries searchPrefix) as [Hsorted Hin].
      cbv zeta in Hsorted, Hin.
      split; [exact Hsorted|]. split.
      * intros s Hs. apply Hin in Hs. destruct Hs as [e [He [Hst Heq]]].
        exists dp, entries, e. split; [|auto].
        right. split; [exact Hne|]. exists nm, pid, ch. reflexivity.
      * intros dir entries' e [[H _] | [_ [nm' [pid' [ch' H]]]]] Hlist' He Hst;
          [contradiction|].
        injection H as _ <- _ _. rewrite Hlist in Hlist'.
        injection Hlist' as <-. apply Hin. exists e. auto.
    + split; [constructor|]. split; [intros s []|].
      intros dir entries' e0 [[H _] | [_ [nm' [pid' [ch' H]]]]] Hlist' He Hst;
        [contradiction|].
      injection H as _ <- _ _. rewrite Hlist in Hlist'. discriminate Hlist'.
  - assert (Hnone : ~ In (ch "/") prefix).
    { intros H. apply (includes_unit prefix (ch "/")) in H.
      change [ch "/"] with (js "/") in H. congruence. }
    exists [], prefix.
    split; [reflexivity|]. split; [exact Hnone|]. split; [left; reflexivity|].
    cbn [bind].
    destruct (listDirectory fs (cwd st) (cwd st)) as [entries|e] eqn:Hlist;
      cbn [bind].
    + destruct (suggestions_of_entries entries prefix) as [Hsorted Hin].
      cbv zeta in Hsorted, Hin.
      split; [exact Hsorted|]. split.
      * intros s Hs. apply Hin in Hs. destruct Hs as [e [He [Hst Heq]]].
        exists (cwd st), entries, e. split; [|auto].
        left. split; reflexivity.
      * intros dir entries' e [[_ ->] | [H _]] Hlist' He Hst;
          [|congruence].
        rewrite Hlist in Hlist'. injection Hlist' as <-.
        apply Hin. exists e. auto.
    + split; [constructor|]. split; [intros s []|].
      intros dir entries' e0 [[_ ->] | [H _]] Hlist' He Hst; [|congruence].
      rewrite Hlist in Hlist'. discriminate Hlist'.
Qed.

End Suggestions.

(** ** Slugs *)

Lemma doubled_occurs (a b : jstring) :
  doubled (a ++ js "--" ++ b) = true.
Proof.
  induction a as [|x a IH]; [reflexivity|].
  cbn [app]. remember (a ++ js "--" ++ b) as l eqn:E.
  destruct l as [|y r]; [destruct a; discriminate E|].
  change (doubled (x :: y :: r))
    with ((isHyphen x && isHyphen y) || doubled (y :: r)).
  rewrite IH. apply orb_true_r.
Qed.

Lemma doubled_app (a s b : jstring) :
  doubled s = true -> doubled (a ++ s ++ b) = true.
Proof.
  intros H.
  assert (Hocc : exists u v, s = u ++ js "--" ++ v).
  { induction s as [|x s IH]; [discriminate H|].
    destruct s as [|y s']; [discriminate H|].
    change (doubled (x :: y :: s'))
      with ((isHyphen x && isHyphen y) || doubled (y :: s')) in H.
    apply orb_prop in H. destruct H as [H | H].
    - apply andb_prop in H. destruct H as [Hx Hy].
      apply N.eqb_eq in Hx, Hy. subst x y. exists [], s'. reflexivity.
    - destruct (IH H) as [u [v ->]]. exists (x :: u), v. reflexivity. }
  destruct Hocc as [u [v ->]].
  replace (a ++ (u ++ js "--" ++ v) ++ b) with ((a ++ u) ++ js "--" ++ (v ++ b))
    by (rewrite <- !app_assoc; reflexivity).
  apply doubled_occurs.
Qed.

Lemma dropWhile_suffix (p : char -> bool) (s : jstring) :
  exists a, s = a ++ dropWhile p s.
Proof.
  induction s as [|x s [a IH]]; [exists []; reflexivity|].
  cbn [dropWhile]. destruct (p x).
  - exists (x :: a). cbn [app]. rewrite <- IH. reflexivity.
  - exists []. reflexivity.
Qed.

Lemma dropWhileEnd_prefix (p : char -> bool) (s : jstring) :
  exists b, s = dropWhileEnd p s ++ b.
Proof.
  unfold dropWhileEnd. destruct (dropWhile_suffix p (rev s)) as [a Ha].
  exists (rev a). rewrite <- rev_app_distr, <- Ha. symmetry. apply rev_involutive.
Qed.

Section Slugs.
Context {host : Host}.

Lemma hyphenate_single (s : jstring) :
  forall inRun,
    doubled (hyphenate s inRun) = false
    /\ (inRun = true -> startsWith (hyphenate s inRun) (js "-") = false).
Proof.
  induction s as [|x s IH]; intros inRun; [split; reflexivity|].
  cbn [hyphenate].
  destruct (isLowerAlnum x) eqn:Hx.
  - destruct (IH false) as [Hd _]. split.
    + destruct (hyphenate s false) as [|y r] eqn:E; [reflexivity|].
      change (doubled (x :: y :: r))
        with ((isHyphen x && isHyphen y) || doubled (y :: r)).
      rewrite Hd.
      replace (isHyphen x) with false; [reflexivity|].
      unfold isHyphen. destruct (N.eqb_spec x (ch "-")) as [->|]; [discriminate Hx | reflexivity].
    + intros _. change (startsWith (x :: hyphenate s false) (js "-"))
        with (N.eqb 45 x && true).
      destruct (N.eqb_spec 45 x) as [<-|]; [discriminate Hx | reflexivity].
  - destruct inRun.
    + apply IH.
    + destruct (IH true) as [Hd Hs]. split; [|discriminate].
      specialize (Hs eq_refl).
      destruct (hyphenate s true) as [|y r] eqn:E; [reflexivity|].
      change (doubled (ch "-" :: y :: r))
        with ((isHyphen (ch "-") && isHyphen y) || doubled (y :: r)).
      rewrite Hd.
      change (startsWith (y :: r) (js "-")) with (N.eqb 45 y && true) in Hs.
      unfold isHyphen at 2. rewrite N.eqb_sym. 
      change (ch "-") with 45%N.
      destruct (N.eqb 45 y); [discriminate Hs|].
      rewrite andb_false_r. reflexivity.
Qed.

Lemma slug_units (t : jstring) :
  Forall (fun c => isLowerAlnum c = true \/ c = ch "-") (_generateSlug t).
Proof.
  apply Forall_forall. intros c Hc. unfold _generateSlug, stripHyphens in Hc.
  apply In_dropWhileEnd, In_dropWhile, hyphenate_units in Hc. exact Hc.
Qed.

Lemma slug_segment (t : jstring) :
  _generateSlug t <> [] -> segment (_generateSlug t).
Proof.
  intros Hne. split; [exact Hne|].
  intros Hslash. pose proof (slug_units t) as Hunits.
  rewrite Forall_forall in Hunits.
  destruct (Hunits _ Hslash) as [H | H]; discriminate H.
Qed.

(** X17. A slug consists of lower-case letters, digits and hyphens; it
    neither starts nor ends with a hyphen, and it has no two hyphens in a
    row.  So a slug that is not empty is a path segment. *)
Theorem slug_shape (t : jstring) :
  Forall (fun c => isLowerAlnum c = true \/ c = ch "-") (_generateSlug t)
  /\ startsWith (_generateSlug t) (js "-") = false
  /\ endsWith (_generateSlug t) (js "-") = false
  /\ doubled (_generateSlug t) = false
  /\ (_generateSlug t <> [] -> segment (_generateSlug t)).
Proof.
  split; [apply slug_units|].
  assert (Hrest : startsWith (_generateSlug t) (js "-") = false
                  /\ endsWith (_generateSlug t) (js "-") = false
                  /\ doubled (_generateSlug t) = false).
  { unfold _generateSlug, stripHyphens.
    set (h := hyphenate (trim (hd [] (split emDash (toLowerCase t)))) false).
    destruct (dropWhile_suffix isHyphen h) as [a Ha].
    destruct (dropWhileEnd_prefix isHyphen (dropWhile isHyphen h)) as [b Hb].
    set (d := dropWhile isHyphen h) in *.
    set (s := dropWhileEnd isHyphen d) in *.
    split; [|split].
    - destruct s as [|c r] eqn:Es; [reflexivity|].
      assert (Hc : isHyphen c = false).
      { apply (@dropWhile_head isHyphen h c (r ++ b)). fold d. rewrite Hb.
        reflexivity. }
      change (startsWith (c :: r) (js "-")) with (N.eqb 45 c && true).
      unfold isHyphen in Hc. rewrite N.eqb_sym in Hc.
      change (ch "-") with 45%N in Hc. rewrite Hc. reflexivity.
    - unfold endsWith, s, dropWhileEnd. rewrite rev_involutive.
      destruct (dropWhile isHyphen (rev d)) as [|c r] eqn:E; [reflexivity|].
      apply dropWhile_head in E.
      change (startsWith (c :: r) (rev (js "-"))) with (N.eqb 45 c && true).
      unfold isHyphen in E. rewrite N.eqb_sym in E.
      change (ch "-") with 45%N in E. rewrite E. reflexivity.
    - destruct (doubled s) eqn:Hd; [|reflexivity].
      pose proof (@doubled_app a s b Hd) as Hh.
      rewrite <- Hb, <- Ha in Hh.
      destruct (hyphenate_single (trim (hd [] (split emDash (toLowerCase t)))) false)
        as [Hnone _].
      fold h in Hnone. congruence. }
  destruct Hrest as [Hstart [Hend Hdouble]].
  split; [exact Hstart|]. split; [exact Hend|]. split; [exact Hdouble|].
  apply slug_segment.
Qed.

End Slugs.

(** ** Lookups *)

Lemma getOwn_set_same {A} (o : object A) (k : jstring) (v : A) :
  getOwn (set o k v) k = Some v.
Proof.
  induction o as [|[k' v'] o IH]; cbn [set getOwn].
  - rewrite str_eqb_refl. reflexivity.
  - destruct (str_eqb k' k) eqn:E.
    + cbn [getOwn]. rewrite E. reflexivity.
    + destruct (arrayIndex k) as [i|], (arrayIndex k') as [i'|];
        try destruct (i <? i')%Z; cbn [getOwn];
        rewrite ?str_eqb_refl, ?E; auto.
Qed.

Lemma getOwn_set_other {A} (o : object A) (k k' : jstring) (v : A) :
  k' <> k -> getOwn (set o k v) k' = getOwn o k'.
Proof.
  intros Hne. assert (Hk : str_eqb k k' = false)
    by (apply str_eqb_neq; congruence).
  induction o as [|[k0 v0] o IH]; cbn [set getOwn].
  - rewrite Hk. reflexivity.
  - destruct (str_eqb k0 k) eqn:E.
    + apply str_eqb_eq in E. subst k0. cbn [getOwn]. rewrite Hk. reflexivity.
    + destruct (arrayIndex k) as [i|], (arrayIndex k0) as [i'|];
        try destruct (i <? i')%Z; cbn [getOwn];
        rewrite ?Hk, ?IH; reflexivity.
Qed.

Lemma findProject_found (projects : object node) (i : Z) (p : jstring) :
  findProject projects (Some i) = Some p
  <-> exists before k n after,
        projects = before ++ (k, n) :: after
        /\ projectId n = Some i /\ path n = p
        /\ Forall (fun kv => projectId (snd kv) <> Some i) before.
Proof.
  induction projects as [|[k n] rest IH].
  - split; [discriminate|]. intros [[|? ?] [? [? [? [H _]]]]]; discriminate H.
  - assert (Hcase : (projectId n = Some i
                     /\ findProject ((k, n) :: rest) (Some i) = Some (path n))
                    \/ (projectId n <> Some i
                        /\ findProject ((k, n) :: rest) (Some i)
                           = findProject rest (Some i))).
    { destruct n as [nm pth c u | nm pth [j|] ch]; cbn [findProject projectId path].
      - right. split; [discriminate | reflexivity].
      - destruct (Z.eqb_spec j i) as [->|Hne].
        + left. split; reflexivity.
        + right. split; [congruence | reflexivity].
      - right. split; [discriminate | reflexivity]. }
    destruct Hcase as [[Hid Hfind] | [Hid Hfind]]; rewrite Hfind.
    + split.
      * intros [= <-]. exists [], k, n, rest. repeat split; auto.
      * intros [[|kv before] [k' [n' [after [Heq [Hid' [Hp Hbefore]]]]]]].
        -- injection Heq as <- <- _. rewrite Hp. reflexivity.
        -- injection Heq as <- _. inversion Hbefore; subst.
           cbn [snd] in *. contradiction.
    + rewrite IH. split.
      * intros [before [k' [n' [after [-> [Hid' [Hp Hbefore]]]]]]].
        exists ((k, n) :: before), k', n', after. repeat split; auto.
      * intros [[|kv before] [k' [n' [after [Heq [Hid' [Hp Hbefore]]]]]]].
        -- injection Heq as <- <- _. contradiction.
        -- injection Heq as _ ->. inversion Hbefore; subst.
           exists before, k', n', after. repeat split; auto.
Qed.

Lemma findProject_NaN (projects : object node) :
  findProject projects None = None.
Proof.
  induction projects as [|[k n] rest IH]; [reflexivity|].
  cbn [findProject]. destruct n as [? ? ? ?|? ? [?|] ?]; exact IH.
Qed.

Section Lookups.
Context {host : Host}.

Lemma resolvePath_errors (fs : VirtualFileSystem) (p cwd : jstring) (e : Error) :
  resolvePath fs p cwd = Throw e ->
  e = FilesystemNotInitialized \/ exists m, e = TypeError m.
Proof.
  unfold resolvePath. destruct (negb (initialized fs)).
  - intros [= <-]. left. reflexivity.
  - destruct (segments (_resolveAbsolutePath p cwd)), (root fs);
      intros [= <-]. right. eexists. reflexivity.
Qed.

(** X18. No path is both read and listed: where [readFile] returns a
    content [listDirectory] throws that the path is not a directory, where
    [listDirectory] returns entries [readFile] throws that the path is not
    a file, and the two throw that a path is not found in the same cases,
    which are those in which the path as typed resolves to nothing. *)
Theorem read_or_list (fs : VirtualFileSystem) (p cwd : jstring) :
  (forall content, readFile fs p cwd = Return content ->
     listDirectory fs p cwd = Throw (NotADirectory p))
  /\ (forall entries, listDirectory fs p cwd = Return entries ->
        readFile fs p cwd = Throw (NotAFile p))
  /\ (forall q, readFile fs p cwd = Throw (PathNotFound q)
                <-> listDirectory fs p cwd = Throw (PathNotFound q))
  /\ (forall q, readFile fs p cwd = Throw (PathNotFound q) ->
        q = p /\ resolvePath fs p cwd = Return None).
Proof.
  unfold readFile, listDirectory.
  destruct (resolvePath fs p cwd) as [[[[nm fp c u|nm dp pid ch]|k]|]|e] eqn:Hres;
    cbn [bind]; repeat split; intros; try congruence; try discriminate.
  all: destruct (resolvePath_errors _ _ _ Hres) as [-> | [m ->]]; discriminate.
Qed.

Lemma toNumber_exact (i : Z) :
  (Z.abs i <= 2 ^ 53)%Z -> toNumber i = Some i.
Proof.
  intros Hi. unfold toNumber.
  destruct (Z.ltb_spec (Z.abs i) (2 ^ 53)) as [_|Hge]; [reflexivity|].
  assert (Habs : Z.abs i = (2 ^ 53)%Z) by lia.
  rewrite Habs.
  assert (Hcase : i = (2 ^ 53)%Z \/ i = (- 2 ^ 53)%Z) by lia.
  destruct Hcase as [-> | ->]; vm_compute; reflexivity.
Qed.

(** X19. [getProjectPathById] on a tree with a projects directory: the
    identifier is read by [parseInt] and made a number, so [7abc] is 7, an
    integer of at most 2^53 in size is itself, and 9007199254740993 is
    2^53; a string that [parseInt] does not read, or of which it reads an
    infinity, finds nothing; otherwise the result is the path of the first
    child of the projects directory, in the order of the object, whose
    [projectId] is that number, and nothing when no child has it.  The
    filesystem need not be initialized, and an identifier of 0 is found as
    any other. *)
Theorem project_path_by_id (fs : VirtualFileSystem) (rn rp : jstring)
  (rpid : option Z) (children : object node) (pn pp : jstring)
  (ppid : option Z) (projects : object node) (id : jstring) :
  root fs = Some (Directory rn rp rpid children) ->
  getOwn children (js "projects") = Some (Directory pn pp ppid projects) ->
  (parseInt id = None -> getProjectPathById fs id = Return None)
  /\ (forall i, parseInt id = Some i -> toNumber i = None ->
        getProjectPathById fs id = Return None)
  /\ (forall i x p,
        parseInt id = Some i ->
        toNumber i = Some x ->
        (getProjectPathById fs id = Return (Some p)
         <-> exists before k n after,
               projects = before ++ (k, n) :: after
               /\ projectId n = Some x /\ path n = p
               /\ Forall (fun kv => projectId (snd kv) <> Some x) before))
  /\ (forall i x,
        parseInt id = Some i ->
        toNumber i = Some x ->
        (getProjectPathById fs id = Return None
         <-> Forall (fun kv => projectId (snd kv) <> Some x) projects))
  /\ (forall i, (Z.abs i <= 2 ^ 53)%Z -> toNumber i = Some i)
  /\ toNumber 9007199254740993 = Some 9007199254740992%Z.
Proof.
  intros Hroot Hprojects.
  assert (Hget : getProjectPathById fs id
                 = Return (findProject projects (parseIntNumber id))).
  { unfold getProjectPathById, get. rewrite Hroot, Hprojects. reflexivity. }
  rewrite Hget. unfold parseIntNumber.
  split; [|split; [|split; [|split; [|split]]]].
  - intros ->. rewrite findProject_NaN. reflexivity.
  - intros i -> ->. rewrite findProject_NaN. reflexivity.
  - intros i x p -> ->. rewrite <- findProject_found.
    split; [intros [= ->]; reflexivity | intros ->; reflexivity].
  - intros i x -> ->. split.
    + intros [= Hnone]. apply Forall_forall. intros [k n] Hin Hid.
      apply in_split in Hin. destruct Hin as [l1 [l2 Hsplit]].
      assert (Hex : exists p, findProject projects (Some x) = Some p).
      { clear Hnone Hget Hprojects. subst projects.
        induction l1 as [|[k1 n1] l1 IH]; cbn [app findProject].
        - destruct n as [? ? ? ?|? pth [j|] ?]; cbn [projectId snd] in Hid;
            try discriminate Hid.
          injection Hid as ->. rewrite Z.eqb_refl. eauto.
        - destruct n1 as [? ? ? ?|? pth1 [j1|] ?]; try exact IH.
          destruct (j1 =? x)%Z; eauto. }
      destruct Hex as [p Hp]. congruence.
    + intros Hall. f_equal.
      destruct (findProject projects (Some x)) as [p|] eqn:Hfind; [|reflexivity].
      apply findProject_found in Hfind.
      destruct Hfind as [before [k [n [after [-> [Hid _]]]]]].
      rewrite Forall_forall in Hall.
      exfalso. apply (Hall (k, n)); [|exact Hid].
      apply in_or_app. right. left. reflexivity.
  - exact toNumber_exact.
  - vm_compute. reflexivity.
Qed.

End Lookups.

(** X20. The keys of the history.  The index stays between -1 and the
    last index of the history whatever the direction; from the fresh input
    line, [k] steps up show the [k]-th last line of the history; one step
    more than the history is long clears the input line and leaves the
    history; and a step down at the last line of the history changes
    nothing. *)
Theorem history_navigation (commandHistory : list jstring) :
  (forall ui direction,
     (-1 <= historyIndex ui < Z.of_nat (length commandHistory))%Z ->
     (-1 <= historyIndex (_navigateHistory commandHistory direction ui)
      < Z.of_nat (length commandHistory))%Z)
  /\ (forall typed k,
        1 <= k <= length commandHistory ->
        Nat.iter k (_navigateHistory commandHistory (-1))
          {| historyIndex := -1; inputValue := typed |}
        = {| historyIndex := Z.of_nat (length commandHistory - k);
             inputValue := nth (length commandHistory - k) commandHistory [] |})
  /\ (forall typed,
        commandHistory <> [] ->
        Nat.iter (S (length commandHistory)) (_navigateHistory commandHistory (-1))
          {| historyIndex := -1; inputValue := typed |}
        = {| historyIndex := -1; inputValue := [] |})
  /\ (forall ui,
        historyIndex ui = (Z.of_nat (length commandHistory) - 1)%Z ->
        _navigateHistory commandHistory 1 ui = ui).
Proof.
  set (len := length commandHistory).
  assert (Hup : forall typed k,
             1 <= k <= len ->
             Nat.iter k (_navigateHistory commandHistory (-1))
               {| historyIndex := -1; inputValue := typed |}
             = {| historyIndex := Z.of_nat (len - k);
                  inputValue := nth (len - k) commandHistory [] |}).
  { intros typed k [H1 Hk]. induction k as [|k IH]; [lia|].
    rewrite Nat.iter_succ. destruct k as [|k'].
    - cbn [Nat.iter nat_rect]. unfold _navigateHistory. fold len. cbn [historyIndex].
      destruct (Z.eqb_spec (Z.of_nat len) 0); [lia|].
      cbn. replace (Z.to_nat (Z.of_nat len - 1)) with (len - 1) by lia.
      replace (Z.of_nat len - 1)%Z with (Z.of_nat (len - 1)) by lia.
      reflexivity.
    - rewrite IH by lia. unfold _navigateHistory. fold len. cbn [historyIndex].
      destruct (Z.eqb_spec (Z.of_nat len) 0); [lia|].
      destruct (Z.eqb_spec (Z.of_nat (len - S k')) (-1)); [lia|].
      destruct (Z.leb_spec 0 (Z.of_nat (len - S k') + -1)); [|lia].
      destruct (Z.ltb_spec (Z.of_nat (len - S k') + -1) (Z.of_nat len)); [|lia].
      cbn [andb].
      replace (Z.to_nat (Z.of_nat (len - S k') + -1)) with (len - S (S k')) by lia.
      replace (Z.of_nat (len - S k') + -1)%Z with (Z.of_nat (len - S (S k'))) by lia.
      reflexivity. }
  split; [|split; [exact Hup|split]].
  - intros ui direction Hrange. unfold _navigateHistory. fold len.
    destruct (Z.eqb_spec (Z.of_nat len) 0); [exact Hrange|].
    destruct (Z.eqb_spec (historyIndex ui) (-1)).
    + destruct (direction <? 0)%Z; cbn [historyIndex]; lia.
    + destruct (Z.leb_spec 0 (historyIndex ui + direction));
        destruct (Z.ltb_spec (historyIndex ui + direction) (Z.of_nat len));
        cbn [andb historyIndex]; try lia;
        (destruct (Z.ltb_spec (historyIndex ui + direction) 0);
         cbn [historyIndex]; lia).
  - intros typed Hne.
    assert (Hlen : 1 <= len) by (unfold len; destruct commandHistory; [congruence | cbn; lia]).
    rewrite Nat.iter_succ. rewrite Hup by lia.
    unfold _navigateHistory. fold len. cbn [historyIndex].
    destruct (Z.eqb_spec (Z.of_nat len) 0); [lia|].
    replace (len - len) with 0 by lia. reflexivity.
  - intros ui Hlast. unfold _navigateHistory. fold len.
    destruct (Z.eqb_spec (Z.of_nat len) 0); [reflexivity|].
    destruct (Z.eqb_spec (historyIndex ui) (-1)); [reflexivity|].
    destruct (Z.leb_spec 0 (historyIndex ui + 1));
      destruct (Z.ltb_spec (historyIndex ui + 1) (Z.of_nat len));
      cbn [andb]; try lia; try reflexivity;
      (destruct (Z.ltb_spec (historyIndex ui + 1) 0); [lia | reflexivity]).
Qed.

(** ** The builder *)

Section Building.
Context {host : Host}.

Lemma projectNode_total (p : project) : exists n, projectNode p = Some n.
Proof.
  unfold projectNode.
  destruct (attachments p) as [[|a atts]|]; eauto.
  unfold _buildAttachmentsDirectory.
  destruct (addAttachments_spec (_generateSlug (title p)) (a :: atts) [] 0
              (NoDup_nil _)) as [added [-> _]].
  simpl. eauto.
Qed.

Lemma addProjects_total (ps : list project) :
  forall children, exists children', addProjects children ps = Some children'.
Proof.
  induction ps as [|p ps IH]; intros children; simpl; eauto.
  destruct (projectNode_total p) as [n ->]. apply IH.
Qed.

Lemma addProjects_untouched (ps : list project) (k : jstring) :
  forall children children',
    addProjects children ps = Some children' ->
    (forall q, In q ps -> _generateSlug (title q) <> k) ->
    getOwn children' k = getOwn children k.
Proof.
  induction ps as [|p ps IH]; intros children children' Hadd Hk.
  - injection Hadd as <-. reflexivity.
  - cbn [addProjects] in Hadd.
    destruct (projectNode p) as [n|]; [|discriminate Hadd].
    rewrite (IH _ _ Hadd) by (intros q Hq; apply Hk; right; exact Hq).
    apply getOwn_set_other. intros Heq. apply (Hk p); [left; reflexivity|].
    symmetry. exact Heq.
Qed.

(** X21. Two project records with the same slug share one directory: the
    node under a slug in the projects directory is that of the last record
    with that slug.  The builder returns a projects directory for every
    list of records. *)
Theorem later_project_wins (ps before after : list project) (q : project) :
  ps = before ++ q :: after ->
  (forall q', In q' after ->
              _generateSlug (title q') <> _generateSlug (title q)) ->
  exists children n,
    _buildProjectsDirectory (Some ps)
    = Some (Directory (js "projects") (js "/projects") None children)
    /\ projectNode q = Some n
    /\ get children (_generateSlug (title q)) = Own n.
Proof.
  intros -> Hafter.
  destruct (projectNode_total q) as [n Hn].
  unfold _buildProjectsDirectory.
  destruct (addProjects_total (before ++ q :: after) []) as [children Hadd].
  rewrite Hadd. exists children, n.
  split; [reflexivity|]. split; [exact Hn|].
  assert (Hown : getOwn children (_generateSlug (title q)) = Some n).
  { revert Hadd. generalize (@nil (jstring * node)).
    induction before as [|p before IH]; intros start Hadd.
    - cbn [app addProjects] in Hadd. rewrite Hn in Hadd.
      rewrite (@addProjects_untouched after _ _ _ Hadd Hafter).
      apply getOwn_set_same.
    - cbn [app addProjects] in Hadd.
      destruct (projectNode p) as [m|]; [|discriminate Hadd].
      exact (IH _ Hadd). }
  unfold get. rewrite Hown. reflexivity.
Qed.

(** X22. [initialize] on a new filesystem succeeds for every project
    data.  The root is then a directory with the path [/] and the three
    children [base], [projects] and [meta], in that order; every node
    carries the path at which it stands; the working directory of a new
    session is valid; and a second [initialize], with whatever data,
    changes nothing. *)
Theorem initialize_builds (CONSTANTS : Constants)
  (projectData : option (list project)) :
  exists fs projects,
    initialize CONSTANTS newVirtualFileSystem projectData = Some fs
    /\ initialized fs = true
    /\ root fs
       = Some (Directory [] (js "/") None
                 [ (js "base", _buildBaseDirectory CONSTANTS);
                   (js "projects",
                    Directory (js "projects") (js "/projects") None projects);
                   (js "meta", _buildMetaDirectory) ])
    /\ (forall r, root fs = Some r -> wellFormed (js "/") r)
    /\ validCwd fs newSession
    /\ (forall other, initialize CONSTANTS fs other = Some fs).
Proof.
  destruct (built_tree_exists CONSTANTS projectData) as [r Hr].
  pose proof (built_tree_wellFormed CONSTANTS projectData Hr) as Hwf.
  unfold initialize. cbn [initialized newVirtualFileSystem]. rewrite Hr.
  unfold _buildFileTree, _buildProjectsDirectory in Hr.
  destruct (match projectData with
            | Some ps => addProjects [] ps
            | None => Some []
            end) as [projects|]; [|discriminate Hr].
  injection Hr as <-.
  eexists. exists projects. split; [reflexivity|].
  cbn [initialized root option_map].
  split; [reflexivity|]. split; [reflexivity|].
  split; [intros r [= <-]; exact Hwf|].
  split; [|reflexivity].
  eexists. eexists. eexists. reflexivity.
Qed.

End Building.

(** ** The names of a built tree *)

Lemma keysOf_directory (P : jstring -> Prop) (nm pth : jstring)
  (pid : option Z) (children : object node) :
  Forall (fun kv => P (fst kv) /\ Forall P (keysOf (snd kv))) children ->
  Forall P (keysOf (Directory nm pth pid children)).
Proof.
  intros H. cbn [keysOf].
  induction H as [|[k c] rest [Hk Hc] _ IH]; [constructor|].
  constructor; [exact Hk|]. apply Forall_app. split; [exact Hc | exact IH].
Qed.

Lemma long_is_proper (k : jstring) : 2 < length k -> properName k.
Proof. intros H. split; intros ->; cbn in H; lia. Qed.

Lemma getOwn_first {A} (o : object A) (k : jstring) (v : A) :
  In (k, v) o -> exists v', getOwn o k = Some v' /\ In (k, v') o.
Proof.
  intros Hin. destruct (getOwn o k) as [v'|] eqn:E.
  - exists v'. split; [reflexivity|]. apply getOwn_Some. exact E.
  - apply getOwn_None in E. exfalso. apply E.
    apply in_map_iff. exists (k, v). split; [reflexivity | exact Hin].
Qed.

Section BuiltTree.
Context {host : Host}.

Lemma slug_proper (t : jstring) : properName (_generateSlug t).
Proof.
  split; intros H; apply (slug_dotless t); rewrite H; left; reflexivity.
Qed.

Lemma uniqueFilename_extension (fuel : nat) (children : object node)
  (original ext : jstring) :
  forall (filename : jstring) (counter : nat) (nm : jstring),
    uniqueFilename fuel children original ext filename counter = Some nm ->
    (exists x, filename = x ++ js "." ++ ext) ->
    exists x, nm = x ++ js "." ++ ext.
Proof.
  induction fuel as [|fuel IH]; intros filename counter nm Hloop Hform;
    cbn [uniqueFilename] in Hloop.
  - destruct (get children filename); try discriminate Hloop.
    injection Hloop as <-. exact Hform.
  - destruct (get children filename);
      try (injection Hloop as <-; exact Hform);
      (eapply IH; [exact Hloop|]; unfold numberedFilename;
       eexists; rewrite !app_assoc; reflexivity).
Qed.

Lemma attachmentFilename_proper (children : object node) (att : attachment)
  (index : nat) (nm : jstring) :
  attachmentFilename children att index = Some nm -> properName nm.
Proof.
  unfold attachmentFilename. intros Hloop.
  apply uniqueFilename_extension in Hloop; [|eexists; reflexivity].
  destruct Hloop as [x ->]. apply long_is_proper.
  rewrite !length_app.
  destruct (endsWith (toLowerCase (url att)) (js ".pdf")); cbn [length js]; cbn; lia.
Qed.

Lemma addAttachments_proper (slug : jstring) (atts : list attachment) :
  forall (children children' : object node) (index : nat),
    Forall (fun kv => properName (fst kv)
                      /\ Forall properName (keysOf (snd kv))) children ->
    addAttachments slug children atts index = Some children' ->
    Forall (fun kv => properName (fst kv)
                      /\ Forall properName (keysOf (snd kv))) children'.
Proof.
  induction atts as [|a rest IH]; intros children children' index Hall Hadd.
  - injection Hadd as <-. exact Hall.
  - cbn [addAttachments] in Hadd. unfold addAttachment in Hadd.
    destruct (attachmentFilename children a index) as [filename|] eqn:E;
      [|discriminate Hadd].
    eapply IH; [|exact Hadd].
    apply set_Forall; [exact Hall|]. cbn [fst snd keysOf].
    split; [exact (attachmentFilename_proper _ _ _ E) | constructor].
Qed.

Lemma projectNode_shape (p : project) (n : node) :
  projectNode p = Some n ->
  (exists children,
     n = Directory (_generateSlug (title p))
           (js "/projects/" ++ _generateSlug (title p)) (id p) children)
  /\ Forall properName (keysOf n).
Proof.
  unfold projectNode.
  destruct (attachments p) as [[|a atts]|].
  - intros [= <-]. split; [eexists; reflexivity|].
    repeat (constructor; [apply long_is_proper; cbn; lia|]). constructor.
  - unfold _buildAttachmentsDirectory.
    destruct (addAttachments (_generateSlug (title p)) [] (a :: atts) 0)
      as [added|] eqn:E; [|discriminate].
    intros [= <-]. split; [eexists; reflexivity|].
    pose proof (@addAttachments_proper _ (a :: atts) [] added 0
                  (Forall_nil _) E) as Hadded.
    apply keysOf_directory.
    repeat (apply Forall_cons;
            [split; [apply long_is_proper; cbn; lia | constructor]|]).
    apply Forall_cons; [|apply Forall_nil].
    cbn [fst snd]. split; [apply long_is_proper; cbn; lia|].
    apply keysOf_directory. exact Hadded.
  - intros [= <-]. split; [eexists; reflexivity|].
    repeat (constructor; [apply long_is_proper; cbn; lia|]). constructor.
Qed.

(** What [addProjects] keeps of every entry: its key is the slug in its
    path, it is a directory, and no name in it is [.] or [..]. *)
Lemma addProjects_shape (projectData : list project) :
  forall children children' : object node,
    Forall (fun kv =>
              (exists nm pid ch,
                 snd kv = Directory nm (js "/projects/" ++ fst kv) pid ch)
              /\ (fst kv = [] \/ segment (fst kv))
              /\ properName (fst kv)
              /\ Forall properName (keysOf (snd kv))) children ->
    addProjects children projectData = Some children' ->
    Forall (fun kv =>
              (exists nm pid ch,
                 snd kv = Directory nm (js "/projects/" ++ fst kv) pid ch)
              /\ (fst kv = [] \/ segment (fst kv))
              /\ properName (fst kv)
              /\ Forall properName (keysOf (snd kv))) children'.
Proof.
  induction projectData as [|p rest IH]; intros children children' Hall Hadd.
  - injection Hadd as <-. exact Hall.
  - cbn [addProjects] in Hadd.
    destruct (projectNode p) as [n|] eqn:E; [|discriminate Hadd].
    eapply IH; [|exact Hadd].
    apply set_Forall; [exact Hall|]. cbn [fst snd].
    destruct (projectNode_shape p E) as [[ch ->] Hnames].
    split; [do 3 eexists; reflexivity|].
    split.
    { destruct (_generateSlug (title p)) as [|c s] eqn:Es; [left; reflexivity|].
      right. rewrite <- Es. apply slug_segment. rewrite Es. discriminate. }
    split; [apply slug_proper | exact Hnames].
Qed.

(** The tree after [initialize]. *)
Lemma initialize_shape (CONSTANTS : Constants)
  (projectData : option (list project)) (fs : VirtualFileSystem) :
  initialize CONSTANTS newVirtualFileSystem projectData = Some fs ->
  exists projects,
    fs = {| root :=
              Some (Directory [] (js "/") None
                      [ (js "base", _buildBaseDirectory CONSTANTS);
                        (js "projects",
                         Directory (js "projects") (js "/projects") None projects);
                        (js "meta", _buildMetaDirectory) ]);
            initialized := true |}
    /\ Forall (fun kv =>
                 (exists nm pid ch,
                    snd kv = Directory nm (js "/projects/" ++ fst kv) pid ch)
                 /\ (fst kv = [] \/ segment (fst kv))
                 /\ properName (fst kv)
                 /\ Forall properName (keysOf (snd kv))) projects.
Proof.
  unfold initialize. cbn [initialized newVirtualFileSystem].
  unfold _buildFileTree, _buildProjectsDirectory.
  destruct (match projectData with
            | Some ps => addProjects [] ps
            | None => Some []
            end) as [projects|] eqn:E; [|discriminate].
  intros [= <-]. exists projects. split; [reflexivity|].
  destruct projectData as [ps|].
  - exact (addProjects_shape ps (Forall_nil _) E).
  - injection E as <-. constructor.
Qed.

(** X23. No node of a tree that [initialize] built is named [.] or [..].
    So after [initialize] an absolute path with such a segment resolves to
    nothing, from every working directory: [..] steps back in a relative
    path only. *)
Theorem absolute_dots_unresolved (CONSTANTS : Constants)
  (projectData : option (list project)) (fs : VirtualFileSystem)
  (p cwd : jstring) :
  initialize CONSTANTS newVirtualFileSystem projectData = Some fs ->
  startsWith p (js "/") = true ->
  In (js ".") (segments p) \/ In (js "..") (segments p) ->
  resolvePath fs p cwd = Return None.
Proof.
  intros Hinit Habs Hdots.
  destruct (initialize_shape _ _ Hinit) as [projects [Hfs Hprojects]].
  set (r := Directory [] (js "/") None
              [ (js "base", _buildBaseDirectory CONSTANTS);
                (js "projects",
                 Directory (js "projects") (js "/projects") None projects);
                (js "meta", _buildMetaDirectory) ]) in *.
  assert (Hi : initialized fs = true) by (rewrite Hfs; reflexivity).
  assert (Hr : root fs = Some r) by (rewrite Hfs; reflexivity).
  rewrite (resolvePath_walk fs Hi Hr).
  assert (Hsegs : segments (_resolveAbsolutePath p cwd) = segments p).
  { unfold _resolveAbsolutePath. rewrite Habs. unfold _normalizePath.
    apply segments_absolute. apply Forall_segments. }
  rewrite Hsegs. f_equal.
  assert (Hnames : Forall properName (keysOf r)).
  { apply keysOf_directory.
    apply Forall_cons;
      [split; [apply long_is_proper; cbn; lia|];
       repeat (constructor; [apply long_is_proper; cbn; lia|]); constructor|].
    apply Forall_cons.
    { split; [apply long_is_proper; cbn; lia|]. apply keysOf_directory.
      eapply Forall_impl; [|exact Hprojects]. intros kv [_ [_ H]]. exact H. }
    apply Forall_cons; [|constructor].
    split; [apply long_is_proper; cbn; lia|];
      repeat (constructor; [apply long_is_proper; cbn; lia|]); constructor. }
  rewrite Forall_forall in Hnames.
  destruct Hdots as [Hin | Hin];
    (eapply walk_unnamed; [exact Hin| |reflexivity]);
    intros Hkey; destruct (Hnames _ Hkey) as [H1 H2]; congruence.
Qed.

(** X24. The path of a project found by its identifier can be entered:
    on a filesystem that [initialize] built, [setCwd] on a path that
    [getProjectPathById] returned gives [true] and moves to the normalised
    path, which is a valid working directory.  The history stays. *)
Theorem deep_link (CONSTANTS : Constants)
  (projectData : option (list project)) (fs : VirtualFileSystem)
  (id p : jstring) (st : session) :
  initialize CONSTANTS newVirtualFileSystem projectData = Some fs ->
  getProjectPathById fs id = Return (Some p) ->
  setCwd fs p st
  = (Return true, {| cwd := _normalizePath p; history := history st |})
  /\ validCwd fs (snd (setCwd fs p st)).
Proof.
  intros Hinit Hfound.
  destruct (initialize_shape _ _ Hinit) as [projects [Hfs Hprojects]].
  set (r := Directory [] (js "/") None
              [ (js "base", _buildBaseDirectory CONSTANTS);
                (js "projects",
                 Directory (js "projects") (js "/projects") None projects);
                (js "meta", _buildMetaDirectory) ]) in *.
  assert (Hi : initialized fs = true) by (rewrite Hfs; reflexivity).
  assert (Hr : root fs = Some r) by (rewrite Hfs; reflexivity).
  unfold getProjectPathById in Hfound. rewrite Hr in Hfound. unfold r in Hfound.
  change (get _ (js "projects"))
    with (Own (Directory (js "projects") (js "/projects") None projects))
    in Hfound.
  cbv iota in Hfound. injection Hfound as Hfound.
  destruct (parseIntNumber id) as [i|];
    [|rewrite findProject_NaN in Hfound; discriminate].
  apply findProject_found in Hfound.
  destruct Hfound as [before [k [n [after [Hsplit [_ [Hpath _]]]]]]].
  assert (Hin : In (k, n) projects)
    by (rewrite Hsplit; apply in_or_app; right; left; reflexivity).
  destruct (getOwn_first _ _ _ Hin) as [n' [Hown Hin']].
  rewrite Forall_forall in Hprojects.
  destruct (Hprojects _ Hin) as [[nm [pid [ch Hn]]] [Hk _]].
  destruct (Hprojects _ Hin') as [[nm' [pid' [ch' Hn']]] _].
  cbn [fst snd] in *. subst n n'. cbn [path] in Hpath. subst p.
  assert (Hsegs : forall cwd,
             segments (_resolveAbsolutePath (js "/projects/" ++ k) cwd)
             = js "projects" :: segments k).
  { intros cwd. change (js "/projects/" ++ k) with (js "/" ++ js "projects/" ++ k).
    unfold _resolveAbsolutePath.
    change (startsWith (js "/" ++ js "projects/" ++ k) (js "/")) with true.
    cbv iota. unfold _normalizePath.
    rewrite segments_absolute by apply Forall_segments.
    rewrite segments_slash.
    change (js "projects/" ++ k) with (js "projects" ++ js "/" ++ k).
    rewrite segments_app. reflexivity. }
  assert (Hnormal : _normalizePath (js "/projects/" ++ k)
                    = js "/" ++ join (js "/") (js "projects" :: segments k)).
  { unfold _normalizePath.
    change (js "/projects/" ++ k) with (js "/" ++ js "projects" ++ js "/" ++ k).
    rewrite segments_slash, segments_app. reflexivity. }
  assert (Hresolve : forall q,
             segments (_resolveAbsolutePath q (js "/")) = js "projects" :: segments k ->
             exists nm pid ch,
               resolvePath fs q (js "/")
               = Return (Some (Node (Directory nm
                                       (js "/" ++ join (js "/")
                                                    (js "projects" :: segments k))
                                       pid ch)))).
  { intros q Hq. rewrite (resolvePath_walk fs Hi Hr). rewrite Hq.
    destruct Hk as [-> | Hseg].
    - do 3 eexists. reflexivity.
    - rewrite (segments_segment Hseg).
      unfold r. cbn [walk]. unfold child.
      change (get _ (js "projects"))
        with (Own (Directory (js "projects") (js "/projects") None projects)).
      cbv iota. unfold get. rewrite Hown. cbn [walk].
      exists nm', pid', ch'. reflexivity. }
  destruct (Hresolve (js "/projects/" ++ k) (Hsegs (js "/"))) as [nm0 [pid0 [ch0 Hres]]].
  unfold setCwd. rewrite Hres. rewrite Hnormal.
  split; [reflexivity|]. cbn [snd]. unfold validCwd. cbn [cwd].
  apply Hresolve. apply resolve_absolute_again.
  constructor; [split; [discriminate | vm_compute; intuition discriminate]|].
  apply Forall_segments.
Qed.

End BuiltTree.

(** ** The key of the completion *)

Lemma join_snoc (sep : jstring) (l : list jstring) (x : jstring) :
  l <> [] -> join sep (l ++ [x]) = join sep l ++ sep ++ x.
Proof.
  induction l as [|w l IH]; intros Hne; [congruence|].
  destruct l as [|w' l'].
  - reflexivity.
  - change (join sep ((w :: w' :: l') ++ [x]))
      with (w ++ sep ++ join sep ((w' :: l') ++ [x])).
    rewrite IH by discriminate.
    change (join sep (w :: w' :: l')) with (w ++ sep ++ join sep (w' :: l')).
    rewrite <- !app_assoc. reflexivity.
Qed.

Lemma join_split (c : char) (s : jstring) : join [c] (split c s) = s.
Proof.
  induction s as [|x r IH]; [reflexivity|].
  cbn [split]. pose proof (split_not_nil c r) as Hne.
  destruct (N.eqb_spec x c) as [->|Hx].
  - destruct (split c r) as [|w ws]; [congruence|].
    change (join [c] ([] :: w :: ws)) with ([] ++ [c] ++ join [c] (w :: ws)).
    rewrite IH. reflexivity.
  - destruct (split c r) as [|w ws]; [congruence|].
    rewrite <- IH. destruct ws; reflexivity.
Qed.

Section Keys.
Context {host : Host}.

(** X25. The tab key with one suggestion.  The text of the input line
    after its last space is replaced by the suggestion, and the text up to
    that space stays; the index of the history stays, and nothing is
    written to the output.  What is replaced is the whole last part, so a
    directory part typed before the search prefix is lost. *)
Theorem autocomplete_replaces_last_part (fs : VirtualFileSystem)
  (st : session) (ui : consoleState) (before after suggestion : jstring) :
  inputValue ui = before ++ after ->
  ~ In (ch " ") after ->
  before = [] \/ endsWith before (js " ") = true ->
  getAutocompleteSuggestions fs st (inputValue ui) = [suggestion] ->
  _handleAutocomplete fs st ui
  = ({| historyIndex := historyIndex ui; inputValue := before ++ suggestion |},
     None).
Proof.
  intros Hinput Hafter Hbefore Hone.
  unfold _handleAutocomplete. rewrite Hone. cbv zeta. rewrite Hinput.
  f_equal. f_equal.
  destruct Hbefore as [-> | Hends].
  - cbn [app]. rewrite (@split_without (ch " ") after Hafter). reflexivity.
  - unfold endsWith in Hends. apply startsWith_app in Hends.
    destruct Hends as [b Hb]. apply (f_equal (@rev _)) in Hb.
    rewrite rev_involutive, rev_app_distr in Hb.
    change (rev (rev (js " "))) with [ch " "] in Hb.
    subst before.
    replace ((rev b ++ [ch " "]) ++ after) with (rev b ++ ch " " :: after)
      by (rewrite <- app_assoc; reflexivity).
    rewrite split_app, (@split_without (ch " ") after Hafter).
    pose proof (split_not_nil (ch " ") (rev b)) as Hne.
    destruct (split (ch " ") (rev b) ++ [after]) as [|w ws] eqn:E.
    { destruct (split (ch " ") (rev b)); discriminate E. }
    rewrite <- E. rewrite removelast_last.
    rewrite join_snoc by exact Hne.
    change (js " ") with [ch " "]. rewrite join_split.
    rewrite <- app_assoc. reflexivity.
Qed.

End Keys.

(* ================================================================== *)
(** * Part IV: instances *)
(* ================================================================== *)

(** ** Instances *)

(** [exampleRoot] is what the builder makes of [exampleProjects]. *)
Lemma exampleRoot_built :
  _buildFileTree (host := exampleHost) exampleConstants (Some exampleProjects)
  = Some exampleRoot.
Proof. vm_compute. reflexivity. Qed.

Lemma example_initialize :
  initialize (host := exampleHost) exampleConstants newVirtualFileSystem
    (Some exampleProjects)
  = Some exampleFs.
Proof. vm_compute. reflexivity. Qed.

(** A name that every object inherits is found in every directory: the
    resolver returns a builtin for it, and not not-found. *)
Lemma prototype_key_resolves :
  resolvePath (host := exampleHost) exampleFs (js "base/constructor") (js "/")
  = Return (Some (Builtin (js "constructor"))).
Proof. vm_compute. reflexivity. Qed.

Lemma root_clamp_witness :
  _resolveAbsolutePath (js "..") (js "/a/b") = js "/a"
  /\ _resolveAbsolutePath (js "../../../base") (js "/projects/alpha") = js "/base"
  /\ _resolveAbsolutePath (js "../../../base/..") (js "/projects/alpha") = js "/"
  /\ _resolveAbsolutePath (js "./c/d") (js "/a/b") = js "/a/b/c/d"
  /\ ~ In (js "..") (segments (_resolveAbsolutePath (js "../../../base") (js "/projects/alpha")))
  /\ _resolveAbsolutePath (js "../../..") (js "/") = js "/"
  /\ _resolveAbsolutePath (js "../../..") (js "/projects/alpha") = js "/".
Proof.
  destruct root_clamp as [Hrel [Hroot Hdeep]].
  assert (Hup : _resolveAbsolutePath (js "..") (js "/a/b") = js "/a").
  { destruct (Hrel (js "/a/b") [] eq_refl) as [_ [_ [Hstart [_ [_ [Hpop _]]]]]].
    destruct (Hrel (js "/a/b") (js "..") eq_refl) as [_ [Hnormal _]].
    rewrite Hnormal, (Hpop (js "..") eq_refl eq_refl), (Hstart eq_refl).
    reflexivity. }
  assert (Hbase : _resolveAbsolutePath (js "../../../base") (js "/projects/alpha")
                  = js "/base").
  { destruct (Hrel (js "/projects/alpha") (js "../../..") eq_refl)
      as [_ [_ [_ [Hpush _]]]].
    destruct (Hrel (js "/projects/alpha") (js "../../../base") eq_refl)
      as [_ [Hnormal _]].
    rewrite Hnormal.
    rewrite (Hpush (js "../../../base") (js "base") eq_refl eq_refl);
      [|discriminate|discriminate].
    assert (Hroot3 : _resolveAbsolutePath (js "../../..") (js "/projects/alpha")
                     = js "/")
      by (apply (Hdeep (js "/projects/alpha") 3); vm_compute; lia).
    rewrite Hroot3. reflexivity. }
  assert (Hback : _resolveAbsolutePath (js "../../../base/..") (js "/projects/alpha")
                  = js "/").
  { destruct (Hrel (js "/projects/alpha") (js "../../../base") eq_refl)
      as [_ [_ [_ [_ [_ [Hpop _]]]]]].
    destruct (Hrel (js "/projects/alpha") (js "../../../base/..") eq_refl)
      as [_ [Hnormal _]].
    rewrite Hnormal, (Hpop (js "../../../base/..") eq_refl eq_refl), Hbase.
    reflexivity. }
  assert (Hdown : _resolveAbsolutePath (js "./c/d") (js "/a/b") = js "/a/b/c/d").
  { destruct (Hrel (js "/a/b") [] eq_refl) as [_ [_ [Hstart [_ [Hdot _]]]]].
    destruct (Hrel (js "/a/b") (js ".") eq_refl) as [_ [_ [_ [Hpush1 _]]]].
    destruct (Hrel (js "/a/b") (js "./c") eq_refl) as [_ [_ [_ [Hpush2 _]]]].
    destruct (Hrel (js "/a/b") (js "./c/d") eq_refl) as [_ [Hnormal _]].
    rewrite Hnormal.
    rewrite (Hpush2 (js "./c/d") (js "d") eq_refl eq_refl);
      [|discriminate|discriminate].
    rewrite (Hpush1 (js "./c") (js "c") eq_refl eq_refl);
      [|discriminate|discriminate].
    rewrite (Hdot (js ".") eq_refl eq_refl), (Hstart eq_refl).
    reflexivity. }
  split; [exact Hup|]. split; [exact Hbase|]. split; [exact Hback|].
  split; [exact Hdown|].
  destruct (Hrel (js "/projects/alpha") (js "../../../base") eq_refl)
    as [_ [_ [_ [_ [_ [_ [_ Hclean]]]]]]].
  split; [apply Hclean; vm_compute; intuition discriminate|].
  split; [exact (Hroot 3) | apply (Hdeep (js "/projects/alpha") 3)].
  vm_compute. lia.
Defined.

Lemma resolver_total_witness :
  resolvePath (host := exampleHost) exampleFs (js "../base/about/deeper") (js "/meta")
  = Return None
  /\ resolvePath (host := exampleHost) exampleFs (js "..") (js "/meta")
     = Return (Some (Node exampleRoot))
  /\ resolvePath (host := exampleHost) exampleFs (js "nothing") (js "/meta")
     = Return None
  /\ resolvePath (host := exampleHost) newVirtualFileSystem (js "base") (js "/")
     = Throw FilesystemNotInitialized.
Proof.
  destruct (resolver_total (host := exampleHost) exampleFs) as [_ Hready].
  destruct (Hready exampleRoot eq_refl eq_refl)
    as [Hwalk [Hroot [Hfile Hmissing]]].
  split; [|split; [|split]].
  - rewrite Hwalk. apply f_equal.
    change (walk (Node exampleRoot) ([js "base"; js "about"] ++ [js "deeper"])
            = None).
    apply (Hfile [js "base"; js "about"] [js "deeper"] (js "about")
             (js "/base/about") (_getAboutContent) None).
    + vm_compute. reflexivity.
    + discriminate.
  - apply Hroot. vm_compute. reflexivity.
  - rewrite Hwalk. apply f_equal.
    change (walk (Node exampleRoot) ([js "meta"] ++ [js "nothing"]) = None).
    eapply (Hmissing [js "meta"] (js "nothing") []).
    + vm_compute. reflexivity.
    + vm_compute. reflexivity.
    + vm_compute. reflexivity.
  - destruct (resolver_total (host := exampleHost) newVirtualFileSystem)
      as [Hnew _].
    apply Hnew. reflexivity.
Defined.



Lemma blank_input_noop_witness :
  execute (host := exampleHost) exampleFs
    {| cwd := js "/base"; history := [js "cd base"] |} (js "   ")
  = ({| output := []; error := false; navigation := None; exit := false |},
     {| cwd := js "/base"; history := [js "cd base"] |}).
Proof.
  exact (blank_input_noop (host := exampleHost) exampleFs
           {| cwd := js "/base"; history := [js "cd base"] |} (js "   ") eq_refl).
Defined.


Lemma dispatch_atomicity_witness :
  history (snd (execute (host := exampleHost) exampleFs
                  {| cwd := js "/base"; history := [] |} (js " cd nowhere ")))
  = [js "cd nowhere"]
  /\ error (fst (execute (host := exampleHost) exampleFs
                   {| cwd := js "/base"; history := [] |} (js " cd nowhere ")))
     = true
  /\ cwd (snd (execute (host := exampleHost) exampleFs
                  {| cwd := js "/base"; history := [] |} (js " cd nowhere ")))
     = js "/base".
Proof.
  assert (Hinput : trim (js " cd nowhere ") <> []) by (vm_compute; discriminate).
  destruct (dispatch_atomicity (host := exampleHost) exampleFs
              {| cwd := js "/base"; history := [] |} (js " cd nowhere "))
    as [Hhistory [_ Hcwd]].
  split; [exact (Hhistory Hinput)|].
  assert (Herror : error (fst (execute (host := exampleHost) exampleFs
                     {| cwd := js "/base"; history := [] |} (js " cd nowhere ")))
                   = true) by (vm_compute; reflexivity).
  split; [exact Herror | exact (Hcwd Herror)].
Defined.

Lemma tree_depth_validation_witness :
  fst (cmdTree (host := exampleHost) exampleFs [js "/"; js "0"] newSession)
  = Throw InvalidDepth
  /\ fst (cmdTree (host := exampleHost) exampleFs [js "/"; js "12"] newSession)
     <> Throw InvalidDepth
  /\ fst (cmdTree (host := exampleHost) exampleFs [js "/"] newSession)
     = (tree <- getTree (host := exampleHost) exampleFs (js "/") 3 (js "/") ;;
        Return (say tree))
  /\ fst (cmdTree (host := exampleHost) exampleFs [js "/"; js "2abc"] newSession)
     = (tree <- getTree (host := exampleHost) exampleFs (js "/") 2 (js "/") ;;
        Return (say tree)).
Proof.
  split; [|split; [|split]].
  - apply (proj1 (tree_depth_validation (host := exampleHost) exampleFs
                    [js "/"; js "0"] newSession)).
    exists (js "0"). split; [reflexivity|]. split; [discriminate|].
    right. exists 0%Z. split; [reflexivity | lia].
  - apply (proj1 (proj2 (tree_depth_validation (host := exampleHost) exampleFs
                           [js "/"; js "12"] newSession)) (js "12"));
      reflexivity.
  - apply (proj1 (proj2 (proj2 (proj2
             (tree_depth_validation (host := exampleHost) exampleFs
                [js "/"] newSession))))).
    left. reflexivity.
  - apply (proj2 (proj2 (proj2 (proj2
             (tree_depth_validation (host := exampleHost) exampleFs
                [js "/"; js "2abc"] newSession)))) (js "2abc") 2%Z).
    + reflexivity.
    + discriminate.
    + reflexivity.
    + split; apply Z.leb_le; reflexivity.
Defined.

Lemma open_intent_precedence_witness :
  cmdOpen (host := exampleHost) exampleFs
    [js "projects/alpha-beta/attachments/shot.jpg"] newSession
  = (Return {| resOutput := js "Opening project: /projects/alpha-beta/attachments/shot.jpg";
               resNavigation := Some (NavigateProject 7);
               resExit := false; resClear := false |}, newSession)
  /\ cmdOpen (host := exampleHost) exampleFs [js "base/resume"] newSession
     = (Return {| resOutput := js "Opening: /base/resume";
                  resNavigation := Some (NavigateUrl (RESUME_URL exampleConstants));
                  resExit := false; resClear := false |}, newSession)
  /\ exists fs,
       initialize (host := exampleHost) exampleConstants newVirtualFileSystem
         (Some [draftProject]) = Some fs
       /\ cmdOpen (host := exampleHost) fs
            [js "/projects/draft/attachments/shot.jpg"] newSession
          = (Return {| resOutput := js "Opening: /projects/draft/attachments/shot.jpg";
                       resNavigation := Some (NavigateUrl (js "https://example.org/d.png"));
                       resExit := false; resClear := false |}, newSession).
Proof.
  split; [|split].
  - refine (proj1 (proj2 (open_intent_precedence (host := exampleHost) exampleFs
                     (r := exampleRoot) newSession
                     (js "projects/alpha-beta/attachments/shot.jpg") []
                     (nm := js "shot.jpg")
                     (filePath := js "/projects/alpha-beta/attachments/shot.jpg")
                     (content := _) (u := Some (js "https://example.org/a.png"))
                     eq_refl eq_refl
                     (built_tree_wellFormed exampleConstants (Some exampleProjects)
                        exampleRoot_built) _)) 7%Z _ _).
    + vm_compute. reflexivity.
    + exists (js "alpha-beta"), [js "attachments"; js "shot.jpg"].
      do 3 eexists. split; vm_compute; reflexivity.
    + discriminate.
  - refine (proj2 (proj2 (proj2 (open_intent_precedence (host := exampleHost)
                     exampleFs (r := exampleRoot) newSession
                     (js "base/resume") []
                     (nm := js "resume") (filePath := js "/base/resume")
                     (content := js "[Resume Link - Opens in browser]")
                     (u := Some (RESUME_URL exampleConstants))
                     eq_refl eq_refl
                     (built_tree_wellFormed exampleConstants (Some exampleProjects)
                        exampleRoot_built) _))) _).
    + vm_compute. reflexivity.
    + intros pid [slug [rest [dn [dp [dc [Hseg _]]]]]].
      vm_compute in Hseg. discriminate Hseg.
  - destruct (initialize_wellFormed (host := exampleHost) exampleConstants
                (Some [draftProject])) as [fs [r [Hinit [Hi [Hr Hwf]]]]].
    exists fs. split; [exact Hinit|].
    vm_compute in Hinit. injection Hinit as <-.
    refine (proj1 (proj2 (proj2 (open_intent_precedence (host := exampleHost) _
                     (r := r) newSession
                     (js "/projects/draft/attachments/shot.jpg") []
                     (nm := js "shot.jpg")
                     (filePath := js "/projects/draft/attachments/shot.jpg")
                     (content := _) (u := Some (js "https://example.org/d.png"))
                     Hi Hr Hwf _))) None _ _).
    + vm_compute. reflexivity.
    + exists (js "draft"), [js "attachments"; js "shot.jpg"].
      do 3 eexists. split; vm_compute; reflexivity.
    + left. reflexivity.
Defined.

Lemma attachment_naming_witness :
  (exists children,
     _buildAttachmentsDirectory (host := exampleHost)
       [ {| url := js "https://example.org/a.png";
            caption := Some (js "Shot"); alt := None |};
         {| url := js "https://example.org/b.png";
            caption := Some (js "Shot"); alt := None |} ] (js "alpha-beta")
     = Some (Directory (js "attachments")
               (js "/projects/" ++ js "alpha-beta" ++ js "/attachments") None
               children)
     /\ map fst children = [js "shot.jpg"; js "shot-1.jpg"])
  /\ (exists children,
        _buildAttachmentsDirectory (host := exampleHost)
          [ {| url := js "https://example.org/a.PDF";
               caption := Some (js "- Shot -"); alt := None |} ] (js "alpha-beta")
        = Some (Directory (js "attachments")
                  (js "/projects/" ++ js "alpha-beta" ++ js "/attachments") None
                  children)
        /\ map fst children = [js "shot.pdf"]).
Proof.
  split.
  - exact (proj2 (attachment_naming (host := exampleHost) (js "alpha-beta"))
             {| url := js "https://example.org/a.png";
                caption := Some (js "Shot"); alt := None |}
             {| url := js "https://example.org/b.png";
                caption := Some (js "Shot"); alt := None |}
             eq_refl eq_refl eq_refl eq_refl eq_refl).
  - destruct (proj1 (attachment_naming (host := exampleHost) (js "alpha-beta"))
                [ {| url := js "https://example.org/a.PDF";
                     caption := Some (js "- Shot -"); alt := None |} ])
      as [children [Hbuild [Hlen [_ Hnames]]]].
    exists children. split; [exact Hbuild|].
    destruct (Hnames [] _ [] eq_refl) as [cb [nm [content [ca [Hch [Hcb Hfree]]]]]].
    destruct cb; [|discriminate Hcb].
    rewrite Hch in Hlen. destruct ca; [|discriminate Hlen].
    apply firstFree_first in Hfree. rewrite Hch, Hfree. reflexivity.
Defined.

(** ** Instances of the further properties *)

Lemma absolute_path_keeps_dots_witness :
  segments (_resolveAbsolutePath (js "/base/nothing/../about") (js "/projects"))
  = [js "base"; js "nothing"; js ".."; js "about"]
  /\ resolvePath (host := exampleHost) exampleFs (js "/base/nothing/../about")
       (js "/projects")
     = Return None.
Proof.
  destruct (@absolute_path_keeps_dots exampleHost exampleFs exampleRoot
              (js "/base/nothing/../about") (js "/projects")
              eq_refl eq_refl eq_refl)
    as [Hsegs Hnone].
  split; [exact Hsegs|].
  apply (Hnone (js "nothing")).
  - vm_compute. tauto.
  - vm_compute. intuition discriminate.
  - reflexivity.
Defined.

Lemma tree_depth_one_witness :
  getTree (host := exampleHost) exampleFs (js "..") 1 (js "/base")
  = Return (join nl [js "//"; connectorMid ++ js "base/";
                     connectorMid ++ js "projects/";
                     connectorLast ++ js "meta/"]).
Proof.
  exact (@tree_depth_one exampleHost exampleFs (js "..") (js "/base")
           [] (js "/") None
           (match exampleRoot with Directory _ _ _ cs => cs | _ => [] end)
           eq_refl).
Defined.

Lemma parse_words_witness :
  _parseCommand (js "tree projects/alpha 2")
  = (js "tree", [js "projects/alpha"; js "2"]).
Proof.
  exact (@parse_words (js "tree") [js "projects/alpha"; js "2"] eq_refl eq_refl).
Defined.

Lemma parse_quoted_witness :
  _parseCommand (js "search -x " ++ [quote] ++ js "two words" ++ [quote])
  = (js "search", [js "-x"; js "two words"]).
Proof.
  apply (@parse_quoted (js "search") [js "-x"] (js "two words"));
    [reflexivity | reflexivity |].
  vm_compute. intuition discriminate.
Defined.

Lemma unknown_command_witness :
  execute (host := exampleHost) exampleFs newSession (js " toString  x ")
  = (failure (js "Error: unknown command: toString. Type 'help' for available commands."),
     {| cwd := js "/"; history := [js "toString  x"] |}).
Proof.
  apply (@unknown_command exampleHost exampleFs newSession (js " toString  x ")).
  - discriminate.
  - reflexivity.
  - vm_compute. intuition discriminate.
Defined.

Lemma cwd_stays_valid_witness :
  validCwd (host := exampleHost) exampleFs
    (executeAll (host := exampleHost) exampleFs newSession
       [js "cd projects/alpha-beta"; js "cd ../nowhere"; js "ls | wc"; js "cd attachments"]).
Proof.
  apply (@cwd_stays_valid exampleHost exampleFs exampleRoot).
  - reflexivity.
  - reflexivity.
  - exact (built_tree_wellFormed (host := exampleHost) exampleConstants
             (Some exampleProjects) exampleRoot_built).
  - exists [], None. eexists. vm_compute. reflexivity.
Defined.

Lemma autocomplete_replaces_last_part_witness :
  _handleAutocomplete (host := exampleHost) exampleFs newSession
    {| historyIndex := -1; inputValue := js "cd projects/al" |}
  = ({| historyIndex := -1; inputValue := js "cd alpha-beta/" |}, None).
Proof.
  apply (@autocomplete_replaces_last_part exampleHost exampleFs newSession
           {| historyIndex := -1; inputValue := js "cd projects/al" |}
           (js "cd ") (js "projects/al") (js "alpha-beta/")).
  - reflexivity.
  - vm_compute. intuition discriminate.
  - right. reflexivity.
  - vm_compute. reflexivity.
Defined.

Lemma exampleRoot_wellFormed : wellFormed (js "/") exampleRoot.
Proof.
  exact (built_tree_wellFormed (host := exampleHost) exampleConstants
           (Some exampleProjects) exampleRoot_built).
Qed.

Lemma search_order_witness :
  exists results,
    search (host := exampleHost) exampleFs (js "Alpha") = Return results
    /\ map resultPath results
       = [ js "/projects/alpha-beta/overview";
           js "/projects/alpha-beta/architecture";
           js "/projects/alpha-beta/decisions.log";
           js "/projects/alpha-beta/impact" ].
Proof.
  destruct (@search_order exampleHost exampleFs exampleRoot (js "Alpha") eq_refl)
    as [results [Hsearch [Hpaths _]]]; [discriminate|].
  exists results. split; [exact Hsearch|].
  rewrite Hpaths. vm_compute. reflexivity.
Defined.

Lemma setCwd_moves_witness :
  cwd (snd (setCwd (host := exampleHost) exampleFs (js "projects/../meta")
              {| cwd := js "/base"; history := [js "cd base"] |}))
  = js "/meta".
Proof.
  destruct (@setCwd_moves exampleHost exampleFs exampleRoot
              {| cwd := js "/base"; history := [js "cd base"] |}
              (js "projects/../meta") eq_refl eq_refl exampleRoot_wellFormed)
    as [_ [_ [Hmoves _]]].
  destruct (Hmoves eq_refl) as [Hcwd _]. exact Hcwd.
Defined.

Lemma cd_round_trip_witness :
  cwd (snd (execute (host := exampleHost) exampleFs
              {| cwd := js "/projects"; history := [] |} (js "cd alpha-beta")))
  = js "/projects/alpha-beta"
  /\ cwd (executeAll (host := exampleHost) exampleFs
            {| cwd := js "/projects"; history := [] |}
            [js "cd alpha-beta"; js "cd .."])
     = js "/projects".
Proof.
  eapply (@cd_round_trip exampleHost exampleFs exampleRoot
            {| cwd := js "/projects"; history := [] |} (js "alpha-beta")).
  - reflexivity.
  - reflexivity.
  - exact exampleRoot_wellFormed.
  - exists (js "projects"), None. eexists. vm_compute. reflexivity.
  - reflexivity.
  - vm_compute. intuition discriminate.
  - discriminate.
  - discriminate.
  - reflexivity.
  - vm_compute. reflexivity.
Defined.

Lemma alias_equivalence_witness :
  fst (execute (host := exampleHost) exampleFs newSession (js "ls base"))
  = fst (execute (host := exampleHost) exampleFs newSession (js "list base"))
  /\ cwd (snd (execute (host := exampleHost) exampleFs newSession (js "ls base")))
     = cwd (snd (execute (host := exampleHost) exampleFs newSession
                   (js "list base"))).
Proof.
  apply (@alias_equivalence exampleHost exampleFs newSession
           (js "ls") (js "list") [js "base"]).
  - left. reflexivity.
  - reflexivity.
  - reflexivity.
Defined.

Lemma autocomplete_commands_witness :
  In (js "cd")
     (getAutocompleteSuggestions (host := exampleHost) exampleFs newSession
        (js "cd "))
  /\ StronglySorted (fun a b => (compareUnits a b <= 0)%Z)
       (getAutocompleteSuggestions (host := exampleHost) exampleFs newSession
          (js "cd ")).
Proof.
  destruct (@autocomplete_commands exampleHost exampleFs newSession (js "cd "))
    as [Hin Hsorted]; [discriminate | reflexivity |].
  split; [|exact Hsorted].
  apply Hin. split; [vm_compute; tauto | reflexivity].
Defined.

Lemma project_path_by_id_witness :
  getProjectPathById (host := exampleHost) exampleFs (js "7abc")
  = Return (Some (js "/projects/alpha-beta"))
  /\ exists fs,
       initialize (host := exampleHost) exampleConstants newVirtualFileSystem
         (Some [exampleProject; bigProject]) = Some fs
       /\ getProjectPathById (host := exampleHost) fs (js "9007199254740993")
          = Return (Some (js "/projects/big"))
       /\ getProjectPathById (host := exampleHost) fs (js "9007199254740994")
          = Return None.
Proof.
  split.
  - destruct (@project_path_by_id exampleHost exampleFs [] (js "/") None
                (match exampleRoot with Directory _ _ _ cs => cs | _ => [] end)
                (js "projects") (js "/projects") None
                (match getOwn (match exampleRoot with
                               | Directory _ _ _ cs => cs
                               | _ => []
                               end) (js "projects") with
                 | Some (Directory _ _ _ cs) => cs
                 | _ => []
                 end)
                (js "7abc") eq_refl eq_refl) as [_ [_ [Hfound _]]].
    apply (Hfound 7%Z 7%Z (js "/projects/alpha-beta") eq_refl eq_refl).
    exists []. do 3 eexists. split; [reflexivity|].
    split; [reflexivity|]. split; [reflexivity | constructor].
  - destruct (initialize (host := exampleHost) exampleConstants
                newVirtualFileSystem (Some [exampleProject; bigProject]))
      as [fs|] eqn:Hinit; [|vm_compute in Hinit; discriminate Hinit].
    exists fs. split; [reflexivity|].
    vm_compute in Hinit. injection Hinit as <-.
    split.
    + match goal with
      | |- getProjectPathById ?fs _ = _ =>
          destruct (@project_path_by_id exampleHost fs [] (js "/") None
                      (match root fs with
                       | Some (Directory _ _ _ cs) => cs
                       | _ => []
                       end)
                      (js "projects") (js "/projects") None
                      (match root fs with
                       | Some (Directory _ _ _ cs) =>
                           match getOwn cs (js "projects") with
                           | Some (Directory _ _ _ ps) => ps
                           | _ => []
                           end
                       | _ => []
                       end)
                      (js "9007199254740993") eq_refl eq_refl)
            as [_ [_ [Hfound [_ [_ Hround]]]]]
      end.
      apply (Hfound 9007199254740993%Z 9007199254740992%Z (js "/projects/big")
               eq_refl Hround).
      eexists [_]. do 3 eexists. split; [reflexivity|].
      split; [reflexivity|]. split; [reflexivity|].
      repeat constructor. discriminate.
    + match goal with
      | |- getProjectPathById ?fs _ = _ =>
          destruct (@project_path_by_id exampleHost fs [] (js "/") None
                      (match root fs with
                       | Some (Directory _ _ _ cs) => cs
                       | _ => []
                       end)
                      (js "projects") (js "/projects") None
                      (match root fs with
                       | Some (Directory _ _ _ cs) =>
                           match getOwn cs (js "projects") with
                           | Some (Directory _ _ _ ps) => ps
                           | _ => []
                           end
                       | _ => []
                       end)
                      (js "9007199254740994") eq_refl eq_refl)
            as [_ [_ [_ [Hnone _]]]]
      end.
      apply (Hnone 9007199254740994%Z 9007199254740994%Z eq_refl);
        [vm_compute; reflexivity|].
      repeat constructor; discriminate.
Defined.

Lemma later_project_wins_witness :
  exists children n,
    _buildProjectsDirectory (host := exampleHost)
      (Some [ exampleProject;
              {| id := Some 9%Z; title := js "alpha  BETA";
                 role := js "Lead"; description := js "Another one.";
                 problem_statement := None; architecture_image := None;
                 technical_highlights := None; design_decisions := None;
                 impact_metrics := None; attachments := None |} ])
    = Some (Directory (js "projects") (js "/projects") None children)
    /\ projectNode (host := exampleHost)
         {| id := Some 9%Z; title := js "alpha  BETA";
            role := js "Lead"; description := js "Another one.";
            problem_statement := None; architecture_image := None;
            technical_highlights := None; design_decisions := None;
            impact_metrics := None; attachments := None |}
       = Some n
    /\ get children (js "alpha-beta") = Own n.
Proof.
  apply (@later_project_wins exampleHost
           [ exampleProject;
             {| id := Some 9%Z; title := js "alpha  BETA";
                role := js "Lead"; description := js "Another one.";
                problem_statement := None; architecture_image := None;
                technical_highlights := None; design_decisions := None;
                impact_metrics := None; attachments := None |} ]
           [exampleProject] []).
  - reflexivity.
  - intros q' [].
Defined.

Lemma absolute_dots_unresolved_witness :
  resolvePath (host := exampleHost) exampleFs (js "/projects/../base") (js "/meta")
  = Return None.
Proof.
  apply (@absolute_dots_unresolved exampleHost exampleConstants
           (Some exampleProjects) exampleFs).
  - exact example_initialize.
  - reflexivity.
  - right. vm_compute. tauto.
Defined.

Lemma deep_link_witness :
  setCwd (host := exampleHost) exampleFs (js "/projects/alpha-beta") newSession
  = (Return true, {| cwd := js "/projects/alpha-beta"; history := [] |}).
Proof.
  destruct (@deep_link exampleHost exampleConstants (Some exampleProjects)
              exampleFs (js "7") (js "/projects/alpha-beta") newSession
              example_initialize eq_refl) as [Hmoves _].
  exact Hmoves.
Defined.

(** ** Where the specification differs *)

(** C4 as the specification has it, that the resolver never throws, fails
    on a filesystem that was not initialized: there the resolver throws. *)
Lemma resolver_throws_before_initialize :
  ~ (forall (fs : VirtualFileSystem) (p cwd : jstring),
       exists v, resolvePath (host := exampleHost) fs p cwd = Return v).
Proof.
  intros H. destruct (H newVirtualFileSystem (js "/") (js "/")) as [v Hv].
  assert (Hthrown : resolvePath (host := exampleHost) newVirtualFileSystem
                      (js "/") (js "/")
                    = Throw FilesystemNotInitialized) by reflexivity.
  rewrite Hthrown in Hv. discriminate Hv.
Qed.

(** C2 as the specification has it, that every input line is added to the
    history as it was typed, fails on a line with white space around it,
    of which the history keeps the trimmed form, and on a blank line, which
    the history does not keep. *)
Lemma history_keeps_the_trimmed_line :
  ~ (forall (fs : VirtualFileSystem) (st : session) (input : jstring),
       (error (fst (execute (host := exampleHost) fs st input)) = true ->
        cwd (snd (execute (host := exampleHost) fs st input)) = cwd st)
       /\ history (snd (execute (host := exampleHost) fs st input))
          = history st ++ [input]).
Proof.
  intros H. destruct (H exampleFs newSession (js " pwd")) as [_ Hhistory].
  vm_compute in Hhistory. discriminate Hhistory.
Qed.

(** C7 as the specification has it, that every depth argument which is not
    a positive integer gives the invalid-depth error, fails on [2abc], of
    which [parseInt] reads the 2. *)
Lemma depth_with_trailing_text_is_accepted :
  ~ (forall (fs : VirtualFileSystem) (args : list jstring) (st : session)
            (a : jstring),
       nth_error args 1 = Some a ->
       isPositiveInteger a = false ->
       fst (cmdTree (host := exampleHost) fs args st) = Throw InvalidDepth).
Proof.
  intros H.
  specialize (H exampleFs [js "/"; js "2abc"] newSession (js "2abc")
                eq_refl eq_refl).
  vm_compute in H. discriminate H.
Qed.

(** C9 as the specification has it, that every file under a project
    directory gives the intent to navigate to the project, fails for a
    project without identifier: its attachment gives the intent to navigate
    to the URL. *)
Lemma a_project_without_identifier_gives_the_url :
  ~ (forall (projectData : list project) (fs : VirtualFileSystem)
            (st : session) (p nm filePath content : jstring)
            (u : option jstring) (slug : jstring) (rest : list jstring),
       initialize (host := exampleHost) exampleConstants newVirtualFileSystem
         (Some projectData) = Some fs ->
       resolvePath (host := exampleHost) fs p (cwd st)
       = Return (Some (Node (File nm filePath content u))) ->
       segments filePath = js "projects" :: slug :: rest ->
       exists i result,
         fst (cmdOpen (host := exampleHost) fs [p] st) = Return result
         /\ resNavigation result = Some (NavigateProject i)).
Proof.
  intros H.
  destruct (initialize (host := exampleHost) exampleConstants
              newVirtualFileSystem (Some [draftProject])) as [fs|] eqn:Hfs;
    [|vm_compute in Hfs; discriminate Hfs].
  vm_compute in Hfs. injection Hfs as Hfs.
  edestruct (H [draftProject] fs newSession
               (js "/projects/draft/attachments/shot.jpg"))
    as [i [result [Hopen Hintent]]].
  - rewrite <- Hfs. vm_compute. reflexivity.
  - rewrite <- Hfs. lazy. reflexivity.
  - lazy. reflexivity.
  - rewrite <- Hfs in Hopen. vm_compute in Hopen.
    injection Hopen as <-. discriminate Hintent.
Qed.

(** The identifier 0 is found by [getProjectPathById] as any other, and
    counts as none where [cmdOpen] asks for the project of a file: the
    attachment of such a project gives the intent to navigate to the URL. *)
Lemma zero_identifier_counts_as_none :
  exists fs,
    initialize (host := exampleHost) exampleConstants newVirtualFileSystem
      (Some [zeroProject]) = Some fs
    /\ getProjectPathById (host := exampleHost) fs (js "0")
       = Return (Some (js "/projects/zero"))
    /\ fst (cmdOpen (host := exampleHost) fs
              [js "/projects/zero/attachments/shot.jpg"] newSession)
       = Return {| resOutput := js "Opening: /projects/zero/attachments/shot.jpg";
                   resNavigation := Some (NavigateUrl (js "https://example.org/z.png"));
                   resExit := false; resClear := false |}.
Proof.
  destruct (initialize (host := exampleHost) exampleConstants
              newVirtualFileSystem (Some [zeroProject])) as [fs|] eqn:Hfs;
    [|vm_compute in Hfs; discriminate Hfs].
  exists fs. split; [reflexivity|].
  vm_compute in Hfs. injection Hfs as <-.
  split; vm_compute; reflexivity.
Qed.



(** Where lower case is longer than the text the offsets of the lower-case
    copy do not fit the text: in [dottedText] the word stands at offset 60,
    in its lower case at offset 120, and the snippet, cut from the text at
    the offsets of the copy, starts after the word and is marked as cut
    behind although it runs to the end of the text. *)
Lemma snippet_of_longer_lower_case :
  exists r,
    searchHit (host := wideHost) (js "/t") dottedText (js "needle") = Some r
    /\ firstMatch dottedText (js "needle") 60
    /\ firstMatch (toLowerCase (Host := wideHost) dottedText) (js "needle") 120
    /\ snippet r = js "...a line of text that goes on for a while after the word..."
    /\ includes (snippet r) (js "needle") = false.
Proof.
  eexists. split; [vm_compute; reflexivity|].
  split; [apply find_firstMatch; vm_compute; reflexivity|].
  split; [apply find_firstMatch; vm_compute; reflexivity|].
  split; vm_compute; reflexivity.
Qed.

(** C8 as the specification words it, with the extension taken from the URL
    as it is, fails: an attachment whose URL ends in [.PDF] gets the
    extension [pdf], since the code looks at the URL in lower case. *)
Lemma upper_case_pdf_is_a_pdf :
  ~ (forall (host : Host) atts slug children before att after cb nm n ca,
       _buildAttachmentsDirectory atts slug
       = Some (Directory (js "attachments")
                 (js "/projects/" ++ slug ++ js "/attachments") None children) ->
       atts = before ++ att :: after ->
       children = cb ++ (nm, n) :: ca ->
       length cb = length before ->
       endsWith nm (js "." ++ claimedExtension att) = true).
Proof.
  intros H.
  pose (att := {| url := js "https://example.org/notes.PDF";
                  caption := Some (js "Notes"); alt := None |}).
  pose (children :=
          match _buildAttachmentsDirectory (host := exampleHost) [att]
                  (js "alpha-beta") with
          | Some (Directory _ _ _ children) => children
          | _ => []
          end).
  specialize (H exampleHost [att] (js "alpha-beta") children [] att [] []
                (js "notes.pdf")
                (match children with
                 | (_, n) :: _ => n
                 | [] => File [] [] [] None
                 end) []).
  assert (Hf : false = true); [|discriminate Hf].
  apply H; vm_compute; reflexivity.
Qed.
